(** * Fast-Bit-Counting: the counting kernels and the chunked harness of
    [count_bits.cpp], embedded in Rocq.

    Target: GCC on x86-64 Linux (LP64).  [unsigned long], [unsigned long long]
    and [size_t] are 64-bit unsigned, [long] is 64-bit two's complement,
    [int] is 32-bit two's complement, memory is little endian.  Integers are
    [Z]; every conversion and every wrap-around of the target is written
    out with [to_ulong], [to_long] and [to_int].  Pointers are plain
    addresses in [Z]. *)

From Stdlib Require Import ZArith List Lia Bool Permutation.
From Stdlib Require String Ascii.
From Stdlib.Strings Require Byte.
From Equations Require Import Equations.
Import ListNotations.
Open Scope Z_scope.

(* The loops defined by well-founded recursion are unfolded without
   function extensionality. *)
Unset Equations With Funext.

(* ===================================================================== *)
(** ** Machine integers *)
(* ===================================================================== *)

Definition to_ulong (z : Z) : Z := z mod 2 ^ 64.
Definition to_long (z : Z) : Z := (z + 2 ^ 63) mod 2 ^ 64 - 2 ^ 63.
Definition to_int (z : Z) : Z := (z + 2 ^ 31) mod 2 ^ 32 - 2 ^ 31.
Definition to_size_t (z : Z) : Z := to_ulong z.

(** The number of one digits of a binary numeral: what the [popcnt]
    instruction and [__builtin_popcountl] compute on a 64-bit operand. *)
Fixpoint pos_popcount (p : positive) : Z :=
  match p with
  | xH => 1
  | xO q => pos_popcount q
  | xI q => 1 + pos_popcount q
  end.

Definition popcount (z : Z) : Z :=
  match z with
  | Zpos p => pos_popcount p
  | _ => 0
  end.

(** [i, i+1, ..., hi-1]: the values a C loop [for (i = lo; i < hi; i++)]
    gives its counter. *)
Definition zrange (lo hi : Z) : list Z :=
  map (fun k => lo + Z.of_nat k) (seq 0 (Z.to_nat (hi - lo))).

(** Conversions between the 64-bit types, and the step of Kernighan's
    loop on the unsigned reading of a word: [u & (u - 1)] is below [u].
    The loops below are defined by well-founded recursion on these. *)

Lemma land_bit0 (a b : Z) (a0 b0 : bool) :
  Z.land (2 * a + Z.b2z a0) (2 * b + Z.b2z b0)
  = 2 * Z.land a b + Z.b2z (a0 && b0).
Proof.
  apply Z.bits_inj'; intros n Hn.
  rewrite Z.land_spec.
  destruct (Z.eq_dec n 0) as [-> | Hnz].
  - rewrite !Z.testbit_0_r. reflexivity.
  - replace n with (Z.succ (n - 1)) by lia.
    rewrite !Z.testbit_succ_r by lia.
    symmetry; apply Z.land_spec.
Qed.

Lemma to_ulong_range z : 0 <= to_ulong z < 2 ^ 64.
Proof. apply Z.mod_pos_bound. lia. Qed.

Lemma to_long_range z : - 2 ^ 63 <= to_long z < 2 ^ 63.
Proof. unfold to_long. pose proof (Z.mod_pos_bound (z + 2 ^ 63) (2 ^ 64)). lia. Qed.

Lemma to_ulong_id z : 0 <= z < 2 ^ 64 -> to_ulong z = z.
Proof. apply Z.mod_small. Qed.

Lemma to_long_id z : - 2 ^ 63 <= z < 2 ^ 63 -> to_long z = z.
Proof. intros H. unfold to_long. rewrite Z.mod_small; lia. Qed.

Lemma to_long_idem z : to_long (to_long z) = to_long z.
Proof. apply to_long_id, to_long_range. Qed.

Lemma to_ulong_to_long z : to_ulong (to_long z) = to_ulong z.
Proof.
  unfold to_ulong, to_long.
  rewrite Zminus_mod_idemp_l. f_equal. ring.
Qed.

Lemma to_long_to_ulong z : to_long (to_ulong z) = to_long z.
Proof.
  unfold to_ulong, to_long.
  rewrite Zplus_mod_idemp_l. reflexivity.
Qed.

Lemma to_ulong_land a b :
  to_ulong (Z.land a b) = Z.land (to_ulong a) (to_ulong b).
Proof.
  unfold to_ulong. rewrite <- !Z.land_ones by lia.
  apply Z.bits_inj'; intros n Hn. rewrite !Z.land_spec.
  destruct (Z.testbit a n), (Z.testbit b n), (Z.testbit (Z.ones 64) n);
    reflexivity.
Qed.

Lemma to_ulong_pred z : to_ulong z <> 0 -> to_ulong (z - 1) = to_ulong z - 1.
Proof.
  unfold to_ulong. intros H.
  pose proof (Z.mod_pos_bound z (2 ^ 64) ltac:(lia)).
  rewrite <- Zminus_mod_idemp_l. apply Z.mod_small. lia.
Qed.

Lemma popcount_nonneg z : 0 <= popcount z.
Proof.
  destruct z as [| p | p]; cbn [popcount]; try lia.
  induction p; cbn [pos_popcount]; lia.
Qed.

Lemma popcount_bit a (b : bool) :
  0 <= a -> popcount (2 * a + Z.b2z b) = popcount a + Z.b2z b.
Proof.
  intros Ha. destruct a as [| p | p]; [destruct b; reflexivity | | lia].
  destruct b; cbn [Z.b2z].
  - rewrite <- Pos2Z.inj_xI. cbn [popcount pos_popcount]. lia.
  - rewrite Z.add_0_r, <- Pos2Z.inj_xO, Z.add_0_r. reflexivity.
Qed.

Lemma land_pred_popcount (u : Z) :
  0 < u ->
  0 <= Z.land u (u - 1) < u /\
  popcount (Z.land u (u - 1)) = popcount u - 1.
Proof.
  destruct u as [| p | p]; try lia. intros _.
  induction p as [p IH | p IH |].
  - rewrite Pos2Z.inj_xI.
    pose proof (land_bit0 (Z.pos p) (Z.pos p) true false) as E.
    rewrite Z.land_diag in E. cbn [andb] in E.
    pose proof (popcount_bit (Z.pos p) true ltac:(lia)) as P1.
    pose proof (popcount_bit (Z.pos p) false ltac:(lia)) as P0.
    cbn [Z.b2z] in E, P1, P0.
    replace (2 * Z.pos p + 1 - 1) with (2 * Z.pos p + 0) by lia.
    rewrite E, P1, P0. lia.
  - rewrite Pos2Z.inj_xO. destruct IH as [IHr IHp].
    pose proof (land_bit0 (Z.pos p) (Z.pos p - 1) false true) as E.
    pose proof (popcount_bit (Z.pos p) false ltac:(lia)) as P0.
    pose proof (popcount_bit (Z.land (Z.pos p) (Z.pos p - 1)) false
                  ltac:(lia)) as P0'.
    cbn [andb Z.b2z] in E, P0, P0'.
    replace (2 * (Z.pos p - 1) + 1) with (2 * Z.pos p - 1) in E by lia.
    rewrite Z.add_0_r in E, P0. rewrite E, P0, P0'. lia.
  - cbn. lia.
Qed.

(** What a turn of Kernighan's loop decreases: the number of set bits of
    the word (one more for a [chunk] that is not yet a [long] value). *)
Definition kernighan_measure (chunk : Z) : nat :=
  Z.to_nat (popcount (to_ulong chunk)
            + (if chunk =? to_long chunk then 0 else 1)).

Lemma kernighan_step_lt chunk :
  chunk <> 0 ->
  (kernighan_measure (to_long (Z.land chunk (to_long (chunk - 1))))
   < kernighan_measure chunk)%nat.
Proof.
  intros Hnz. unfold kernighan_measure.
  rewrite to_long_idem, Z.eqb_refl, to_ulong_to_long, to_ulong_land,
    to_ulong_to_long.
  pose proof (to_ulong_range chunk) as Hu.
  destruct (Z.eq_dec (to_ulong chunk) 0) as [E | E].
  - rewrite E, Z.land_0_l. 
    destruct (Z.eqb_spec chunk (to_long chunk)) as [Hr | _].
    + exfalso. apply Hnz. rewrite Hr, <- to_long_to_ulong, E. reflexivity.
    + cbn. lia.
  - rewrite to_ulong_pred by exact E.
    destruct (land_pred_popcount (to_ulong chunk) ltac:(lia)) as [_ Hp].
    rewrite Hp. pose proof (popcount_nonneg (to_ulong chunk)).
    assert (0 < popcount (to_ulong chunk)).
    { pose proof (popcount_nonneg (Z.land (to_ulong chunk) (to_ulong chunk - 1))).
      lia. }
    destruct (chunk =? to_long chunk); lia.
Qed.

(* ===================================================================== *)
(** ** Memory, the global lookup table, and the log of buffer reads *)
(* ===================================================================== *)

Definition uchar := Byte.byte.

Definition u8 (b : uchar) : Z := Z.of_N (Byte.to_N b).

Definition uchar_of (z : Z) : uchar :=
  match Byte.of_N (Z.to_N (z mod 256)) with
  | Some b => b
  | None => Byte.x00
  end.

(** A load of one [uchar] or of one [chunk_t] at an address. *)
Inductive event :=
| Ld8 (addr : Z)
| Ld64 (addr : Z).

Record state := mkState {
  mem : Z -> uchar;            (* the bytes of memory *)
  lookup_table : Z -> Z;       (* static int lookup_table[256] *)
  trace : list event           (* loads performed so far, oldest first *)
}.

Definition M (A : Type) : Type := state -> A * state.

Definition ret {A} (a : A) : M A := fun st => (a, st).

Definition bind {A B} (m : M A) (k : A -> M B) : M B :=
  fun st => let (a, st') := m st in k a st'.

Notation "x <- m ;; k" := (bind m (fun x => k))
  (at level 61, m at next level, right associativity).

Definition log (e : event) (st : state) : state :=
  mkState (mem st) (lookup_table st) (trace st ++ [e]).

(** Little-endian value of a sequence of byte values. *)
Definition le_bytes (l : list Z) : Z :=
  fold_right (fun b acc => b + 256 * acc) 0 l.

(** [buffer[i]] *)
Definition load8 (addr : Z) : M Z :=
  fun st => (u8 (mem st addr), log (Ld8 addr) st).

(** [*reinterpret_cast<chunk_t *>(addr)] *)
Definition load64 (addr : Z) : M Z :=
  fun st => (le_bytes (map (fun k => u8 (mem st (addr + k))) (zrange 0 8)),
             log (Ld64 addr) st).

Definition lut_get (i : Z) : M Z :=
  fun st => (lookup_table st i, st).

Definition lut_set (i v : Z) : M unit :=
  fun st => (tt, mkState (mem st)
                         (fun j => if j =? i then v else lookup_table st j)
                         (trace st)).

(** A loop over the values [l] of its counter, threading the local
    variable [acc] that the body updates. *)
Fixpoint foldM {I A} (body : I -> A -> M A) (l : list I) (acc : A) : M A :=
  match l with
  | [] => ret acc
  | i :: l' => acc' <- body i acc ;; foldM body l' acc'
  end.

(* ===================================================================== *)
(** ** The naive counter and the lookup table *)
(* ===================================================================== *)

Definition chunk_size : Z := 8.
Definition double_chunk_size : Z := 8.

Definition count_bits_naive (buffer bufsize : Z) : M Z :=
  foldM (fun byte bitcount =>
           foldM (fun bit bitcount =>
                    b <- load8 (buffer + byte) ;;
                    if Z.land b (Z.shiftl 1 bit) =? 0
                    then ret bitcount
                    else ret (to_long (bitcount + 1)))
                 (zrange 0 8) bitcount)
        (zrange 0 bufsize) 0.

(** The object representation of a local variable of [size] bytes holding
    [number], as the memory [reinterpret_cast<const uchar *>(&number)]
    points into. *)
Definition object_repr (number : Z) : Z -> uchar :=
  fun a => uchar_of (Z.shiftr number (8 * a)).

(** [count_bits<number_type>], with [size = sizeof(number_type)]: the
    naive counter run over the local copy of [number]. *)
Definition count_bits (size number : Z) : M Z :=
  fun st =>
    let frame := mkState (object_repr number) (lookup_table st) [] in
    (fst (count_bits_naive 0 size frame), st).

Definition init_lookup_table : M unit :=
  foldM (fun i (_ : unit) =>
           c <- count_bits 4 i ;;
           lut_set i (to_int c))
        (zrange 0 256) tt.

(* ===================================================================== *)
(** ** Chunk kernels *)
(* ===================================================================== *)

Definition kernel_func := Z -> M Z.

(** [buffer[byte]] for [buffer = reinterpret_cast<const uchar *>(&chunk)] *)
Definition chunk_byte (chunk byte : Z) : Z :=
  Z.shiftr chunk (8 * byte) mod 256.

Definition table_kernel : kernel_func := fun chunk =>
  foldM (fun byte total =>
           v <- lut_get (chunk_byte chunk byte) ;;
           ret (to_long (total + v)))
        (zrange 0 8) 0.

(** One turn of the [while (chunk)] loop of [kernighan_kernel]:
    [total++; chunk &= chunk - 1;] on two [long]s. *)
Definition kernighan_body (s : Z * Z) : Z * Z :=
  let (chunk, total) := s in
  (to_long (Z.land chunk (to_long (chunk - 1))), to_long (total + 1)).

(** [while (chunk) { total++; chunk &= chunk - 1; } return total;] *)
Equations? kernighan_loop (chunk total : Z) : Z
  by wf (kernighan_measure chunk) lt :=
  kernighan_loop chunk total with Z.eq_dec chunk 0 => {
    | left _ := total;
    | right _ := kernighan_loop (fst (kernighan_body (chunk, total)))
                                (snd (kernighan_body (chunk, total))) }.
Proof.
  cbn [fst kernighan_body]. apply kernighan_step_lt. assumption.
Qed.

Definition kernighan_kernel : kernel_func := fun _chunk =>
  ret (kernighan_loop (to_long _chunk) 0).

(** The mask constants: [~(chunk_t)0] is the all-ones [unsigned long]. *)
Definition B1 : Z := to_ulong (Z.lnot 0) / 3.
Definition B2 : Z := to_ulong (Z.lnot 0) / 15 * 3.
Definition B3 : Z := to_ulong (Z.lnot 0) / 255 * 15.
Definition B4 : Z := to_ulong (Z.lnot 0) / 255.
Definition S1 : Z := (8 - 1) * 8.

(** [_CBITSa], [_CBITSb], [_CBITSc] on [long val]; [>>] on a [long] is the
    arithmetic shift ([Z.shiftr] on a signed [Z]).  An operand [& B] or
    [- (...)] of [unsigned long] type converts the other operand to
    [unsigned long]; [val + (val >> 4)] stays in [long]. *)
Definition _CBITSa (val : Z) : Z :=
  to_long (to_ulong (to_ulong val - Z.land (to_ulong (Z.shiftr val 1)) B1)).

Definition _CBITSb (val : Z) : Z :=
  to_long (to_ulong (Z.land (to_ulong val) B2
                     + Z.land (to_ulong (Z.shiftr val 2)) B2)).

Definition _CBITSc (val : Z) : Z :=
  to_long (Z.land (to_ulong (to_long (val + Z.shiftr val 4))) B3).

Definition _CBITS (val : Z) : Z := _CBITSc (_CBITSb (_CBITSa val)).

Definition _CBITS2 (val : Z) : Z :=
  Z.shiftr (to_ulong (to_ulong val * B4)) S1.

Definition sidewaysaddition_kernel : kernel_func := fun _chunk =>
  let chunk := to_long _chunk in
  let chunk := _CBITS chunk in
  ret (to_long (_CBITS2 chunk)).

(** [__builtin_popcountl] and [__builtin_popcountll] return an [int]. *)
Definition intrinsic_kernel : kernel_func := fun chunk =>
  ret (to_long (to_int (popcount chunk))).

Definition intrinsic_kernel_double : kernel_func := fun chunk =>
  ret (to_long (to_int (popcount chunk))).

(* ===================================================================== *)
(** ** OpenMP *)
(* ===================================================================== *)

(** A team of threads inside [#pragma omp parallel]: each member is a
    thread number paired with the values of the loop counter that the
    worksharing construct ([#pragma omp for]) hands to that thread, in the
    order the thread runs them.  The members are listed in the order in
    which the reduction combines their private copies.  The buffer is only
    read, so the threads are run one after the other. *)
Definition team := list (Z * list Z).

Definition team_size (t : team) : Z := Z.of_nat (length t).

(** The runtime numbers the [T] threads [0 .. T-1] and gives every
    iteration of [0 .. n-1] to exactly one thread. *)
Definition valid_team (n : Z) (t : team) : Prop :=
  t <> [] /\
  Permutation (map fst t) (zrange 0 (team_size t)) /\
  Permutation (concat (map snd t)) (zrange 0 n).

(** [#pragma omp parallel reduction (+:total)]: [region thread_id its]
    returns the thread's private copy of [total] (which starts at 0); the
    copies are added to the original [total]. *)
Definition omp_parallel_reduction (t : team)
    (region : Z -> list Z -> M Z) (total : Z) : M Z :=
  foldM (fun (th : Z * list Z) total =>
           priv <- region (fst th) (snd th) ;;
           ret (to_long (total + priv)))
        t total.

(** A partition of the iterations into contiguous ranges, one per thread:
    thread [tid] runs [lo .. lo+len-1], the next thread starts at [lo+len]
    (what GCC's default static schedule produces). *)
Fixpoint ranges (tid lo : Z) (lens : list Z) : team :=
  match lens with
  | [] => []
  | len :: rest => (tid, zrange lo (lo + len)) :: ranges (tid + 1) (lo + len) rest
  end.

Definition contiguous_team (lens : list Z) : team := ranges 0 0 lens.

(* ===================================================================== *)
(** ** The chunked harness *)
(* ===================================================================== *)

(** The worksharing loop body shared by the harnesses:
    [chunk = *(chunk_t * )(buffer + i * chunk_size); thread_total += func(chunk);] *)
Definition chunk_loop (func : kernel_func) (csize buffer : Z)
    (its : list Z) (thread_total : Z) : M Z :=
  foldM (fun i thread_total =>
           chunk <- load64 (buffer + i * csize) ;;
           r <- func chunk ;;
           ret (to_long (thread_total + r)))
        its thread_total.

Definition count_bits_kernel (func : kernel_func) (t : team)
    (buffer bufsize : Z) : M Z :=
  let total := 0 in
  let num_chunks := to_long (bufsize / chunk_size) in
  let chunked_bufsize := to_size_t (num_chunks * chunk_size) in
  let leftover := to_int (to_size_t (bufsize - chunked_bufsize)) in
  total <- omp_parallel_reduction t
             (fun _ its =>
                let total := 0 in
                thread_total <- chunk_loop func chunk_size buffer its 0 ;;
                ret (to_long (total + thread_total)))
             total ;;
  tail <- count_bits_naive (buffer + chunked_bufsize) (to_size_t leftover) ;;
  ret (to_long (total + tail)).

Definition count_bits_kernel_double (func : kernel_func) (t : team)
    (buffer bufsize : Z) : M Z :=
  let total := 0 in
  let num_chunks := to_long (bufsize / double_chunk_size) in
  let chunked_bufsize := to_size_t (num_chunks * double_chunk_size) in
  let leftover := to_int (to_size_t (bufsize - chunked_bufsize)) in
  total <- omp_parallel_reduction t
             (fun _ its =>
                let total := 0 in
                thread_total <- chunk_loop func double_chunk_size buffer its 0 ;;
                ret (to_long (total + thread_total)))
             total ;;
  tail <- count_bits_naive (buffer + chunked_bufsize) (to_size_t leftover) ;;
  ret (to_long (total + tail)).

(** [thread_id < num_threads / (numFunc1 + numFunc2)] on [int]s. *)
Definition runs_func1 (numFunc1 numFunc2 num_threads thread_id : Z) : bool :=
  thread_id <? Z.quot num_threads (to_int (numFunc1 + numFunc2)).

(** The two [#pragma omp for] loops stand in the two branches of the
    [if]: every thread of the team runs the iterations it is given, in the
    loop of its own branch. *)
Definition count_bits_kernel2 (func func2 : kernel_func)
    (numFunc1 numFunc2 : Z) (t : team) (buffer bufsize : Z) : M Z :=
  let total := 0 in
  let num_chunks := to_long (bufsize / chunk_size) in
  let chunked_bufsize := to_size_t (num_chunks * chunk_size) in
  let leftover := to_int (to_size_t (bufsize - chunked_bufsize)) in
  total <- omp_parallel_reduction t
             (fun thread_id its =>
                let total := 0 in
                let num_threads := team_size t in
                thread_total <-
                  (if runs_func1 numFunc1 numFunc2 num_threads thread_id
                   then chunk_loop func chunk_size buffer its 0
                   else chunk_loop func2 chunk_size buffer its 0) ;;
                ret (to_long (total + thread_total)))
             total ;;
  tail <- count_bits_naive (buffer + chunked_bufsize) (to_size_t leftover) ;;
  ret (to_long (total + tail)).

Definition count_bits_table := count_bits_kernel table_kernel.
Definition count_bits_kernighan := count_bits_kernel kernighan_kernel.
Definition count_bits_sidewaysaddition :=
  count_bits_kernel sidewaysaddition_kernel.
Definition count_bits_intrinsic := count_bits_kernel intrinsic_kernel.
Definition count_bits_intrinsic_double :=
  count_bits_kernel_double intrinsic_kernel_double.
Definition count_bits_optimized :=
  count_bits_kernel2 intrinsic_kernel sidewaysaddition_kernel 1 1.

(* ===================================================================== *)
(** ** The inline-assembly variant *)
(* ===================================================================== *)

(** The loop of [count_bits_asm_chunked] on its registers:
<<
    1: popcnt (%[buffer]), %[bitcount]
       add    %[bitcount], %[total]
       add    $chunk_size, %[buffer]
       loop   1b
>>
    [loop] decrements [rcx] and jumps back while the result is not zero. *)
Equations? asm_loop (rcx buffer total : Z) (st : state) : Z * state
  by wf (Z.to_nat (to_ulong (rcx - 1))) lt :=
  asm_loop rcx buffer total st with load64 buffer st => {
    | (operand, st1) with Z.eq_dec (to_ulong (rcx - 1)) 0 => {
      | left _ := (to_long (total + popcount operand), st1);
      | right _ := asm_loop (to_ulong (rcx - 1)) (buffer + chunk_size)
                            (to_long (total + popcount operand)) st1 } }.
Proof.
  pose proof (to_ulong_range (rcx - 1)).
  rewrite to_ulong_pred by (rewrite to_ulong_id; lia).
  rewrite to_ulong_id by lia. lia.
Qed.

Definition count_bits_asm_chunked (buffer bufsize : Z) : M Z :=
  let iterations := bufsize / chunk_size in
  if iterations =? 0 then ret 0
  else asm_loop iterations buffer 0.

(** [num_threads()]; [omp_num_threads] is what [omp_get_num_threads()]
    returns to the master thread. *)
Definition num_threads (omp_num_threads : Z) : Z :=
  let n_threads := omp_num_threads in
  if 0 <? n_threads then n_threads else -1.

(** The locals [bufsize_per_core] and [chunked_bufsize] of
    [count_bits_asm]: the bytes each core gets, and the prefix of the
    buffer that goes to the cores. *)
Definition asm_bufsize_per_core (num_cores bufsize : Z) : Z :=
  let num_chunks := bufsize / chunk_size in
  let chunks_per_core := num_chunks / to_size_t num_cores in
  to_size_t (chunks_per_core * chunk_size).

Definition asm_chunked_bufsize (num_cores bufsize : Z) : Z :=
  to_size_t (to_size_t num_cores * asm_bufsize_per_core num_cores bufsize).

(** [t] is the team of the [#pragma omp parallel for] with the values of
    [core] each thread is given. *)
Definition count_bits_asm (omp_num_threads : Z) (t : team)
    (buffer bufsize : Z) : M Z :=
  let num_cores := num_threads omp_num_threads in
  let bufsize_per_core := asm_bufsize_per_core num_cores bufsize in
  let chunked_bufsize := asm_chunked_bufsize num_cores bufsize in
  let leftover := to_size_t (bufsize - chunked_bufsize) in
  let total := 0 in
  total <- omp_parallel_reduction t
             (fun _ cores =>
                foldM (fun core total =>
                         let mybuffer :=
                           buffer + to_size_t (to_size_t core * bufsize_per_core) in
                         num_bits <- count_bits_asm_chunked mybuffer
                                                            bufsize_per_core ;;
                         ret (to_long (total + num_bits)))
                      cores 0)
             total ;;
  tail <- count_bits_naive (buffer + chunked_bufsize) leftover ;;
  ret (to_long (total + tail)).

(** A sequence of calls made one after the other, with their results:
    what the loop of [time_bit_counting] does with one counting function,
    and what [main] does with all of them (timings and output left out). *)
Fixpoint run_calls (calls : list (M Z)) : M (list Z) :=
  match calls with
  | [] => ret []
  | c :: rest => r <- c ;; rs <- run_calls rest ;; ret (r :: rs)
  end.

(* ===================================================================== *)
(** ** The command line of [main] *)
(* ===================================================================== *)

Module CLI.
Import String Ascii.
Local Open Scope string_scope.

Definition isspace (c : ascii) : bool :=
  let n := nat_of_ascii c in
  (Nat.eqb n 32 || (Nat.leb 9 n && Nat.leb n 13))%bool.

Definition digit_of (c : ascii) : option Z :=
  let n := nat_of_ascii c in
  if (Nat.leb 48 n && Nat.leb n 57)%bool then Some (Z.of_nat (n - 48))
  else None.

Fixpoint skip_space (s : string) : string :=
  match s with
  | String c r => if isspace c then skip_space r else s
  | EmptyString => s
  end.

(** The decimal digits [s] starts with. *)
Fixpoint digit_run (s : string) : list Z :=
  match s with
  | String c r => match digit_of c with
                  | Some d => d :: digit_run r
                  | None => []
                  end
  | EmptyString => []
  end.

Definition decimal (ds : list Z) : Z :=
  fold_left (fun acc d => 10 * acc + d) ds 0.

(** The sign and the digit run that [atol] converts: white space is
    skipped, then an optional sign is read. *)
Definition number_part (s : string) : bool * list Z :=
  match skip_space s with
  | String "-" r => (true, digit_run r)
  | String "+" r => (false, digit_run r)
  | r => (false, digit_run r)
  end.

(** [atol] of the C library, as glibc implements it ([strtol] in base 10,
    which saturates at [LONG_MIN] and [LONG_MAX]). *)
Definition atol (s : string) : Z :=
  let (neg, ds) := number_part s in
  let v := if neg then - decimal ds else decimal ds in
  Z.max (- 2 ^ 63) (Z.min (2 ^ 63 - 1) v).

Definition megs_of_data (argv : list string) : Z :=
  let argc := Z.of_nat (List.length argv) in
  let megs_of_data := 100 in
  if (1 <? argc)%Z then to_size_t (atol (nth 1 argv EmptyString)) else megs_of_data.

End CLI.

(* ===================================================================== *)
(** ** Timing a counting function, and the benchmarks of [main] *)
(* ===================================================================== *)

Module Driver.
Import String Ascii.

(** What is sent to [cout].  The measured duration comes from the clock:
    of the last line only the place where the seconds per iteration are
    printed is kept, with the divisor [iters]. *)
Inductive out :=
| Str (s : string)
| Num (n : Z)
| Endl
| Seconds_per_iteration (iters : Z).

Definition bit_counting_function := Z -> Z -> M Z.

Definition naive_iters : Z := 10.
Definition kernel_iters : Z := 25.
Definition fast_iters : Z := 100.

(** [time_bit_counting]; [/] and [%] on [int]s are [Z.quot] and [Z.rem]. *)
Definition time_bit_counting (description : string)
    (func : bit_counting_function) (buffer bufsize iters : Z) : M (list out) :=
  let ten_percent := Z.quot iters 10 in
  let ten_percent := if ten_percent <? 10 then 1 else ten_percent in
  let cout := [Endl; Str description] in
  cout <- foldM (fun i cout =>
                   num_bits <- func buffer bufsize ;;
                   if i =? 0
                   then ret (cout ++ [Str " ("; Num num_bits;
                                      Str " bits are set) "])%list
                   else if Z.rem i ten_percent =? 0
                        then ret (cout ++ [Str "."])%list
                        else ret cout)
                (zrange 0 iters) cout ;;
  ret (cout ++ [Endl; Seconds_per_iteration iters;
                Str " seconds per iteration"; Endl])%list.

(** [size_t bufsize = megs_of_data * 1024 * 1024;] *)
Definition main_bufsize (megs_of_data : Z) : Z :=
  to_size_t (to_size_t (megs_of_data * 1024) * 1024).

Section Main.

(** The OpenMP runtime: [omp_team T n] is the team of a parallel region
    that shares out a loop of [n] iterations while the number of threads
    is set to [T] (the setting that [omp_set_num_threads] changes); the
    region that [num_threads] opens under that setting has [T] threads. *)
Variable omp_team : Z -> Z -> team.

(** A counting function as [main] hands it to [time_bit_counting], while
    the number of threads is set to [T]. *)
Definition on_threads (T : Z) (f : team -> Z -> Z -> M Z)
  : bit_counting_function :=
  fun buffer bufsize => f (omp_team T (bufsize / chunk_size)) buffer bufsize.

Definition asm_on_threads (T : Z) : bit_counting_function :=
  fun buffer bufsize =>
    count_bits_asm T (omp_team T (num_threads T)) buffer bufsize.

(** [main] from [init_lookup_table()] to the last [time_bit_counting]:
    [omp_num_threads] is the size of the team that [num_threads()] sees
    before [omp_set_num_threads(1)], [cout] is what has been printed. *)
Definition main_timings (omp_num_threads buffer bufsize : Z) : M (list out) :=
  let timed (cout : list out) description func iters : M (list out) :=
    o <- time_bit_counting description func buffer bufsize iters ;;
    ret (cout ++ o)%list in
  _ <- init_lookup_table ;;
  cout <- timed [] "Naive implementation"%string
                count_bits_naive naive_iters ;;
  let original_n_threads := num_threads omp_num_threads in
  let T := 1 in
  cout <- (if original_n_threads <? 4
           then
             cout <- timed cout "Brian Kernighan's method (serial)"%string
                           (on_threads T count_bits_kernighan) kernel_iters ;;
             timed cout "Lookup table implementation (serial)"%string
                   (on_threads T count_bits_table) kernel_iters
           else ret cout) ;;
  cout <- timed cout "Intrinsic implementation (serial)"%string
                (on_threads T count_bits_intrinsic) fast_iters ;;
  cout <- timed cout "Intrinsic implementation double (serial)"%string
                (on_threads T count_bits_intrinsic_double) fast_iters ;;
  cout <- timed cout "ASM implementation (serial)"%string
                (asm_on_threads T) fast_iters ;;
  cout <- timed cout "Sideways Addition (serial)"%string
                (on_threads T count_bits_sidewaysaddition) fast_iters ;;
  if 1 <? original_n_threads
  then
    let T := original_n_threads in
    cout <- timed cout "Brian Kernighan's method (parallel)"%string
                  (on_threads T count_bits_kernighan) kernel_iters ;;
    cout <- timed cout "Lookup table implementation (parallel)"%string
                  (on_threads T count_bits_table) kernel_iters ;;
    cout <- timed cout "Intrinsic implementation (parallel)"%string
                  (on_threads T count_bits_intrinsic) fast_iters ;;
    cout <- timed cout "Intrinsic implementation double (parallel)"%string
                  (on_threads T count_bits_intrinsic_double) fast_iters ;;
    cout <- timed cout "ASM implementation (parallel)"%string
                  (asm_on_threads T) fast_iters ;;
    cout <- timed cout "Sideways Addition (parallel)"%string
                  (on_threads T count_bits_sidewaysaddition) fast_iters ;;
    timed cout "Optimized hyperthread (parallel)"%string
          (on_threads T count_bits_optimized) fast_iters
  else ret cout.

End Main.

End Driver.

(* ===================================================================== *)
(** ** Filling the buffer: [init_buffer] *)
(* ===================================================================== *)

(** [*myBuf = v] through a [long *]: the eight bytes of [v], little
    endian. *)
Definition store64 (addr v : Z) : M unit :=
  fun st =>
    (tt, mkState (fun a => if (addr <=? a) && (a <? addr + 8)
                           then uchar_of (Z.shiftr (to_ulong v) (8 * (a - addr)))
                           else mem st a)
                 (lookup_table st) (trace st)).

(** [while (myBuf != myEnd) { *myBuf++ = dist(rng); }] run for at most
    [fuel] turns.  [dist k] is the value [dist(rng)] returns at its
    [k]-th call in this thread (the generator is seeded from
    [/dev/urandom]); [drawn] counts the calls made so far.  The result is
    the list of the addresses stored to, oldest first, and whether the
    loop has been left. *)
Fixpoint fill_loop (fuel : nat) (dist : nat -> Z) (drawn : nat)
    (myBuf myEnd : Z) : M (list Z * bool) :=
  match fuel with
  | O => ret ([], false)
  | S fuel =>
      if myBuf =? myEnd then ret ([], true)
      else _ <- store64 myBuf (dist drawn) ;;
           r <- fill_loop fuel dist (S drawn) (myBuf + 8) myEnd ;;
           ret (myBuf :: fst r, snd r)
  end.

(** What the thread [thread_id] of a team of [num_threads] does in the
    parallel region of [init_buffer], on the array [buffer] that
    [new unsigned char[bufsize]] returned; [dist] is the generator of
    this thread. *)
Definition init_buffer_thread (fuel : nat) (num_threads : Z) (dist : nat -> Z)
    (buffer bufsize thread_id : Z) : M (list Z * bool) :=
  let myBuffSize := Z.quot bufsize num_threads in
  let myBuf := buffer + myBuffSize * thread_id in
  let myEnd := buffer + myBuffSize * (thread_id + 1) in
  let myEnd := if thread_id =? num_threads - 1
               then buffer + bufsize else myEnd in
  fill_loop fuel dist 0 myBuf myEnd.

(** The parallel region of [init_buffer]: the threads are run one after
    the other, in the order of their numbers, each with its own
    generator [dist thread_id].  The result is the list of the addresses
    stored to and whether every thread has left its loop. *)
Definition init_buffer (fuel : nat) (num_threads : Z) (dist : Z -> nat -> Z)
    (buffer bufsize : Z) : M (list Z * bool) :=
  foldM (fun thread_id (r : list Z * bool) =>
           r' <- init_buffer_thread fuel num_threads (dist thread_id)
                                    buffer bufsize thread_id ;;
           ret (fst r ++ fst r', snd r && snd r'))
        (zrange 0 num_threads) ([], true).

(* ===================================================================== *)
(** ** The serial program [sse.cpp] *)
(* ===================================================================== *)

Module Sse.

Definition bit_counting_function := Z -> Z -> M Z.

Definition chunk_size : Z := 8.

Definition count_bits_naive (buffer bufsize : Z) : M Z :=
  foldM (fun byte bitcount =>
           foldM (fun bit bitcount =>
                    b <- load8 (buffer + byte) ;;
                    if Z.land b (Z.shiftl 1 bit) =? 0
                    then ret bitcount
                    else ret (to_long (bitcount + 1)))
                 (zrange 0 8) bitcount)
        (zrange 0 bufsize) 0.

(** The operands of [+] are run left to right. *)
Definition count_bits_chunked (chunked_func : bit_counting_function)
    (buffer bufsize : Z) : M Z :=
  let num_chunks := bufsize / chunk_size in
  let chunked_bufsize := to_size_t (num_chunks * chunk_size) in
  let leftover := to_size_t (bufsize - chunked_bufsize) in
  a <- chunked_func buffer chunked_bufsize ;;
  b <- count_bits_naive (buffer + chunked_bufsize) leftover ;;
  ret (to_long (a + b)).

(** The loop threads the local [buffer], which it advances, and
    [total]. *)
Definition count_bits_intrinsic_chunked (buffer bufsize : Z) : M Z :=
  let iterations := bufsize / chunk_size in
  r <- foldM (fun (_ : Z) (s : Z * Z) =>
                let (buffer, total) := s in
                chunk <- load64 buffer ;;
                ret (buffer + chunk_size,
                     to_long (total + to_int (popcount chunk))))
             (zrange 0 iterations) (buffer, 0) ;;
  ret (snd r).

Definition count_bits_intrinsic : bit_counting_function :=
  count_bits_chunked count_bits_intrinsic_chunked.

(** The same instructions as [count_bits_asm_chunked]. *)
Definition count_bits_fast_chunked (buffer bufsize : Z) : M Z :=
  let iterations := bufsize / chunk_size in
  if iterations =? 0 then ret 0
  else asm_loop iterations buffer 0.

Definition count_bits_fast : bit_counting_function :=
  count_bits_chunked count_bits_fast_chunked.

(** The buffer and the size that [main] hands to the three timed
    functions: [buffer] is what [new unsigned char[bufsize]] returned for
    [megs_of_data] megabytes; then [buffer += 1; bufsize -= 1;]. *)
Definition main_region (megs_of_data buffer : Z) : Z * Z :=
  let bufsize := to_size_t (to_size_t (megs_of_data * 1024) * 1024) in
  let buffer := buffer + 1 in
  let bufsize := to_size_t (bufsize - 1) in
  (buffer, bufsize).

End Sse.

(* ===================================================================== *)
(** ** The worksharing loops, from their headers *)
(* ===================================================================== *)

(** The harness above takes the team of its parallel region as it is
    given.  Here the same functions are written with the header of the
    worksharing loop, [for (long i = 0; i < num_chunks; i++)]: the values
    of the counter are those of the header, and the runtime only decides
    which thread of the team gets which value. *)
Module Omp.

(** How the runtime shares out a worksharing loop: the team has
    [nthreads] threads, numbered from 0, and the value [i] of the loop
    counter goes to the thread [owner i mod nthreads].  Every way of
    giving each value to one thread of the team has this form. *)
Record schedule := mkSchedule {
  nthreads : Z;
  owner : Z -> Z
}.

(** [omp_get_thread_num()] of the thread that runs the iteration [i]. *)
Definition thread_of (s : schedule) (i : Z) : Z := owner s i mod nthreads s.

(** [#pragma omp for] on [for (i = lo; i < hi; i++)], in the thread
    [thread_id]: the values of the counter, taken from the header, that
    this thread is given, in increasing order. *)
Definition omp_for (s : schedule) (thread_id lo hi : Z) : list Z :=
  filter (fun i => thread_of s i =? thread_id) (zrange lo hi).

(** The team of a parallel region whose worksharing loop has the header
    [for (i = lo; i < hi; i++)]. *)
Definition team_of (s : schedule) (lo hi : Z) : team :=
  map (fun thread_id => (thread_id, omp_for s thread_id lo hi))
      (zrange 0 (nthreads s)).

(** [#pragma omp parallel reduction (+:total)]: the threads are run one
    after the other in the order of their numbers; [region thread_id]
    returns the private copy of [total] of the thread. *)
Definition omp_parallel_reduction (s : schedule) (region : Z -> M Z)
    (total : Z) : M Z :=
  foldM (fun thread_id total =>
           priv <- region thread_id ;;
           ret (to_long (total + priv)))
        (zrange 0 (nthreads s)) total.

Definition count_bits_kernel (func : kernel_func) (s : schedule)
    (buffer bufsize : Z) : M Z :=
  let total := 0 in
  let num_chunks := to_long (bufsize / chunk_size) in
  let chunked_bufsize := to_size_t (num_chunks * chunk_size) in
  let leftover := to_int (to_size_t (bufsize - chunked_bufsize)) in
  total <- omp_parallel_reduction s
             (fun thread_id =>
                let total := 0 in
                thread_total <-
                  foldM (fun i thread_total =>
                           chunk <- load64 (buffer + i * chunk_size) ;;
                           r <- func chunk ;;
                           ret (to_long (thread_total + r)))
                        (omp_for s thread_id 0 num_chunks) 0 ;;
                ret (to_long (total + thread_total)))
             total ;;
  tail <- count_bits_naive (buffer + chunked_bufsize) (to_size_t leftover) ;;
  ret (to_long (total + tail)).

Definition count_bits_kernel_double (func : kernel_func) (s : schedule)
    (buffer bufsize : Z) : M Z :=
  let total := 0 in
  let num_chunks := to_long (bufsize / double_chunk_size) in
  let chunked_bufsize := to_size_t (num_chunks * double_chunk_size) in
  let leftover := to_int (to_size_t (bufsize - chunked_bufsize)) in
  total <- omp_parallel_reduction s
             (fun thread_id =>
                let total := 0 in
                thread_total <-
                  foldM (fun i thread_total =>
                           chunk <- load64 (buffer + i * double_chunk_size) ;;
                           r <- func chunk ;;
                           ret (to_long (thread_total + r)))
                        (omp_for s thread_id 0 num_chunks) 0 ;;
                ret (to_long (total + thread_total)))
             total ;;
  tail <- count_bits_naive (buffer + chunked_bufsize) (to_size_t leftover) ;;
  ret (to_long (total + tail)).

(** The two loops have the same header and stand in the two branches of
    the [if]: a thread runs the values of the counter it is given in the
    loop of its own branch (its share depends on its number and on the
    size of the team only, as under GCC's static schedule). *)
Definition count_bits_kernel2 (func func2 : kernel_func)
    (numFunc1 numFunc2 : Z) (s : schedule) (buffer bufsize : Z) : M Z :=
  let total := 0 in
  let num_chunks := to_long (bufsize / chunk_size) in
  let chunked_bufsize := to_size_t (num_chunks * chunk_size) in
  let leftover := to_int (to_size_t (bufsize - chunked_bufsize)) in
  total <- omp_parallel_reduction s
             (fun thread_id =>
                let total := 0 in
                let num_threads := nthreads s in
                thread_total <-
                  (if thread_id <? Z.quot num_threads (to_int (numFunc1 + numFunc2))
                   then
                     foldM (fun i thread_total =>
                              chunk <- load64 (buffer + i * chunk_size) ;;
                              r <- func chunk ;;
                              ret (to_long (thread_total + r)))
                           (omp_for s thread_id 0 num_chunks) 0
                   else
                     foldM (fun i thread_total =>
                              chunk <- load64 (buffer + i * chunk_size) ;;
                              r <- func2 chunk ;;
                              ret (to_long (thread_total + r)))
                           (omp_for s thread_id 0 num_chunks) 0) ;;
                ret (to_long (total + thread_total)))
             total ;;
  tail <- count_bits_naive (buffer + chunked_bufsize) (to_size_t leftover) ;;
  ret (to_long (total + tail)).

Definition count_bits_table := count_bits_kernel table_kernel.
Definition count_bits_kernighan := count_bits_kernel kernighan_kernel.
Definition count_bits_sidewaysaddition :=
  count_bits_kernel sidewaysaddition_kernel.
Definition count_bits_intrinsic := count_bits_kernel intrinsic_kernel.
Definition count_bits_intrinsic_double :=
  count_bits_kernel_double intrinsic_kernel_double.
Definition count_bits_optimized :=
  count_bits_kernel2 intrinsic_kernel sidewaysaddition_kernel 1 1.

(** [#pragma omp parallel for reduction (+:total)] on
    [for (int core = 0; core < num_cores; core++)]. *)
Definition count_bits_asm (omp_num_threads : Z) (s : schedule)
    (buffer bufsize : Z) : M Z :=
  let num_cores := num_threads omp_num_threads in
  let bufsize_per_core := asm_bufsize_per_core num_cores bufsize in
  let chunked_bufsize := asm_chunked_bufsize num_cores bufsize in
  let leftover := to_size_t (bufsize - chunked_bufsize) in
  let total := 0 in
  total <- omp_parallel_reduction s
             (fun thread_id =>
                foldM (fun core total =>
                         let mybuffer :=
                           buffer + to_size_t (to_size_t core * bufsize_per_core) in
                         num_bits <- count_bits_asm_chunked mybuffer
                                                            bufsize_per_core ;;
                         ret (to_long (total + num_bits)))
                      (omp_for s thread_id 0 num_cores) 0)
             total ;;
  tail <- count_bits_naive (buffer + chunked_bufsize) leftover ;;
  ret (to_long (total + tail)).

End Omp.

(* ===================================================================== *)
(** ** The program: [main] *)
(* ===================================================================== *)

Module App.
Import String Ascii Driver.

(** What a run of [main] depends on besides [argv]. *)
Record environment := mkEnvironment {
  (* the number of threads of a parallel region before
     [omp_set_num_threads] is called *)
  omp_num_threads : Z;
  (* while the number of threads is set to [T], the value [i] of the
     counter of a worksharing loop goes to the thread
     [omp_owner T i mod T] *)
  omp_owner : Z -> Z -> Z;
  (* [new unsigned char[n]] for [0 <= n]: the address of the array, or
     [None] when [std::bad_alloc] is thrown *)
  new_array : Z -> option Z;
  (* the values that the generator of each thread of [init_buffer]
     returns *)
  dist : Z -> nat -> Z
}.

(** The team of a worksharing loop of [n] iterations while the number of
    threads is set to [T]. *)
Definition omp_team (env : environment) (T n : Z) : team :=
  Omp.team_of (Omp.mkSchedule T (omp_owner env T)) 0 n.

(** How a run of [main] ends, or where it is after [fuel] turns of the
    loops of [init_buffer]:
    - [Usage]: the usage line has gone to [cerr] and [main] has returned
      [status];
    - [Terminated]: [new] has thrown in [init_buffer]; nothing catches
      the exception, and the process is ended by [std::terminate];
    - [Filling]: a thread of [init_buffer] is still in its loop, and
      [stores] are the addresses stored to so far;
    - [Returned]: [main] has returned [status] after the benchmarks.
    [cout] is what has been printed. *)
Inductive outcome :=
| Usage (cerr : string) (status : Z)
| Terminated (cout : list out)
| Filling (cout : list out) (stores : list Z)
| Returned (cout : list out) (status : Z).

(** [main]; [init_buffer] is written in its place, with the [long] its
    parameter converts [bufsize] to.  A negative size in [new] throws, as
    a failed allocation does. *)
Definition main (fuel : nat) (env : environment) (argv : list string)
  : M outcome :=
  let megs_of_data := CLI.megs_of_data argv in
  if megs_of_data =? 0
  then ret (Usage (append "Usage: "%string
                     (append (nth 0 argv EmptyString)
                        (append " <megs of data>"%string
                           (String (ascii_of_nat 10) EmptyString))))
                  (-1))
  else
    let cout := [Str "Using "%string; Num megs_of_data;
                 Str " megs of data. wordsize: "%string; Num chunk_size;
                 Str " double wordsize: "%string; Num double_chunk_size;
                 Endl] in
    let bufsize := main_bufsize megs_of_data in
    let long_bufsize := to_long bufsize in
    match (if long_bufsize <? 0 then None else new_array env long_bufsize) with
    | None => ret (Terminated cout)
    | Some original_buffer =>
        let cout := (cout ++ [Str "Generating random input... "%string])%list in
        r <- init_buffer fuel (omp_num_threads env) (dist env)
                         original_buffer long_bufsize ;;
        if snd r
        then
          let cout := (cout ++ [Str "done."%string; Endl])%list in
          let buffer := original_buffer in
          o <- main_timings (omp_team env) (omp_num_threads env)
                            buffer bufsize ;;
          ret (Returned (cout ++ o)%list 0)
        else ret (Filling cout (fst r))
    end.

End App.

(* ===================================================================== *)
(** * Specification vocabulary *)
(* ===================================================================== *)

(** The sum of a list of integers. *)
Definition sumZ (l : list Z) : Z := fold_right Z.add 0 l.

(** The state after the loads [evs] have been appended to the log. *)
Definition emit (st : state) (evs : list event) : state :=
  mkState (mem st) (lookup_table st) (trace st ++ evs).

(** The number of set bits in the [len] bytes of memory [m] from [p] on. *)
Definition bits_in (m : Z -> uchar) (p len : Z) : Z :=
  sumZ (map (fun k => popcount (u8 (m (p + k)))) (zrange 0 len)).

(** The [chunk_t] stored at address [a]. *)
Definition word_at (m : Z -> uchar) (a : Z) : Z :=
  le_bytes (map (fun k => u8 (m (a + k))) (zrange 0 8)).

(** The loads of [count_bits_naive buffer bufsize]: eight per byte. *)
Definition naive_events (buffer bufsize : Z) : list event :=
  flat_map (fun byte => map (fun _ => Ld8 (buffer + byte)) (zrange 0 8))
           (zrange 0 bufsize).

(** The loads of a chunk loop over the counter values [its]. *)
Definition chunk_events (csize buffer : Z) (its : list Z) : list event :=
  map (fun i => Ld64 (buffer + i * csize)) its.

(** A kernel that returns [kv chunk] and leaves the state alone, whenever
    the lookup table is [T]. *)
Definition pure_kernel (T : Z -> Z) (func : kernel_func) (kv : Z -> Z) : Prop :=
  forall c st, lookup_table st = T -> func c st = (kv c, st).

(** The lookup table as [init_lookup_table] leaves it. *)
Definition table_ready (T : Z -> Z) : Prop :=
  forall i, 0 <= i < 256 -> T i = popcount i.

(** The state holds memory [m] and table [T]. *)
Definition store_is (m : Z -> uchar) (T : Z -> Z) (st : state) : Prop :=
  mem st = m /\ lookup_table st = T.

(** The chunks of a team, in the order the model runs them. *)
Definition team_chunks (t : team) : list Z := concat (map snd t).

(** The value of a byte. *)
Definition is_byte (b : Z) : Prop := 0 <= b < 256.

(** What [_CBITSa], [_CBITSb] and [_CBITSc] do to one byte of the word:
    the masks are [B1], [B2] and [B3] cut to a byte. *)
Definition laneA (b : Z) : Z := b - Z.land (Z.shiftr b 1) 85.
Definition laneB (b : Z) : Z := Z.land b 51 + Z.land (Z.shiftr b 2) 51.
Definition laneC (b : Z) : Z := Z.land (b + Z.shiftr b 4) 15.

(** A byte whose two nibbles each hold a count of at most 4. *)
Definition nibbles_ok (b : Z) : Prop := 0 <= b <= 68 /\ b mod 16 <= 4.

(** A pure kernel that returns the population count of every 64-bit word. *)
Definition counts_bits (T : Z -> Z) (func : kernel_func) : Prop :=
  exists kv, pure_kernel T func kv /\
             forall c, 0 <= c < 2 ^ 64 -> kv c = popcount c.

(** The chunks run by the threads that take the first kernel, and by the
    others. *)
Definition chunks_func1 (numFunc1 numFunc2 : Z) (t : team) : list Z :=
  team_chunks (filter (fun th => runs_func1 numFunc1 numFunc2 (team_size t) (fst th)) t).

Definition chunks_func2 (numFunc1 numFunc2 : Z) (t : team) : list Z :=
  team_chunks (filter (fun th => negb (runs_func1 numFunc1 numFunc2 (team_size t) (fst th))) t).

(** The address [count_bits_asm] gives to [core]. *)
Definition asm_mybuffer (num_cores buffer bufsize core : Z) : Z :=
  buffer + to_size_t (to_size_t core * asm_bufsize_per_core num_cores bufsize).

(** The value [init_lookup_table] stores at index [i]. *)
Definition table_entry (i : Z) : Z :=
  to_int (fst (count_bits_naive 0 4 (mkState (object_repr i) (fun _ => 0) []))).

(** The loads a computation appends to the log when run from [st]. *)
Definition loads {A} (c : M A) (st : state) : list event :=
  skipn (length (trace st)) (trace (snd (c st))).

(** A load that stays inside the buffer [[buffer, buffer + bufsize)]. *)
Definition in_buffer (buffer bufsize : Z) (e : event) : Prop :=
  match e with
  | Ld8 a => buffer <= a < buffer + bufsize
  | Ld64 a => buffer <= a /\ a + 8 <= buffer + bufsize
  end.

(** The six counting functions that go through the chunked harness; each
    takes the team of its parallel region. *)
Definition harness_variants : list (team -> Z -> Z -> M Z) :=
  [ count_bits_table; count_bits_kernighan; count_bits_sidewaysaddition;
    count_bits_intrinsic; count_bits_intrinsic_double; count_bits_optimized ].

(** A call of one of the counting functions on a buffer of [bufsize]
    bytes, with any team. *)
Inductive counting_call : M Z -> Prop :=
| call_naive buffer bufsize :
    0 <= bufsize < 2 ^ 64 ->
    counting_call (count_bits_naive buffer bufsize)
| call_variant f t buffer bufsize :
    In f harness_variants -> 0 <= bufsize < 2 ^ 64 ->
    counting_call (f t buffer bufsize)
| call_asm nt t buffer bufsize :
    0 <= bufsize < 2 ^ 64 ->
    counting_call (count_bits_asm nt t buffer bufsize)
| call_asm_chunked buffer bufsize :
    0 <= bufsize < 2 ^ 64 ->
    counting_call (count_bits_asm_chunked buffer bufsize).

(** The loads of a harness call: the chunks, then the tail. *)
Definition harness_events (t : team) (buffer bufsize : Z) : list event :=
  chunk_events 8 buffer (team_chunks t)
  ++ naive_events (buffer + 8 * (bufsize / 8)) (bufsize mod 8).

(** The loads of [count_bits_asm]. *)
Definition asm_events (nt : Z) (t : team) (buffer bufsize : Z) : list event :=
  let nc := num_threads nt in
  let cb := asm_chunked_bufsize nc bufsize in
  flat_map (fun core =>
              chunk_events 8 (asm_mybuffer nc buffer bufsize core)
                (zrange 0 (asm_bufsize_per_core nc bufsize / 8)))
           (team_chunks t)
  ++ naive_events (buffer + cb) (to_size_t (bufsize - cb)).

(** The split of a buffer between the chunk loop and the naive tail: the
    first [cb] bytes are loaded as whole chunks, each once, and the other
    [bufsize - cb] bytes by the naive loop. *)
Definition split_policy (cb buffer bufsize : Z) (evs : list event) : Prop :=
  exists tc,
    Permutation tc (chunk_events 8 buffer (zrange 0 (cb / 8))) /\
    evs = tc ++ naive_events (buffer + cb) (bufsize - cb).

(** A memory with a different byte at every address of a short buffer, and
    the state [main] is in once [init_lookup_table] has run. *)
Definition sample_mem : Z -> uchar := fun a => uchar_of (a * 37 + 11).
Definition boot_state : state := mkState sample_mem (fun _ => 0) [].
Definition sample_state : state := snd (init_lookup_table boot_state).

(** A call that leaves the memory as it was and, repeated on the state it
    leaves, returns the same total. *)
Definition leaves_buffer (c : M Z) (st : state) : Prop :=
  mem (snd (c st)) = mem st /\ fst (c (snd (c st))) = fst (c st).

(** ** What [time_bit_counting] and [main] print *)

Module Report.
Import String Ascii Driver.

(** The divisor of the dots: [iters / 10], or 1 below 100 iterations. *)
Definition ten_percent (iters : Z) : Z :=
  if Z.quot iters 10 <? 10 then 1 else Z.quot iters 10.

(** What turn [i] of the loop of [time_bit_counting] prints when the
    counting function returns [num_bits]. *)
Definition progress (num_bits ten_percent i : Z) : list out :=
  if i =? 0 then [Str " ("%string; Num num_bits; Str " bits are set) "%string]
  else if Z.rem i ten_percent =? 0 then [Str "."%string] else [].

(** The report of one timed function that returns [num_bits]. *)
Definition report (num_bits : Z) (description : string) (iters : Z)
  : list out :=
  ([Endl; Str description]
   ++ flat_map (progress num_bits (ten_percent iters)) (zrange 0 iters)
   ++ [Endl; Seconds_per_iteration iters; Str " seconds per iteration"%string;
       Endl])%list.

(** The bit counts shown in an output, and the number of its dots. *)
Definition reported (o : list out) : list Z :=
  flat_map (fun x => match x with Num n => [n] | _ => [] end) o.

Definition is_dot (x : out) : bool :=
  match x with
  | Str s => String.eqb s "."%string
  | _ => false
  end.

Definition dots (o : list out) : Z := Z.of_nat (List.length (filter is_dot o)).

(** The descriptions and iteration counts of the functions that [main]
    times when [num_threads()] has returned [original_n_threads]. *)
Definition plan (original_n_threads : Z) : list (string * Z) :=
  ([("Naive implementation"%string, 10)]
   ++ (if original_n_threads <? 4
       then [("Brian Kernighan's method (serial)"%string, 25);
             ("Lookup table implementation (serial)"%string, 25)]
       else [])
   ++ [("Intrinsic implementation (serial)"%string, 100);
       ("Intrinsic implementation double (serial)"%string, 100);
       ("ASM implementation (serial)"%string, 100);
       ("Sideways Addition (serial)"%string, 100)]
   ++ (if 1 <? original_n_threads
       then [("Brian Kernighan's method (parallel)"%string, 25);
             ("Lookup table implementation (parallel)"%string, 25);
             ("Intrinsic implementation (parallel)"%string, 100);
             ("Intrinsic implementation double (parallel)"%string, 100);
             ("ASM implementation (parallel)"%string, 100);
             ("Sideways Addition (parallel)"%string, 100);
             ("Optimized hyperthread (parallel)"%string, 100)]
       else []))%list.

End Report.

(** The number of bytes between [myBuf] and [myEnd] for the thread
    [thread_id] of [init_buffer]. *)
Definition init_share (num_threads bufsize thread_id : Z) : Z :=
  let myBuffSize := bufsize / num_threads in
  (if thread_id =? num_threads - 1 then bufsize
   else myBuffSize * (thread_id + 1))
  - myBuffSize * thread_id.

(** The six harness functions written with their loop headers; each
    takes the schedule of the runtime. *)
Definition omp_harness_variants : list (Omp.schedule -> Z -> Z -> M Z) :=
  [ Omp.count_bits_table; Omp.count_bits_kernighan;
    Omp.count_bits_sidewaysaddition; Omp.count_bits_intrinsic;
    Omp.count_bits_intrinsic_double; Omp.count_bits_optimized ].

(** ** What [main] prints before the benchmarks *)

Module Lines.
Import String Ascii Driver.





End Lines.



(* ===================================================================== *)
(** * Facts about the monad and the loops *)
(* ===================================================================== *)

Lemma emit_nil st : emit st [] = st.
Proof. destruct st; unfold emit; cbn. rewrite app_nil_r. reflexivity. Qed.

Lemma emit_emit st a b : emit (emit st a) b = emit st (a ++ b).
Proof. unfold emit; cbn. rewrite app_assoc. reflexivity. Qed.

Lemma to_long_add_l a b : to_long (to_long a + b) = to_long (a + b).
Proof.
  unfold to_long.
  replace ((a + 2 ^ 63) mod 2 ^ 64 - 2 ^ 63 + b + 2 ^ 63)
    with ((a + 2 ^ 63) mod 2 ^ 64 + b) by ring.
  rewrite Zplus_mod_idemp_l. do 2 f_equal. ring.
Qed.

Lemma to_long_add_r a b : to_long (a + to_long b) = to_long (a + b).
Proof. rewrite Z.add_comm, to_long_add_l, Z.add_comm. reflexivity. Qed.

Lemma sumZ_cons a l : sumZ (a :: l) = a + sumZ l.
Proof. reflexivity. Qed.

Lemma sumZ_app l1 l2 : sumZ (l1 ++ l2) = sumZ l1 + sumZ l2.
Proof.
  induction l1 as [| a l1 IH]; [reflexivity |].
  cbn [app]. rewrite !sumZ_cons, IH. lia.
Qed.

Lemma sumZ_perm l1 l2 : Permutation l1 l2 -> sumZ l1 = sumZ l2.
Proof. induction 1; rewrite ?sumZ_cons; lia. Qed.

Lemma sumZ_concat_map {A} (f : A -> Z) (ll : list (list A)) :
  sumZ (map f (concat ll)) = sumZ (map (fun l => sumZ (map f l)) ll).
Proof.
  induction ll as [| l ll IH]; [reflexivity |].
  cbn [concat map]. rewrite map_app, sumZ_app, sumZ_cons, IH. reflexivity.
Qed.

Section Loops.
Variable m : Z -> uchar.
Variable T : Z -> Z.

Lemma store_emit st evs : store_is m T st -> store_is m T (emit st evs).
Proof. intros [? ?]; split; assumption. Qed.

(** A loop whose body adds [val i] to a [long] accumulator and performs
    the loads [ev i]. *)
Lemma foldM_sum {I} (body : I -> Z -> M Z) (val : I -> Z)
    (ev : I -> list event) :
  (forall i acc st, store_is m T st -> to_long acc = acc ->
     body i acc st = (to_long (acc + val i), emit st (ev i))) ->
  forall l acc st, store_is m T st -> to_long acc = acc ->
    foldM body l acc st
    = (to_long (acc + sumZ (map val l)), emit st (flat_map ev l)).
Proof.
  intros Hb l. induction l as [| i l IH]; intros acc st Hst Hacc;
    cbn [foldM map flat_map].
  - unfold ret. cbn [sumZ fold_right].
    rewrite Z.add_0_r, Hacc, emit_nil. reflexivity.
  - unfold bind. rewrite Hb by assumption.
    rewrite IH by (auto using store_emit, to_long_idem).
    rewrite to_long_add_l, emit_emit, sumZ_cons, Z.add_assoc. reflexivity.
Qed.

Lemma byte_bits (x : uchar) :
  sumZ (map (fun bit => if Z.land (u8 x) (Z.shiftl 1 bit) =? 0 then 0 else 1)
            (zrange 0 8))
  = popcount (u8 x).
Proof. destruct x; reflexivity. Qed.

Lemma count_bits_naive_run buffer bufsize st :
  store_is m T st ->
  count_bits_naive buffer bufsize st
  = (to_long (bits_in m buffer bufsize),
     emit st (naive_events buffer bufsize)).
Proof.
  intros Hst. unfold count_bits_naive, bits_in, naive_events.
  erewrite (foldM_sum _ (fun byte => popcount (u8 (m (buffer + byte))))
              (fun byte => map (fun _ => Ld8 (buffer + byte)) (zrange 0 8)));
    [rewrite Z.add_0_l; reflexivity | | assumption | reflexivity].
  intros byte acc st' Hst' Hacc.
  erewrite (foldM_sum _
              (fun bit => if Z.land (u8 (m (buffer + byte))) (Z.shiftl 1 bit) =? 0
                          then 0 else 1)
              (fun _ => [Ld8 (buffer + byte)]));
    [ | | assumption | assumption].
  - rewrite byte_bits. reflexivity.
  - intros bit acc' st'' [Hm _] Hacc'. unfold bind, load8, ret.
    rewrite Hm. fold (emit st'' [Ld8 (buffer + byte)]).
    destruct (Z.land _ _ =? 0).
    + rewrite Z.add_0_r, Hacc'. reflexivity.
    + reflexivity.
Qed.

End Loops.

Ltac mlia :=
  unfold to_size_t, to_ulong, to_long, to_int, chunk_size, double_chunk_size in *;
  Z.div_mod_to_equations; lia.

Lemma to_long_sumZ_map {A} (f : A -> Z) (l : list A) :
  to_long (sumZ (map (fun x => to_long (f x)) l)) = to_long (sumZ (map f l)).
Proof.
  induction l as [| a l IH]; [reflexivity |].
  cbn [map]. rewrite !sumZ_cons, to_long_add_l.
  rewrite <- to_long_add_r, IH, to_long_add_r. reflexivity.
Qed.

Lemma flat_map_singleton {A B} (f : A -> B) l :
  flat_map (fun x => [f x]) l = map f l.
Proof. induction l; cbn; congruence. Qed.

Lemma zrange_nil lo hi : hi <= lo -> zrange lo hi = [].
Proof. intros H. unfold zrange. replace (Z.to_nat (hi - lo)) with 0%nat by lia. reflexivity. Qed.

Lemma zrange_cons lo hi : lo < hi -> zrange lo hi = lo :: zrange (lo + 1) hi.
Proof.
  intros H. unfold zrange.
  replace (Z.to_nat (hi - lo)) with (S (Z.to_nat (hi - (lo + 1)))) by lia.
  cbn [seq map]. f_equal; [lia |].
  rewrite <- seq_shift, map_map. apply map_ext. intros; lia.
Qed.

Lemma zrange_app lo mid hi :
  lo <= mid <= hi -> zrange lo hi = zrange lo mid ++ zrange mid hi.
Proof.
  remember (Z.to_nat (mid - lo)) as n eqn:En.
  revert lo En. induction n as [| n IH]; intros lo En H.
  - rewrite (zrange_nil lo mid) by lia. replace mid with lo by lia. reflexivity.
  - rewrite (zrange_cons lo hi), (zrange_cons lo mid) by lia.
    cbn [app]. f_equal. apply IH; lia.
Qed.

Lemma zrange_shift lo hi d :
  zrange (lo + d) (hi + d) = map (fun k => k + d) (zrange lo hi).
Proof.
  unfold zrange. replace (hi + d - (lo + d)) with (hi - lo) by lia.
  rewrite map_map. apply map_ext. intros; lia.
Qed.

Lemma in_zrange lo hi k : In k (zrange lo hi) <-> lo <= k < hi.
Proof.
  unfold zrange. rewrite in_map_iff. split.
  - intros (j & <- & Hj). apply in_seq in Hj. lia.
  - intros H. exists (Z.to_nat (k - lo)). split; [lia |].
    apply in_seq. lia.
Qed.

Lemma zrange_length lo hi : length (zrange lo hi) = Z.to_nat (hi - lo).
Proof. unfold zrange. rewrite length_map, length_seq. reflexivity. Qed.

(** ** Bytes, words and their population counts *)

Lemma u8_range (x : uchar) : 0 <= u8 x < 256.
Proof. destruct x; cbv; split; congruence. Qed.

Lemma popcount_block (k : nat) : forall a y,
  0 <= a < 2 ^ Z.of_nat k -> 0 <= y ->
  popcount (a + 2 ^ Z.of_nat k * y) = popcount a + popcount y.
Proof.
  induction k as [| k IH]; intros a y Ha Hy.
  - change (2 ^ Z.of_nat 0) with 1 in *. replace a with 0 by lia.
    rewrite Z.mul_1_l. reflexivity.
  - rewrite Nat2Z.inj_succ, Z.pow_succ_r in * by lia.
    pose proof (Z.div2_odd a) as Ea.
    assert (Hd : 0 <= Z.div2 a < 2 ^ Z.of_nat k).
    { rewrite Z.div2_div. split; [apply Z.div_pos; lia |].
      apply Z.div_lt_upper_bound; lia. }
    replace (a + 2 * 2 ^ Z.of_nat k * y)
      with (2 * (Z.div2 a + 2 ^ Z.of_nat k * y) + Z.b2z (Z.odd a)) by lia.
    rewrite popcount_bit by nia.
    rewrite IH by assumption.
    rewrite Ea at 3. rewrite popcount_bit by lia. lia.
Qed.

Lemma popcount_byte_cons b y :
  0 <= b < 256 -> 0 <= y -> popcount (b + 256 * y) = popcount b + popcount y.
Proof. intros. apply (popcount_block 8); assumption. Qed.

Lemma le_bytes_cons b l : le_bytes (b :: l) = b + 256 * le_bytes l.
Proof. reflexivity. Qed.

Lemma le_bytes_range l :
  Forall is_byte l -> 0 <= le_bytes l < 256 ^ Z.of_nat (length l).
Proof.
  induction 1 as [| b l Hb Hl IH].
  - cbn. lia.
  - rewrite le_bytes_cons. cbn [length].
    rewrite Nat2Z.inj_succ, Z.pow_succ_r by lia. unfold is_byte in Hb. lia.
Qed.

Lemma popcount_le_bytes l :
  Forall is_byte l -> popcount (le_bytes l) = sumZ (map popcount l).
Proof.
  induction 1 as [| b l Hb Hl IH]; [reflexivity |].
  rewrite le_bytes_cons, popcount_byte_cons, IH;
    [reflexivity | exact Hb | apply le_bytes_range; assumption].
Qed.

Lemma word_at_bytes m a :
  Forall is_byte (map (fun k => u8 (m (a + k))) (zrange 0 8)).
Proof. apply Forall_forall. intros b Hb. apply in_map_iff in Hb.
  destruct Hb as (k & <- & _). apply u8_range. Qed.

Lemma word_at_range m a : 0 <= word_at m a < 2 ^ 64.
Proof.
  pose proof (le_bytes_range _ (word_at_bytes m a)) as H.
  rewrite length_map, zrange_length in H. exact H.
Qed.

Lemma popcount_word_at m a : popcount (word_at m a) = bits_in m a 8.
Proof.
  unfold word_at. rewrite popcount_le_bytes by apply word_at_bytes.
  unfold bits_in. rewrite map_map. reflexivity.
Qed.

Lemma bits_in_range m p len : 0 <= bits_in m p len <= 8 * Z.max 0 len.
Proof.
  unfold bits_in.
  assert (H : forall l, 0 <= sumZ (map (fun k => popcount (u8 (m (p + k)))) l)
                        <= 8 * Z.of_nat (length l)).
  { induction l as [| k l IH]; [cbn; lia |].
    cbn [map length]. rewrite sumZ_cons, Nat2Z.inj_succ.
    assert (0 <= popcount (u8 (m (p + k))) <= 8)
      by (destruct (m (p + k)); cbv; split; congruence).
    lia. }
  specialize (H (zrange 0 len)). rewrite zrange_length in H. lia.
Qed.

Lemma bits_in_split m p a b :
  0 <= a -> 0 <= b -> bits_in m p (a + b) = bits_in m p a + bits_in m (p + a) b.
Proof.
  intros Ha Hb. unfold bits_in.
  rewrite (zrange_app 0 a (a + b)) by lia.
  rewrite map_app, sumZ_app. f_equal.
  replace (zrange a (a + b)) with (zrange (0 + a) (b + a)) by (f_equal; lia).
  rewrite zrange_shift, map_map. f_equal. apply map_ext. intros k.
  do 3 f_equal. lia.
Qed.

Lemma bits_in_chunks m p n :
  0 <= n ->
  sumZ (map (fun i => popcount (word_at m (p + i * 8))) (zrange 0 n))
  = bits_in m p (8 * n).
Proof.
  intros Hn. rewrite <- (Z2Nat.id n Hn). clear Hn.
  induction (Z.to_nat n) as [| k IH].
  - reflexivity.
  - rewrite Nat2Z.inj_succ.
    rewrite (zrange_app 0 (Z.of_nat k) (Z.succ (Z.of_nat k))) by lia.
    rewrite map_app, sumZ_app, IH.
    rewrite (zrange_cons (Z.of_nat k)), zrange_nil by lia.
    cbn [map]. rewrite sumZ_cons. cbn [sumZ fold_right].
    rewrite popcount_word_at.
    replace (8 * Z.succ (Z.of_nat k)) with (8 * Z.of_nat k + 8) by lia.
    rewrite bits_in_split by lia. rewrite Z.add_0_r.
    replace (p + Z.of_nat k * 8) with (p + 8 * Z.of_nat k) by lia. reflexivity.
Qed.

(** ** The harness *)

Lemma harness_sizes bufsize :
  0 <= bufsize < 2 ^ 64 ->
  to_long (bufsize / chunk_size) = bufsize / 8 /\
  to_size_t (to_long (bufsize / chunk_size) * chunk_size) = 8 * (bufsize / 8) /\
  to_size_t (to_int (to_size_t
     (bufsize - to_size_t (to_long (bufsize / chunk_size) * chunk_size))))
  = bufsize mod 8.
Proof.
  intros H.
  assert (E1 : to_long (bufsize / chunk_size) = bufsize / 8)
    by (apply to_long_id; mlia).
  assert (E2 : to_size_t (to_long (bufsize / chunk_size) * chunk_size)
               = 8 * (bufsize / 8)).
  { rewrite E1. unfold to_size_t. rewrite to_ulong_id; mlia. }
  split; [exact E1 |]. split; [exact E2 |].
  rewrite E2.
  assert (E3 : bufsize - 8 * (bufsize / 8) = bufsize mod 8) by mlia.
  rewrite E3.
  assert (0 <= bufsize mod 8 < 8) by (apply Z.mod_pos_bound; lia).
  unfold to_size_t. rewrite (to_ulong_id (bufsize mod 8)) by lia.
  assert (E4 : to_int (bufsize mod 8) = bufsize mod 8).
  { unfold to_int. rewrite Z.mod_small; lia. }
  rewrite E4. apply to_ulong_id. lia.
Qed.

Section Harness.
Variable m : Z -> uchar.
Variable T : Z -> Z.

Lemma chunk_loop_run func kv csize buffer its acc st :
  pure_kernel T func kv -> store_is m T st -> to_long acc = acc ->
  chunk_loop func csize buffer its acc st
  = (to_long (acc + sumZ (map (fun i => kv (word_at m (buffer + i * csize))) its)),
     emit st (chunk_events csize buffer its)).
Proof.
  intros Hk Hst Hacc. unfold chunk_loop, chunk_events.
  rewrite <- (flat_map_singleton (fun i => Ld64 (buffer + i * csize))).
  apply (foldM_sum m T); [| assumption | assumption].
  intros i acc' st' [Hm HT] _. unfold bind, load64, ret.
  rewrite Hk by exact HT. rewrite Hm. reflexivity.
Qed.

Lemma omp_parallel_reduction_run t region rv re total st :
  (forall th st', store_is m T st' ->
     region (fst th) (snd th) st' = (rv th, emit st' (re th))) ->
  store_is m T st -> to_long total = total ->
  omp_parallel_reduction t region total st
  = (to_long (total + sumZ (map rv t)), emit st (flat_map re t)).
Proof.
  intros Hr Hst Htot. unfold omp_parallel_reduction.
  apply (foldM_sum m T); [| assumption | assumption].
  intros th acc st' Hst' _. unfold bind, ret.
  rewrite Hr by assumption. reflexivity.
Qed.

Lemma flat_map_chunk_events csize buffer (t : team) :
  flat_map (fun th => chunk_events csize buffer (snd th)) t
  = chunk_events csize buffer (team_chunks t).
Proof.
  unfold team_chunks, chunk_events.
  induction t as [| th t IH]; [reflexivity |].
  cbn [flat_map map concat]. rewrite map_app, IH. reflexivity.
Qed.

(** What [count_bits_kernel] computes and loads, for any team. *)
Lemma count_bits_kernel_run func kv t buffer bufsize st :
  pure_kernel T func kv -> store_is m T st -> 0 <= bufsize < 2 ^ 64 ->
  count_bits_kernel func t buffer bufsize st
  = (to_long (sumZ (map (fun i => kv (word_at m (buffer + i * 8)))
                        (team_chunks t))
              + bits_in m (buffer + 8 * (bufsize / 8)) (bufsize mod 8)),
     emit st (chunk_events 8 buffer (team_chunks t)
              ++ naive_events (buffer + 8 * (bufsize / 8)) (bufsize mod 8))).
Proof.
  intros Hk Hst Hsz. unfold count_bits_kernel.
  destruct (harness_sizes bufsize Hsz) as (E1 & E2 & E3).
  cbv zeta. rewrite E3, E2. unfold bind at 1.
  erewrite (omp_parallel_reduction_run t _
              (fun th => to_long (sumZ (map (fun i => kv (word_at m (buffer + i * 8)))
                                            (snd th))))
              (fun th => chunk_events 8 buffer (snd th)));
    [ | | assumption | reflexivity].
  - unfold bind, ret.
    rewrite (count_bits_naive_run m T) by (apply store_emit; assumption).
    rewrite emit_emit, flat_map_chunk_events.
    rewrite to_long_add_r, Z.add_0_l, to_long_add_l.
    rewrite <- to_long_add_l, to_long_sumZ_map, to_long_add_l.
    unfold team_chunks. rewrite sumZ_concat_map, map_map. reflexivity.
  - intros th st' Hst'. unfold bind, ret.
    rewrite (chunk_loop_run func kv) by (assumption || reflexivity).
    rewrite !Z.add_0_l, to_long_idem. reflexivity.
Qed.

End Harness.

(** ** The loops defined by well-founded recursion, unfolded once *)

Lemma kernighan_loop_step chunk total :
  kernighan_loop chunk total
  = if chunk =? 0 then total
    else kernighan_loop (fst (kernighan_body (chunk, total)))
                        (snd (kernighan_body (chunk, total))).
Proof.
  rewrite kernighan_loop_equation_1.
  destruct (Z.eq_dec chunk 0) as [E | E].
  - rewrite kernighan_loop_clause_1_equation_1.
    subst chunk. reflexivity.
  - rewrite kernighan_loop_clause_1_equation_2.
    destruct (Z.eqb_spec chunk 0); [contradiction | reflexivity].
Qed.

Lemma asm_loop_step rcx buffer total st :
  asm_loop rcx buffer total st
  = let total' := to_long (total + popcount (fst (load64 buffer st))) in
    let st1 := snd (load64 buffer st) in
    if to_ulong (rcx - 1) =? 0 then (total', st1)
    else asm_loop (to_ulong (rcx - 1)) (buffer + chunk_size) total' st1.
Proof.
  rewrite asm_loop_equation_1.
  destruct (load64 buffer st) as [operand st1] eqn:El.
  rewrite asm_loop_clause_1_equation_1. cbn [fst snd].
  destruct (Z.eq_dec (to_ulong (rcx - 1)) 0) as [E | E].
  - rewrite asm_loop_clause_1_clause_1_equation_1, E. reflexivity.
  - rewrite asm_loop_clause_1_clause_1_equation_2.
    destruct (Z.eqb_spec (to_ulong (rcx - 1)) 0); [contradiction | reflexivity].
Qed.

Section Asm.
Variable m : Z -> uchar.
Variable T : Z -> Z.

(** [k + 1] turns of the assembly loop, entered with [rcx = k + 1]. *)
Lemma asm_loop_run (k : nat) : forall buffer total st,
  store_is m T st -> Z.of_nat k + 1 < 2 ^ 64 ->
  asm_loop (Z.of_nat k + 1) buffer total st
  = (to_long (total + bits_in m buffer (8 * (Z.of_nat k + 1))),
     emit st (chunk_events 8 buffer (zrange 0 (Z.of_nat k + 1)))).
Proof.
  induction k as [| k IH]; intros buffer total st Hst Hk;
    rewrite asm_loop_step; cbv zeta; unfold load64; cbn [fst snd];
    destruct Hst as [Hm HT]; rewrite Hm; fold (word_at m buffer);
    rewrite popcount_word_at.
  - change (to_ulong (Z.of_nat 0 + 1 - 1) =? 0) with true. cbv iota.
    change (zrange 0 (Z.of_nat 0 + 1)) with [0].
    unfold chunk_events. cbn [map]. rewrite Z.mul_0_l, Z.add_0_r. reflexivity.
  - replace (Z.of_nat (S k) + 1 - 1) with (Z.of_nat k + 1) by lia.
    rewrite to_ulong_id by lia.
    destruct (Z.eqb_spec (Z.of_nat k + 1) 0) as [E | _]; [lia |].
    change (log (Ld64 buffer) st) with (emit st [Ld64 buffer]).
    rewrite IH by (try split; cbn; auto; lia).
    rewrite to_long_add_l, emit_emit. f_equal.
    + f_equal. rewrite <- Z.add_assoc. f_equal.
      replace (8 * (Z.of_nat (S k) + 1)) with (8 + 8 * (Z.of_nat k + 1)) by lia.
      rewrite bits_in_split by lia. reflexivity.
    + f_equal. rewrite (zrange_cons 0 (Z.of_nat (S k) + 1)) by lia.
      unfold chunk_events. cbn [map app]. f_equal.
      * f_equal. lia.
      * replace (Z.of_nat (S k) + 1) with (Z.of_nat k + 1 + 1) by lia.
        rewrite (zrange_shift 0 (Z.of_nat k + 1) 1), map_map.
        apply map_ext. intros i. f_equal. unfold chunk_size. lia.
Qed.

Lemma count_bits_asm_chunked_run buffer bufsize st :
  store_is m T st -> 0 <= bufsize < 2 ^ 64 ->
  count_bits_asm_chunked buffer bufsize st
  = (to_long (bits_in m buffer (8 * (bufsize / 8))),
     emit st (chunk_events 8 buffer (zrange 0 (bufsize / 8)))).
Proof.
  intros Hst Hsz. unfold count_bits_asm_chunked.
  change (bufsize / chunk_size) with (bufsize / 8).
  assert (Hq : 0 <= bufsize / 8 < 2 ^ 61) by mlia.
  destruct (Z.eqb_spec (bufsize / 8) 0) as [E | E].
  - rewrite E. unfold ret. cbn. rewrite emit_nil. reflexivity.
  - replace (bufsize / 8) with (Z.of_nat (Z.to_nat (bufsize / 8 - 1)) + 1) by lia.
    rewrite (asm_loop_run _ buffer 0 st) by (assumption || lia).
    rewrite Z.add_0_l. reflexivity.
Qed.

End Asm.

(** ** The kernels *)

Lemma popcount_bound (k : nat) : forall z,
  0 <= z < 2 ^ Z.of_nat k -> 0 <= popcount z <= Z.of_nat k.
Proof.
  induction k as [| k IH]; intros z Hz.
  - change (2 ^ Z.of_nat 0) with 1 in Hz. replace z with 0 by lia. cbn. lia.
  - rewrite Nat2Z.inj_succ, Z.pow_succ_r in Hz by lia.
    rewrite (Z.div2_odd z).
    assert (Hd : 0 <= Z.div2 z < 2 ^ Z.of_nat k).
    { rewrite Z.div2_div. split; [apply Z.div_pos; lia |].
      apply Z.div_lt_upper_bound; lia. }
    rewrite popcount_bit by lia. specialize (IH _ Hd).
    destruct (Z.odd z); cbn [Z.b2z]; lia.
Qed.

Lemma popcount64_bound c : 0 <= c < 2 ^ 64 -> 0 <= popcount c <= 64.
Proof. intros H. apply (popcount_bound 64 c H). Qed.

Lemma kernighan_body_popcount chunk total :
  chunk <> 0 -> chunk = to_long chunk ->
  popcount (to_ulong (fst (kernighan_body (chunk, total))))
  = popcount (to_ulong chunk) - 1.
Proof.
  intros Hnz Hr. cbn [kernighan_body fst].
  rewrite to_ulong_to_long, to_ulong_land, to_ulong_to_long.
  assert (E : to_ulong chunk <> 0).
  { intros E. apply Hnz. rewrite Hr, <- to_long_to_ulong, E. reflexivity. }
  rewrite to_ulong_pred by exact E.
  pose proof (to_ulong_range chunk).
  apply land_pred_popcount. lia.
Qed.

Lemma kernighan_loop_correct (n : nat) : forall chunk total,
  chunk = to_long chunk -> to_long total = total ->
  popcount (to_ulong chunk) = Z.of_nat n ->
  kernighan_loop chunk total = to_long (total + Z.of_nat n).
Proof.
  induction n as [| n IH]; intros chunk total Hr Ht Hp;
    rewrite kernighan_loop_step;
    destruct (Z.eqb_spec chunk 0) as [E | E].
  - rewrite Z.add_0_r, Ht. reflexivity.
  - pose proof (kernighan_body_popcount chunk total E Hr) as Hs.
    pose proof (popcount_nonneg (to_ulong (fst (kernighan_body (chunk, total))))).
    lia.
  - subst chunk. cbn in Hp. lia.
  - pose proof (kernighan_body_popcount chunk total E Hr) as Hs.
    rewrite (IH (fst (kernighan_body (chunk, total)))
                (snd (kernighan_body (chunk, total)))).
    + cbn [kernighan_body snd]. rewrite to_long_add_l. f_equal. lia.
    + cbn [kernighan_body fst]. symmetry. apply to_long_idem.
    + cbn [kernighan_body snd]. apply to_long_idem.
    + lia.
Qed.

Lemma kernighan_kernel_value c :
  0 <= c < 2 ^ 64 -> kernighan_loop (to_long c) 0 = popcount c.
Proof.
  intros Hc. pose proof (popcount64_bound c Hc) as Hb.
  rewrite (kernighan_loop_correct (Z.to_nat (popcount c))).
  - rewrite Z.add_0_l, Z2Nat.id by lia. apply to_long_id. lia.
  - symmetry. apply to_long_idem.
  - reflexivity.
  - rewrite to_ulong_to_long, to_ulong_id by lia. lia.
Qed.

Lemma intrinsic_value c :
  0 <= c < 2 ^ 64 -> to_long (to_int (popcount c)) = popcount c.
Proof.
  intros Hc. pose proof (popcount64_bound c Hc) as Hb.
  assert (E : to_int (popcount c) = popcount c).
  { unfold to_int. rewrite Z.mod_small; lia. }
  rewrite E. apply to_long_id. lia.
Qed.

Lemma chunk_bytes_le c :
  0 <= c < 2 ^ 64 -> le_bytes (map (chunk_byte c) (zrange 0 8)) = c.
Proof.
  intros Hc. unfold chunk_byte.
  change (zrange 0 8) with [0; 1; 2; 3; 4; 5; 6; 7].
  cbn [map le_bytes fold_right].
  rewrite !Z.shiftr_div_pow2 by lia.
  change (2 ^ (8 * 0)) with 1. rewrite Z.div_1_r.
  change (2 ^ (8 * 1)) with 256.
  change (8 * 2) with (8 + 8). change (8 * 3) with (8 + (8 + 8)).
  change (8 * 4) with (8 + (8 + (8 + 8))).
  change (8 * 5) with (8 + (8 + (8 + (8 + 8)))).
  change (8 * 6) with (8 + (8 + (8 + (8 + (8 + 8))))).
  change (8 * 7) with (8 + (8 + (8 + (8 + (8 + (8 + 8)))))).
  rewrite !Z.pow_add_r by lia. change (2 ^ 8) with 256.
  rewrite <- !Z.div_div by lia.
  set (c1 := c / 256). set (c2 := c1 / 256). set (c3 := c2 / 256).
  set (c4 := c3 / 256). set (c5 := c4 / 256). set (c6 := c5 / 256).
  set (c7 := c6 / 256).
  pose proof (Z.div_mod c 256 ltac:(lia)) as D0.
  pose proof (Z.div_mod c1 256 ltac:(lia)) as D1.
  pose proof (Z.div_mod c2 256 ltac:(lia)) as D2.
  pose proof (Z.div_mod c3 256 ltac:(lia)) as D3.
  pose proof (Z.div_mod c4 256 ltac:(lia)) as D4.
  pose proof (Z.div_mod c5 256 ltac:(lia)) as D5.
  pose proof (Z.div_mod c6 256 ltac:(lia)) as D6.
  pose proof (Z.mod_pos_bound c 256 ltac:(lia)).
  pose proof (Z.mod_pos_bound c1 256 ltac:(lia)).
  pose proof (Z.mod_pos_bound c2 256 ltac:(lia)).
  pose proof (Z.mod_pos_bound c3 256 ltac:(lia)).
  pose proof (Z.mod_pos_bound c4 256 ltac:(lia)).
  pose proof (Z.mod_pos_bound c5 256 ltac:(lia)).
  pose proof (Z.mod_pos_bound c6 256 ltac:(lia)).
  fold c1 in D0. fold c2 in D1. fold c3 in D2. fold c4 in D3.
  fold c5 in D4. fold c6 in D5. fold c7 in D6.
  assert (E7 : c7 mod 256 = c7) by (apply Z.mod_small; lia).
  rewrite E7. lia.
Qed.

Lemma chunk_bytes_are_bytes c :
  Forall is_byte (map (chunk_byte c) (zrange 0 8)).
Proof.
  apply Forall_forall. intros b Hb. apply in_map_iff in Hb.
  destruct Hb as (k & <- & _). apply Z.mod_pos_bound. lia.
Qed.

Lemma table_kernel_pure T :
  pure_kernel T table_kernel
    (fun c => to_long (sumZ (map (fun byte => T (chunk_byte c byte)) (zrange 0 8)))).
Proof.
  intros c st HT. unfold table_kernel.
  rewrite (foldM_sum (mem st) T _ (fun byte => T (chunk_byte c byte))
             (fun _ => [])); [| | split; auto | reflexivity].
  - rewrite Z.add_0_l. f_equal.
    replace (flat_map _ _) with (@nil event) by (induction (zrange 0 8); auto).
    apply emit_nil.
  - intros byte acc st' [_ HT'] _. unfold bind, lut_get, ret.
    rewrite HT', emit_nil. reflexivity.
Qed.

Lemma table_kernel_value T c :
  table_ready T -> 0 <= c < 2 ^ 64 ->
  to_long (sumZ (map (fun byte => T (chunk_byte c byte)) (zrange 0 8)))
  = popcount c.
Proof.
  intros HT Hc.
  assert (E : map (fun byte => T (chunk_byte c byte)) (zrange 0 8)
              = map popcount (map (chunk_byte c) (zrange 0 8))).
  { rewrite map_map. apply map_ext. intros k. apply HT.
    apply Z.mod_pos_bound. lia. }
  rewrite E, <- popcount_le_bytes by apply chunk_bytes_are_bytes.
  rewrite chunk_bytes_le by assumption.
  apply to_long_id. pose proof (popcount64_bound c Hc). lia.
Qed.

(** ** Sideways addition: the byte lanes of the word *)

Lemma testbit_block b y n :
  0 <= b < 256 -> 0 <= n ->
  Z.testbit (b + 256 * y) n
  = if n <? 8 then Z.testbit b n else Z.testbit y (n - 8).
Proof.
  intros Hb Hn. destruct (Z.ltb_spec n 8) as [Hlt | Hge].
  - rewrite <- (Z.mod_pow2_bits_low (b + 256 * y) 8 n) by lia.
    change (2 ^ 8) with 256.
    replace (b + 256 * y) with (b + y * 256) by lia.
    rewrite Z.mod_add, Z.mod_small by lia. reflexivity.
  - replace n with ((n - 8) + 8) at 1 by lia.
    rewrite <- Z.div_pow2_bits by lia. change (2 ^ 8) with 256.
    replace (b + 256 * y) with (b + y * 256) by lia.
    rewrite Z.div_add, Z.div_small by lia. reflexivity.
Qed.

Lemma byte_land_range a c : 0 <= a < 256 -> 0 <= Z.land a c < 256.
Proof.
  intros Ha. split; [apply Z.land_nonneg; lia |].
  assert (E : Z.land a c = Z.land (Z.land a c) (Z.ones 8)).
  { rewrite <- Z.land_assoc, (Z.land_comm c), Z.land_assoc.
    rewrite (Z.land_ones a) by lia. change (2 ^ 8) with 256.
    rewrite Z.mod_small by lia. reflexivity. }
  rewrite E, Z.land_ones by lia. apply Z.mod_pos_bound. lia.
Qed.

Lemma land_block a y c M :
  0 <= a < 256 -> 0 <= c < 256 ->
  Z.land (a + 256 * y) (c + 256 * M) = Z.land a c + 256 * Z.land y M.
Proof.
  intros Ha Hc. apply Z.bits_inj'; intros n Hn.
  rewrite Z.land_spec, !testbit_block by (auto using byte_land_range).
  destruct (n <? 8); rewrite Z.land_spec; reflexivity.
Qed.

Lemma testbit_small M k n : 0 <= M < 2 ^ k -> k <= n -> Z.testbit M n = false.
Proof.
  intros HM Hk. destruct (Z.eq_dec M 0) as [-> | Hnz].
  - apply Z.bits_0.
  - apply Z.bits_above_log2; [lia |].
    assert (Z.log2 M < k) by (apply Z.log2_lt_pow2; lia). lia.
Qed.

(** A right shift by [k] masked by [m < 2^(8-k)] acts on each byte alone. *)
Lemma shiftr_mask_block k b y mk M :
  0 <= k <= 8 -> 0 <= b < 256 -> 0 <= mk < 2 ^ (8 - k) ->
  Z.land (Z.shiftr (b + 256 * y) k) (mk + 256 * M)
  = Z.land (Z.shiftr b k) mk + 256 * Z.land (Z.shiftr y k) M.
Proof.
  intros Hk Hb Hm.
  assert (Hm' : 0 <= mk < 256).
  { split; [lia |]. apply Z.lt_le_trans with (2 ^ (8 - k)); [lia |].
    change 256 with (2 ^ 8). apply Z.pow_le_mono_r; lia. }
  apply Z.bits_inj'; intros n Hn.
  rewrite Z.land_spec, Z.shiftr_spec by lia.
  rewrite (testbit_block (Z.land (Z.shiftr b k) mk))
    by (rewrite 1?Z.land_comm; auto using byte_land_range).
  rewrite !testbit_block by lia.
  destruct (Z.ltb_spec n 8) as [Hlt | Hge].
  - rewrite Z.land_spec, Z.shiftr_spec by lia.
    destruct (Z.ltb_spec (n + k) 8) as [Hlt' | Hge'].
    + reflexivity.
    + rewrite (testbit_small mk (8 - k) n) by lia.
      rewrite !andb_false_r. reflexivity.
  - destruct (Z.ltb_spec (n + k) 8) as [Hlt' | Hge']; [lia |].
    rewrite Z.land_spec, Z.shiftr_spec by lia.
    replace (n + k - 8) with (n - 8 + k) by lia. reflexivity.
Qed.

(** The arithmetic shift of the [long] and the logical shift of the
    [unsigned long] differ only in the top [k] bits, which a mask below
    [2^(64-k)] clears. *)
Lemma land_asr_mask val k M :
  0 <= k -> 0 <= M < 2 ^ (64 - k) ->
  Z.land (to_ulong (Z.shiftr val k)) M
  = Z.land (Z.shiftr (to_ulong val) k) M.
Proof.
  intros Hk HM. apply Z.bits_inj'; intros n Hn.
  rewrite !Z.land_spec.
  destruct (Z.ltb_spec n (64 - k)) as [Hlt | Hge].
  - f_equal. unfold to_ulong.
    rewrite Z.mod_pow2_bits_low, !Z.shiftr_spec by lia.
    rewrite Z.mod_pow2_bits_low by lia. reflexivity.
  - rewrite (testbit_small M (64 - k) n) by lia.
    rewrite !andb_false_r. reflexivity.
Qed.

(** The same for the sum [val + (val >> 4)] under a mask below [2^60]:
    the sign extension only reaches the bits from 60 up. *)
Lemma land_asr_sum_mask val M :
  0 <= M < 2 ^ 60 ->
  Z.land (to_ulong (to_long (val + Z.shiftr val 4))) M
  = Z.land (to_ulong val + Z.shiftr (to_ulong val) 4) M.
Proof.
  intros HM. rewrite to_ulong_to_long.
  assert (Hmask : forall x, Z.land x M = Z.land (x mod 2 ^ 60) M).
  { intros x. apply Z.bits_inj'; intros n Hn. rewrite !Z.land_spec.
    destruct (Z.ltb_spec n 60) as [Hlt | Hge].
    - rewrite Z.mod_pow2_bits_low by lia. reflexivity.
    - rewrite (testbit_small M 60 n) by lia.
      rewrite !andb_false_r. reflexivity. }
  rewrite (Hmask (to_ulong _)), (Hmask (to_ulong val + _)). f_equal.
  rewrite !Z.shiftr_div_pow2 by lia. unfold to_ulong.
  change (2 ^ 4) with 16. change (2 ^ 64) with (16 * 2 ^ 60).
  pose proof (Z.div_mod val (16 * 2 ^ 60) ltac:(lia)) as Hv.
  set (q := val / (16 * 2 ^ 60)) in *.
  set (u := val mod (16 * 2 ^ 60)) in *.
  assert (Hq : val / 16 = u / 16 + 2 ^ 60 * q).
  { rewrite Hv at 1.
    replace (16 * 2 ^ 60 * q + u) with (u + (2 ^ 60 * q) * 16) by ring.
    apply Z.div_add. lia. }
  rewrite Hq.
  rewrite Z.mod_mod_divide by (exists 16; ring).
  rewrite Hv at 1.
  replace (16 * 2 ^ 60 * q + u + (u / 16 + 2 ^ 60 * q))
    with (u + u / 16 + (17 * q) * 2 ^ 60) by ring.
  apply Z.mod_add. lia.
Qed.

Lemma byte_forall (P : Z -> bool) :
  forallb P (zrange 0 256) = true -> forall b, is_byte b -> P b = true.
Proof.
  intros H b Hb. rewrite forallb_forall in H. apply H, in_zrange. exact Hb.
Qed.

Lemma laneA_byte b : is_byte b -> is_byte (laneA b).
Proof.
  intros Hb.
  pose proof (byte_forall (fun b => (0 <=? laneA b) && (laneA b <? 256))
                eq_refl b Hb) as H.
  cbv beta in H. apply andb_true_iff in H. unfold is_byte. lia.
Qed.

Lemma laneB_nibbles b : is_byte b -> nibbles_ok (laneB (laneA b)).
Proof.
  intros Hb.
  pose proof (byte_forall
                (fun b => (0 <=? laneB (laneA b)) && (laneB (laneA b) <=? 68)
                          && (laneB (laneA b) mod 16 <=? 4))
                eq_refl b Hb) as H.
  cbv beta in H. rewrite !andb_true_iff in H. unfold nibbles_ok. lia.
Qed.

Lemma laneC_popcount b :
  is_byte b -> laneC (laneB (laneA b)) = popcount b.
Proof.
  intros Hb.
  pose proof (byte_forall (fun b => laneC (laneB (laneA b)) =? popcount b)
                eq_refl b Hb) as H.
  cbv beta in H. lia.
Qed.

Lemma byte_popcount_range b : is_byte b -> 0 <= popcount b <= 8.
Proof. intros Hb. apply (popcount_bound 8 b Hb). Qed.

Lemma le_bytes_nonneg l : Forall is_byte l -> 0 <= le_bytes l.
Proof. intros H. apply le_bytes_range in H. lia. Qed.

Lemma stepA_lanes l :
  Forall is_byte l ->
  le_bytes l - Z.land (Z.shiftr (le_bytes l) 1) (le_bytes (repeat 85 (length l)))
  = le_bytes (map laneA l).
Proof.
  induction 1 as [| b l Hb Hl IH]; [reflexivity |].
  cbn [length repeat map]. rewrite !le_bytes_cons.
  rewrite shiftr_mask_block by (cbn; unfold is_byte in Hb; lia).
  rewrite <- IH. unfold laneA. ring.
Qed.

Lemma stepB_lanes l :
  Forall is_byte l ->
  Z.land (le_bytes l) (le_bytes (repeat 51 (length l)))
  + Z.land (Z.shiftr (le_bytes l) 2) (le_bytes (repeat 51 (length l)))
  = le_bytes (map laneB l).
Proof.
  induction 1 as [| b l Hb Hl IH]; [reflexivity |].
  cbn [length repeat map]. rewrite !le_bytes_cons.
  rewrite shiftr_mask_block by (cbn; unfold is_byte in Hb; lia).
  rewrite land_block by (unfold is_byte in Hb; lia).
  rewrite <- IH. unfold laneB. ring.
Qed.

Lemma nibbles_le_bytes l :
  Forall nibbles_ok l -> 0 <= le_bytes l /\ le_bytes l mod 16 <= 4.
Proof.
  induction 1 as [| b l [Hb Hn] Hl IH]; [cbn; lia |].
  rewrite le_bytes_cons. split; [lia |].
  replace (b + 256 * le_bytes l) with (b + (16 * le_bytes l) * 16) by lia.
  rewrite Z.mod_add by lia. exact Hn.
Qed.

Lemma stepC_lanes l :
  Forall nibbles_ok l ->
  Z.land (le_bytes l + Z.shiftr (le_bytes l) 4) (le_bytes (repeat 15 (length l)))
  = le_bytes (map laneC l).
Proof.
  induction 1 as [| b l [Hb Hn] Hl IH]; [reflexivity |].
  cbn [length repeat map]. rewrite !le_bytes_cons.
  destruct (nibbles_le_bytes l Hl) as [Hy Hy16].
  set (y := le_bytes l) in *.
  rewrite !Z.shiftr_div_pow2 in * by lia. change (2 ^ 4) with 16 in *.
  assert (E : b + 256 * y + (b + 256 * y) / 16
              = (b + b / 16 + 16 * (y mod 16)) + 256 * (y + y / 16)).
  { replace (b + 256 * y) with (b + (16 * y) * 16) at 2 by lia.
    rewrite Z.div_add by lia.
    pose proof (Z.div_mod y 16 ltac:(lia)). lia. }
  rewrite E.
  assert (Hq : 0 <= b / 16 <= 4) by mlia.
  pose proof (Z.mod_pos_bound y 16 ltac:(lia)).
  rewrite land_block by lia.
  rewrite IH. f_equal. unfold laneC.
  rewrite Z.shiftr_div_pow2 by lia. change (2 ^ 4) with 16.
  change 15 with (Z.ones 4). rewrite !Z.land_ones by lia.
  change (2 ^ 4) with 16.
  replace (b + b / 16 + 16 * (y mod 16)) with (b + b / 16 + (y mod 16) * 16) by lia.
  apply Z.mod_add. lia.
Qed.

(** The multiplication by [B4] gathers the eight byte counts in the top
    byte. *)
Lemma gather_counts c0 c1 c2 c3 c4 c5 c6 c7 :
  0 <= c0 <= 8 -> 0 <= c1 <= 8 -> 0 <= c2 <= 8 -> 0 <= c3 <= 8 ->
  0 <= c4 <= 8 -> 0 <= c5 <= 8 -> 0 <= c6 <= 8 -> 0 <= c7 <= 8 ->
  _CBITS2 (le_bytes [c0; c1; c2; c3; c4; c5; c6; c7])
  = c0 + c1 + c2 + c3 + c4 + c5 + c6 + c7.
Proof.
  intros. unfold _CBITS2, S1.
  change B4 with 72340172838076673.
  cbn [le_bytes fold_right].
  rewrite Z.shiftr_div_pow2 by lia.
  rewrite (to_ulong_id (c0 + _)) by lia.
  unfold to_ulong. change ((8 - 1) * 8) with 56.
  change (2 ^ 56) with 72057594037927936.
  change (2 ^ 64) with 18446744073709551616.
  set (s := c0 + c1 + c2 + c3 + c4 + c5 + c6 + c7).
  set (lo := c0 + 256 * (c0 + c1) + 65536 * (c0 + c1 + c2)
             + 16777216 * (c0 + c1 + c2 + c3)
             + 4294967296 * (c0 + c1 + c2 + c3 + c4)
             + 1099511627776 * (c0 + c1 + c2 + c3 + c4 + c5)
             + 281474976710656 * (c0 + c1 + c2 + c3 + c4 + c5 + c6)).
  set (hi := c1 + c2 + c3 + c4 + c5 + c6 + c7
             + 256 * (c2 + c3 + c4 + c5 + c6 + c7)
             + 65536 * (c3 + c4 + c5 + c6 + c7)
             + 16777216 * (c4 + c5 + c6 + c7)
             + 4294967296 * (c5 + c6 + c7)
             + 1099511627776 * (c6 + c7)
             + 281474976710656 * c7).
  match goal with
  | |- (?x mod _) / _ = _ =>
      replace x with ((lo + 72057594037927936 * s) + hi * 18446744073709551616)
        by (subst s lo hi; ring)
  end.
  rewrite Z.mod_add by lia.
  assert (0 <= lo < 72057594037927936) by (subst lo; lia).
  assert (0 <= s <= 64) by (subst s; lia).
  rewrite Z.mod_small by lia.
  replace (lo + 72057594037927936 * s) with (lo + s * 72057594037927936) by ring.
  rewrite Z.div_add by lia. rewrite Z.div_small by lia. lia.
Qed.

Lemma word_bound_of_bytes l :
  Forall (fun b => 0 <= b < 128) l -> length l = 8%nat ->
  0 <= le_bytes l < 2 ^ 63.
Proof.
  intros H Hlen.
  do 8 (destruct l as [| ? l]; [discriminate |]).
  destruct l; [| discriminate].
  repeat match goal with
         | H : Forall _ (_ :: _) |- _ => inversion H; subst; clear H
         end.
  cbn [le_bytes fold_right]. lia.
Qed.

Lemma Forall_map_lane {P Q : Z -> Prop} (f : Z -> Z) l :
  (forall b, P b -> Q (f b)) -> Forall P l -> Forall Q (map f l).
Proof. intros Hf H. induction H; cbn [map]; constructor; auto. Qed.

(** [_CBITS] leaves in every byte of the word the number of bits that were
    set in that byte. *)
Lemma CBITS_lanes l :
  Forall is_byte l -> length l = 8%nat ->
  _CBITS (to_long (le_bytes l)) = le_bytes (map popcount l).
Proof.
  intros Hl Hlen.
  pose proof (le_bytes_range l Hl) as Hc. rewrite Hlen in Hc.
  change (256 ^ Z.of_nat 8) with (2 ^ 64) in Hc.
  assert (HA : Forall is_byte (map laneA l))
    by (apply (Forall_map_lane laneA l laneA_byte Hl)).
  assert (HB : Forall nibbles_ok (map laneB (map laneA l))).
  { rewrite map_map.
    apply (Forall_map_lane (fun b => laneB (laneA b)) l laneB_nibbles Hl). }
  pose proof (le_bytes_range _ HA) as HcA.
  rewrite length_map, Hlen in HcA.
  change (256 ^ Z.of_nat 8) with (2 ^ 64) in HcA.
  assert (HcB : 0 <= le_bytes (map laneB (map laneA l)) < 2 ^ 63).
  { apply word_bound_of_bytes; [| rewrite !length_map; exact Hlen].
    eapply Forall_impl; [| exact HB]. unfold nibbles_ok. intros; lia. }
  unfold _CBITS.
  (* _CBITSa *)
  assert (EA : _CBITSa (to_long (le_bytes l)) = to_long (le_bytes (map laneA l))).
  { unfold _CBITSa.
    rewrite to_ulong_to_long.
    rewrite (land_asr_mask (to_long (le_bytes l)) 1 B1)
      by (vm_compute; first [split; congruence | congruence]).
    rewrite to_ulong_to_long.
    rewrite (to_ulong_id (le_bytes l)) by exact Hc.
    change B1 with (le_bytes (repeat 85 8)). rewrite <- Hlen.
    rewrite stepA_lanes by exact Hl.
    rewrite to_long_to_ulong. reflexivity. }
  rewrite EA.
  (* _CBITSb *)
  assert (EB : _CBITSb (to_long (le_bytes (map laneA l)))
               = le_bytes (map laneB (map laneA l))).
  { unfold _CBITSb.
    rewrite to_ulong_to_long.
    rewrite (land_asr_mask (to_long (le_bytes (map laneA l))) 2 B2)
      by (vm_compute; first [split; congruence | congruence]).
    rewrite to_ulong_to_long.
    rewrite (to_ulong_id (le_bytes (map laneA l))) by exact HcA.
    change B2 with (le_bytes (repeat 51 8)).
    rewrite <- Hlen, <- (length_map laneA l).
    rewrite stepB_lanes by exact HA.
    rewrite to_long_to_ulong. apply to_long_id. lia. }
  rewrite EB.
  (* _CBITSc *)
  unfold _CBITSc.
  set (u := le_bytes (map laneB (map laneA l))) in *.
  assert (Hs : 0 <= u + Z.shiftr u 4 < 2 ^ 63).
  { rewrite Z.shiftr_div_pow2 by lia. change (2 ^ 4) with 16.
    assert (u < 5 * 2 ^ 60); [| mlia].
    subst u. clear - HB Hlen.
    assert (Hlen' : length (map laneB (map laneA l)) = 8%nat)
      by (rewrite !length_map; exact Hlen).
    revert HB Hlen'. generalize (map laneB (map laneA l)) as k. intros k HB Hk.
    do 8 (destruct k as [| ? k]; [discriminate |]).
    destruct k; [| discriminate].
    repeat match goal with
           | H : Forall _ (_ :: _) |- _ => inversion H; subst; clear H
           end.
    unfold nibbles_ok in *. cbn [le_bytes fold_right]. lia. }
  rewrite (to_long_id (u + _)) by lia.
  rewrite to_ulong_id by lia.
  change B3 with (le_bytes (repeat 15 8)).
  subst u. rewrite <- Hlen, <- (length_map laneA l), <- (length_map laneB (map laneA l)).
  rewrite stepC_lanes by exact HB.
  rewrite !map_map.
  assert (E : map (fun x => laneC (laneB (laneA x))) l = map popcount l).
  { apply map_ext_in. intros b Hb. apply laneC_popcount.
    rewrite Forall_forall in Hl. auto. }
  rewrite E. apply to_long_id.
  assert (HP : Forall (fun b => 0 <= b < 128) (map popcount l)).
  { apply (@Forall_map_lane is_byte _ popcount l); [| exact Hl].
    intros b Hb. pose proof (byte_popcount_range b Hb). lia. }
  pose proof (word_bound_of_bytes _ HP ltac:(rewrite length_map; exact Hlen)).
  lia.
Qed.

Lemma sidewaysaddition_value c :
  0 <= c < 2 ^ 64 -> to_long (_CBITS2 (_CBITS (to_long c))) = popcount c.
Proof.
  intros Hc.
  pose proof (chunk_bytes_le c Hc) as E.
  pose proof (chunk_bytes_are_bytes c) as Hl.
  rewrite <- E at 1.
  rewrite CBITS_lanes by (exact Hl || reflexivity).
  rewrite <- E at 2. rewrite popcount_le_bytes by exact Hl.
  change (zrange 0 8) with [0; 1; 2; 3; 4; 5; 6; 7] in *.
  cbn [map] in *.
  repeat match goal with
         | H : Forall _ (_ :: _) |- _ => inversion H; subst; clear H
         end.
  repeat match goal with
         | H : is_byte _ |- _ => apply byte_popcount_range in H
         end.
  rewrite gather_counts by assumption.
  cbn [sumZ fold_right]. rewrite Z.add_0_r.
  rewrite to_long_id by lia. ring.
Qed.

(** ** The kernels are pure and count the bits of every 64-bit word *)

Lemma kernighan_kernel_pure T :
  pure_kernel T kernighan_kernel (fun c => kernighan_loop (to_long c) 0).
Proof. intros c st _. reflexivity. Qed.

Lemma sidewaysaddition_kernel_pure T :
  pure_kernel T sidewaysaddition_kernel
    (fun c => to_long (_CBITS2 (_CBITS (to_long c)))).
Proof. intros c st _. reflexivity. Qed.

Lemma intrinsic_kernel_pure T :
  pure_kernel T intrinsic_kernel (fun c => to_long (to_int (popcount c))).
Proof. intros c st _. reflexivity. Qed.

Lemma kernighan_counts_bits T : counts_bits T kernighan_kernel.
Proof.
  eexists. split; [apply kernighan_kernel_pure |].
  apply kernighan_kernel_value.
Qed.

Lemma sidewaysaddition_counts_bits T : counts_bits T sidewaysaddition_kernel.
Proof.
  eexists. split; [apply sidewaysaddition_kernel_pure |].
  apply sidewaysaddition_value.
Qed.

Lemma intrinsic_counts_bits T : counts_bits T intrinsic_kernel.
Proof.
  eexists. split; [apply intrinsic_kernel_pure |]. apply intrinsic_value.
Qed.

Lemma intrinsic_double_counts_bits T : counts_bits T intrinsic_kernel_double.
Proof. apply intrinsic_counts_bits. Qed.

Lemma table_counts_bits T : table_ready T -> counts_bits T table_kernel.
Proof.
  intros HT. eexists. split; [apply table_kernel_pure |].
  intros c Hc. apply table_kernel_value; assumption.
Qed.

(** ** Teams *)

Lemma valid_team_chunks n t :
  valid_team n t -> Permutation (team_chunks t) (zrange 0 n).
Proof. intros (_ & _ & H). exact H. Qed.

Lemma sum_words_perm (f : Z -> Z) l1 l2 :
  Permutation l1 l2 -> sumZ (map f l1) = sumZ (map f l2).
Proof. intros H. apply sumZ_perm, Permutation_map, H. Qed.

Lemma sum_popcount_words m buffer (kv : Z -> Z) l :
  (forall c, 0 <= c < 2 ^ 64 -> kv c = popcount c) ->
  sumZ (map (fun i => kv (word_at m (buffer + i * 8))) l)
  = sumZ (map (fun i => popcount (word_at m (buffer + i * 8))) l).
Proof.
  intros Hkv. f_equal. apply map_ext. intros i. apply Hkv, word_at_range.
Qed.

Lemma bits_in_div_mod m buffer bufsize :
  0 <= bufsize ->
  bits_in m buffer (8 * (bufsize / 8))
  + bits_in m (buffer + 8 * (bufsize / 8)) (bufsize mod 8)
  = bits_in m buffer bufsize.
Proof.
  intros H. rewrite <- bits_in_split by mlia.
  f_equal. mlia.
Qed.

Section HarnessCorrect.
Variable m : Z -> uchar.
Variable T : Z -> Z.

(** With a kernel that counts bits and a team that shares out the
    chunks, the harness returns the number of set bits of the buffer. *)
Lemma count_bits_kernel_correct func t buffer bufsize st :
  counts_bits T func -> store_is m T st -> 0 <= bufsize < 2 ^ 64 ->
  valid_team (bufsize / 8) t ->
  fst (count_bits_kernel func t buffer bufsize st)
  = to_long (bits_in m buffer bufsize).
Proof.
  intros (kv & Hp & Hkv) Hst Hsz Ht.
  rewrite (count_bits_kernel_run m T func kv) by assumption.
  cbn [fst].
  rewrite (sum_popcount_words m buffer kv) by exact Hkv.
  rewrite (sum_words_perm _ _ _ (valid_team_chunks _ _ Ht)).
  rewrite bits_in_chunks by mlia.
  rewrite bits_in_div_mod by lia. reflexivity.
Qed.

Lemma count_bits_naive_correct buffer bufsize st :
  store_is m T st ->
  fst (count_bits_naive buffer bufsize st) = to_long (bits_in m buffer bufsize).
Proof. intros Hst. rewrite (count_bits_naive_run m T) by assumption. reflexivity. Qed.

End HarnessCorrect.

Lemma count_bits_kernel_double_eq func :
  count_bits_kernel_double func = count_bits_kernel func.
Proof. reflexivity. Qed.

(** ** The hybrid harness *)

Lemma sum_by_kernel (f : Z * list Z -> bool) (g1 g2 : Z -> Z) (t : team) :
  sumZ (map (fun th => sumZ (map (if f th then g1 else g2) (snd th))) t)
  = sumZ (map g1 (team_chunks (filter f t)))
    + sumZ (map g2 (team_chunks (filter (fun th => negb (f th)) t))).
Proof.
  unfold team_chunks. induction t as [| th t IH]; [reflexivity |].
  cbn [map filter]. rewrite sumZ_cons, IH.
  destruct (f th); cbn [negb map concat];
    rewrite map_app, sumZ_app; lia.
Qed.

Lemma team_chunks_split (f : Z * list Z -> bool) (t : team) :
  Permutation (team_chunks (filter f t)
               ++ team_chunks (filter (fun th => negb (f th)) t))
              (team_chunks t).
Proof.
  unfold team_chunks. induction t as [| th t IH]; [constructor |].
  cbn [map filter concat]. destruct (f th); cbn [negb map concat].
  - rewrite <- app_assoc. apply Permutation_app_head, IH.
  - rewrite app_assoc.
    rewrite (Permutation_app_comm (concat _) (snd th)).
    rewrite <- app_assoc. apply Permutation_app_head, IH.
Qed.

Section Hybrid.
Variable m : Z -> uchar.
Variable T : Z -> Z.

Lemma count_bits_kernel2_run func func2 kv kv2 n1 n2 t buffer bufsize st :
  pure_kernel T func kv -> pure_kernel T func2 kv2 ->
  store_is m T st -> 0 <= bufsize < 2 ^ 64 ->
  count_bits_kernel2 func func2 n1 n2 t buffer bufsize st
  = (to_long (sumZ (map (fun i => kv (word_at m (buffer + i * 8)))
                        (chunks_func1 n1 n2 t))
              + sumZ (map (fun i => kv2 (word_at m (buffer + i * 8)))
                          (chunks_func2 n1 n2 t))
              + bits_in m (buffer + 8 * (bufsize / 8)) (bufsize mod 8)),
     emit st (chunk_events 8 buffer (team_chunks t)
              ++ naive_events (buffer + 8 * (bufsize / 8)) (bufsize mod 8))).
Proof.
  intros Hk Hk2 Hst Hsz. unfold count_bits_kernel2.
  destruct (harness_sizes bufsize Hsz) as (E1 & E2 & E3).
  cbv zeta. rewrite E3, E2. unfold bind at 1.
  erewrite (omp_parallel_reduction_run m T t _
              (fun th => to_long (sumZ (map
                   (if runs_func1 n1 n2 (team_size t) (fst th)
                    then fun i => kv (word_at m (buffer + i * 8))
                    else fun i => kv2 (word_at m (buffer + i * 8)))
                   (snd th))))
              (fun th => chunk_events 8 buffer (snd th)));
    [ | | assumption | reflexivity].
  - unfold bind, ret.
    rewrite (count_bits_naive_run m T) by (apply store_emit; assumption).
    rewrite emit_emit, flat_map_chunk_events.
    rewrite to_long_add_r, Z.add_0_l, to_long_add_l.
    rewrite <- to_long_add_l, to_long_sumZ_map, to_long_add_l.
    rewrite (sum_by_kernel
               (fun th => runs_func1 n1 n2 (team_size t) (fst th))).
    reflexivity.
  - intros th st' Hst'. unfold bind, ret.
    destruct (runs_func1 n1 n2 (team_size t) (fst th)).
    + rewrite (chunk_loop_run m T func kv) by (assumption || reflexivity).
      rewrite !Z.add_0_l, to_long_idem. reflexivity.
    + rewrite (chunk_loop_run m T func2 kv2) by (assumption || reflexivity).
      rewrite !Z.add_0_l, to_long_idem. reflexivity.
Qed.

Lemma count_bits_kernel2_correct func func2 n1 n2 t buffer bufsize st :
  counts_bits T func -> counts_bits T func2 ->
  store_is m T st -> 0 <= bufsize < 2 ^ 64 ->
  valid_team (bufsize / 8) t ->
  fst (count_bits_kernel2 func func2 n1 n2 t buffer bufsize st)
  = to_long (bits_in m buffer bufsize).
Proof.
  intros (kv & Hp & Hkv) (kv2 & Hp2 & Hkv2) Hst Hsz Ht.
  rewrite (count_bits_kernel2_run func func2 kv kv2) by assumption.
  cbn [fst].
  rewrite (sum_popcount_words m buffer kv) by exact Hkv.
  rewrite (sum_popcount_words m buffer kv2) by exact Hkv2.
  rewrite <- sumZ_app, <- map_app.
  unfold chunks_func1, chunks_func2.
  rewrite (sum_words_perm _ _ _ (team_chunks_split _ t)).
  rewrite (sum_words_perm _ _ _ (valid_team_chunks _ _ Ht)).
  rewrite bits_in_chunks by mlia.
  rewrite bits_in_div_mod by lia. reflexivity.
Qed.

End Hybrid.

(** ** The inline-assembly variant *)

Lemma flat_map_team (f : Z -> list event) (t : team) :
  flat_map (fun th => flat_map f (snd th)) t = flat_map f (team_chunks t).
Proof.
  unfold team_chunks. induction t as [| th t IH]; [reflexivity |].
  cbn [flat_map map concat]. rewrite flat_map_app, IH. reflexivity.
Qed.

Lemma sum_team (f : Z -> Z) (t : team) :
  sumZ (map (fun th => sumZ (map f (snd th))) t) = sumZ (map f (team_chunks t)).
Proof.
  unfold team_chunks. rewrite sumZ_concat_map, map_map. reflexivity.
Qed.

Lemma asm_bufsize_per_core_range nc bufsize :
  0 <= asm_bufsize_per_core nc bufsize < 2 ^ 64.
Proof. apply to_ulong_range. Qed.

Section AsmRun.
Variable m : Z -> uchar.
Variable T : Z -> Z.

Lemma count_bits_asm_run nt t buffer bufsize st :
  store_is m T st ->
  let nc := num_threads nt in
  let bpc := asm_bufsize_per_core nc bufsize in
  let cb := asm_chunked_bufsize nc bufsize in
  count_bits_asm nt t buffer bufsize st
  = (to_long (sumZ (map (fun core =>
                           bits_in m (asm_mybuffer nc buffer bufsize core)
                                   (8 * (bpc / 8)))
                        (team_chunks t))
              + bits_in m (buffer + cb) (to_size_t (bufsize - cb))),
     emit st (flat_map (fun core =>
                          chunk_events 8 (asm_mybuffer nc buffer bufsize core)
                                       (zrange 0 (bpc / 8)))
                       (team_chunks t)
              ++ naive_events (buffer + cb) (to_size_t (bufsize - cb)))).
Proof.
  intros Hst nc bpc cb. unfold count_bits_asm. fold nc. fold bpc. fold cb.
  cbv zeta. unfold bind at 1.
  erewrite (omp_parallel_reduction_run m T t _
              (fun th => to_long (sumZ (map
                   (fun core => to_long (bits_in m
                      (asm_mybuffer nc buffer bufsize core) (8 * (bpc / 8))))
                   (snd th))))
              (fun th => flat_map (fun core =>
                   chunk_events 8 (asm_mybuffer nc buffer bufsize core)
                                (zrange 0 (bpc / 8))) (snd th)));
    [ | | assumption | reflexivity].
  - unfold bind, ret.
    rewrite (count_bits_naive_run m T) by (apply store_emit; assumption).
    rewrite emit_emit.
    rewrite flat_map_team.
    rewrite to_long_add_r, Z.add_0_l, to_long_add_l.
    rewrite <- to_long_add_l, to_long_sumZ_map.
    rewrite sum_team.
    rewrite to_long_sumZ_map, to_long_add_l. reflexivity.
  - intros th st' Hst'.
    rewrite (foldM_sum m T _
               (fun core => to_long (bits_in m
                  (asm_mybuffer nc buffer bufsize core) (8 * (bpc / 8))))
               (fun core => chunk_events 8
                  (asm_mybuffer nc buffer bufsize core) (zrange 0 (bpc / 8))));
      [rewrite Z.add_0_l; reflexivity | | assumption | reflexivity].
    intros core acc st'' Hst'' _. unfold bind, ret.
    fold (asm_mybuffer nc buffer bufsize core).
    rewrite (count_bits_asm_chunked_run m T)
      by (assumption || apply asm_bufsize_per_core_range).
    reflexivity.
Qed.
End AsmRun.

Lemma asm_sizes nt bufsize :
  - 2 ^ 31 <= nt < 2 ^ 31 -> 0 <= bufsize < 2 ^ 64 ->
  let nc := num_threads nt in
  exists k,
    0 <= k /\
    asm_bufsize_per_core nc bufsize = 8 * k /\
    asm_chunked_bufsize nc bufsize = Z.max 0 nc * (8 * k) /\
    Z.max 0 nc * k <= bufsize / 8 /\
    (1 <= nt -> nc = nt /\ k = bufsize / 8 / nt) /\
    (nt <= 0 -> nc = -1 /\ k = 0).
Proof.
  intros Hnt Hsz nc. unfold asm_chunked_bufsize, asm_bufsize_per_core.
  assert (Hq : 0 <= bufsize / 8 < 2 ^ 61) by mlia.
  change (bufsize / chunk_size) with (bufsize / 8).
  unfold chunk_size, nc, num_threads.
  destruct (Z.ltb_spec 0 nt) as [Hpos | Hneg].
  - exists (bufsize / 8 / nt).
    unfold to_size_t. rewrite (to_ulong_id nt) by lia.
    assert (Hk : 0 <= bufsize / 8 / nt) by (apply Z.div_pos; lia).
    pose proof (Z.mul_div_le (bufsize / 8) nt Hpos) as Hm.
    assert (Hk' : bufsize / 8 / nt <= bufsize / 8) by nia.
    rewrite (to_ulong_id (bufsize / 8 / nt * 8)) by lia.
    rewrite to_ulong_id by nia.
    repeat split; try lia; nia.
  - exists 0. unfold to_size_t.
    change (to_ulong (-1)) with (2 ^ 64 - 1).
    rewrite (Z.div_small (bufsize / 8)) by lia.
    repeat split; try reflexivity; lia.
Qed.

Lemma bits_in_blocks m p s n :
  0 <= n -> 0 <= s ->
  sumZ (map (fun i => bits_in m (p + i * s) s) (zrange 0 n))
  = bits_in m p (n * s).
Proof.
  intros Hn Hs. rewrite <- (Z2Nat.id n Hn). clear Hn.
  induction (Z.to_nat n) as [| k IH]; [reflexivity |].
  rewrite Nat2Z.inj_succ.
  rewrite (zrange_app 0 (Z.of_nat k) (Z.succ (Z.of_nat k))) by lia.
  rewrite map_app, sumZ_app, IH.
  rewrite (zrange_cons (Z.of_nat k)), zrange_nil by lia.
  cbn [map]. rewrite sumZ_cons. cbn [sumZ fold_right]. rewrite Z.add_0_r.
  replace (Z.succ (Z.of_nat k) * s) with (Z.of_nat k * s + s) by lia.
  rewrite bits_in_split by nia. reflexivity.
Qed.

Lemma chunk_events_blocks p k n :
  0 <= n -> 0 <= k ->
  flat_map (fun core => chunk_events 8 (p + core * (8 * k)) (zrange 0 k))
           (zrange 0 n)
  = chunk_events 8 p (zrange 0 (n * k)).
Proof.
  intros Hn Hk. rewrite <- (Z2Nat.id n Hn). clear Hn.
  induction (Z.to_nat n) as [| j IH]; [reflexivity |].
  rewrite Nat2Z.inj_succ.
  rewrite (zrange_app 0 (Z.of_nat j) (Z.succ (Z.of_nat j))) by lia.
  rewrite flat_map_app, IH.
  rewrite (zrange_cons (Z.of_nat j) (Z.succ (Z.of_nat j))) by lia.
  rewrite (zrange_nil (Z.of_nat j + 1)) by lia.
  cbn [flat_map]. rewrite app_nil_r.
  replace (Z.succ (Z.of_nat j) * k) with (Z.of_nat j * k + k) by lia.
  rewrite (zrange_app 0 (Z.of_nat j * k) (Z.of_nat j * k + k)) by nia.
  unfold chunk_events. rewrite map_app. f_equal.
  replace (zrange (Z.of_nat j * k) (Z.of_nat j * k + k))
    with (zrange (0 + Z.of_nat j * k) (k + Z.of_nat j * k)) by (f_equal; lia).
  rewrite zrange_shift, map_map. apply map_ext. intros i. f_equal. lia.
Qed.

Lemma asm_mybuffer_in_range nt buffer bufsize core :
  - 2 ^ 31 <= nt < 2 ^ 31 -> 0 <= bufsize < 2 ^ 64 ->
  0 <= core < num_threads nt ->
  asm_mybuffer (num_threads nt) buffer bufsize core
  = buffer + core * asm_bufsize_per_core (num_threads nt) bufsize.
Proof.
  intros Hnt Hsz Hc.
  destruct (asm_sizes nt bufsize Hnt Hsz) as (k & Hk & Eb & Ec & Hle & _).
  unfold asm_mybuffer. rewrite Eb. f_equal. unfold to_size_t.
  assert (bufsize / 8 < 2 ^ 61) by mlia.
  assert (num_threads nt < 2 ^ 31)
    by (unfold num_threads; destruct (0 <? nt); lia).
  rewrite (to_ulong_id core) by lia.
  apply to_ulong_id. nia.
Qed.

Section AsmCorrect.
Variable m : Z -> uchar.
Variable T : Z -> Z.

Lemma count_bits_asm_correct nt t buffer bufsize st :
  store_is m T st ->
  - 2 ^ 31 <= nt < 2 ^ 31 -> 0 <= bufsize < 2 ^ 64 ->
  valid_team (num_threads nt) t ->
  fst (count_bits_asm nt t buffer bufsize st)
  = to_long (bits_in m buffer bufsize).
Proof.
  intros Hst Hnt Hsz Ht.
  rewrite (count_bits_asm_run m T) by assumption. cbn [fst].
  destruct (asm_sizes nt bufsize Hnt Hsz) as (k & Hk & Eb & Ec & Hle & _).
  assert (Hq : 0 <= bufsize / 8 < 2 ^ 61) by mlia.
  rewrite (sum_words_perm _ _ _ (valid_team_chunks _ _ Ht)).
  assert (E : map (fun core =>
                     bits_in m (asm_mybuffer (num_threads nt) buffer bufsize core)
                       (8 * (asm_bufsize_per_core (num_threads nt) bufsize / 8)))
                  (zrange 0 (num_threads nt))
              = map (fun core => bits_in m (buffer + core * (8 * k)) (8 * k))
                    (zrange 0 (num_threads nt))).
  { apply map_ext_in. intros core Hc. apply in_zrange in Hc.
    rewrite asm_mybuffer_in_range by assumption.
    rewrite Eb. do 2 f_equal.
    replace (8 * k) with (k * 8) by lia. rewrite Z.div_mul by lia. lia. }
  rewrite E, Ec.
  replace (zrange 0 (num_threads nt)) with (zrange 0 (Z.max 0 (num_threads nt)))
    by (unfold zrange; f_equal; f_equal; lia).
  rewrite bits_in_blocks by lia.
  assert (H8 : 8 * (bufsize / 8) <= bufsize) by mlia.
  assert (Hcb : 0 <= Z.max 0 (num_threads nt) * (8 * k) <= bufsize) by nia.
  unfold to_size_t. rewrite to_ulong_id by lia.
  rewrite <- bits_in_split by lia.
  do 2 f_equal. lia.
Qed.

End AsmCorrect.

(** ** The lookup table *)

Lemma uchar_of_u8 z : u8 (uchar_of z) = z mod 256.
Proof.
  unfold uchar_of, u8.
  pose proof (Z.mod_pos_bound z 256 ltac:(lia)) as Hr.
  destruct (Byte.of_N (Z.to_N (z mod 256))) as [b |] eqn:E.
  - apply Byte.to_of_N in E. rewrite E. lia.
  - apply Byte.of_N_None_iff in E. lia.
Qed.

Lemma count_bits_value size number st :
  fst (count_bits size number st)
  = fst (count_bits_naive 0 size (mkState (object_repr number) (fun _ => 0) [])).
Proof.
  unfold count_bits. cbn [fst].
  rewrite (count_bits_naive_run (object_repr number) (lookup_table st))
    by (split; reflexivity).
  rewrite (count_bits_naive_run (object_repr number) (fun _ => 0))
    by (split; reflexivity).
  reflexivity.
Qed.

Lemma table_entry_popcount i : 0 <= i < 256 -> table_entry i = popcount i.
Proof.
  intros Hi.
  pose proof (byte_forall (fun i => table_entry i =? popcount i)) as H.
  specialize (H ltac:(vm_compute; reflexivity) i Hi). cbv beta in H. lia.
Qed.

Lemma init_lookup_table_loop l : forall st,
  let st' := snd (foldM (fun i (_ : unit) =>
                           c <- count_bits 4 i ;; lut_set i (to_int c)) l tt st) in
  mem st' = mem st /\ trace st' = trace st /\
  forall j, lookup_table st' j
            = if existsb (Z.eqb j) l then table_entry j else lookup_table st j.
Proof.
  induction l as [| i l IH]; intros st; cbv zeta.
  - cbn. auto.
  - set (st1 := mkState (mem st)
                  (fun j => if j =? i then table_entry i else lookup_table st j)
                  (trace st)).
    assert (E : (c <- count_bits 4 i ;; lut_set i (to_int c)) st = (tt, st1)).
    { unfold bind. pose proof (count_bits_value 4 i st) as Hv.
      unfold count_bits in *. cbn [fst] in Hv. rewrite Hv. reflexivity. }
    assert (Es : foldM (fun i (_ : unit) =>
                          c <- count_bits 4 i ;; lut_set i (to_int c))
                       (i :: l) tt st
                 = foldM (fun i (_ : unit) =>
                            c <- count_bits 4 i ;; lut_set i (to_int c))
                         l tt st1).
    { cbn [foldM]. unfold bind at 1. rewrite E. reflexivity. }
    rewrite Es. clear E Es.
    destruct (IH st1) as (Hm & Ht & Hl).
    cbv zeta in Hm, Ht, Hl.
    split; [exact Hm |]. split; [exact Ht |].
    intros j. rewrite Hl. unfold st1. cbn [lookup_table existsb].
    destruct (Z.eqb_spec j i) as [-> | Hne]; cbn [orb].
    + destruct (existsb (Z.eqb i) l); reflexivity.
    + reflexivity.
Qed.

Lemma existsb_zrange j lo hi :
  existsb (Z.eqb j) (zrange lo hi) = (lo <=? j) && (j <? hi).
Proof.
  destruct (existsb (Z.eqb j) (zrange lo hi)) eqn:E.
  - apply existsb_exists in E. destruct E as (x & Hx & Hjx).
    apply in_zrange in Hx. apply Z.eqb_eq in Hjx. subst x.
    symmetry. apply andb_true_iff. split; [apply Z.leb_le | apply Z.ltb_lt]; lia.
  - destruct (Z.leb_spec lo j), (Z.ltb_spec j hi); try reflexivity.
    exfalso. assert (H' : existsb (Z.eqb j) (zrange lo hi) = true).
    { apply existsb_exists. exists j. split; [apply in_zrange; lia | apply Z.eqb_refl]. }
    congruence.
Qed.

(** [init_lookup_table] writes the table and nothing else. *)
Lemma init_lookup_table_run st :
  let st' := snd (init_lookup_table st) in
  mem st' = mem st /\ trace st' = trace st /\
  table_ready (lookup_table st') /\
  forall j, ~ 0 <= j < 256 -> lookup_table st' j = lookup_table st j.
Proof.
  destruct (init_lookup_table_loop (zrange 0 256) st) as (Hm & Ht & Hl).
  cbv zeta in *. unfold init_lookup_table.
  split; [exact Hm |]. split; [exact Ht |]. split.
  - intros i Hi. rewrite Hl, existsb_zrange.
    replace ((0 <=? i) && (i <? 256)) with true
      by (symmetry; apply andb_true_iff; split;
          [apply Z.leb_le | apply Z.ltb_lt]; lia).
    apply table_entry_popcount. exact Hi.
  - intros j Hj. rewrite Hl, existsb_zrange.
    destruct (Z.leb_spec 0 j), (Z.ltb_spec j 256); try reflexivity. lia.
Qed.

(** ** The loads of a call *)

Lemma loads_emit {A} (c : M A) st evs :
  snd (c st) = emit st evs -> loads c st = evs.
Proof.
  intros E. unfold loads. rewrite E. cbn [emit trace].
  rewrite skipn_app, skipn_all, Nat.sub_diag. reflexivity.
Qed.

Lemma naive_events_in_buffer buffer bufsize off len :
  0 <= off -> off + len <= bufsize ->
  Forall (in_buffer buffer bufsize) (naive_events (buffer + off) len).
Proof.
  intros Ho Hl. apply Forall_forall. intros e He. unfold naive_events in He.
  apply in_flat_map in He. destruct He as (byte & Hb & He).
  apply in_zrange in Hb. apply in_map_iff in He. destruct He as (_ & <- & _).
  cbn [in_buffer]. lia.
Qed.

Lemma chunk_events_in_buffer buffer bufsize off its :
  0 <= off ->
  (forall i, In i its -> 0 <= i /\ off + 8 * i + 8 <= bufsize) ->
  Forall (in_buffer buffer bufsize) (chunk_events 8 (buffer + off) its).
Proof.
  intros Ho H. apply Forall_forall. intros e He. unfold chunk_events in He.
  apply in_map_iff in He. destruct He as (i & <- & Hi).
  specialize (H i Hi). cbn [in_buffer]. lia.
Qed.

Lemma naive_events_nil buffer len : len <= 0 -> naive_events buffer len = [].
Proof. intros H. unfold naive_events. rewrite (zrange_nil 0 len) by lia. reflexivity. Qed.

(** ** Contiguous partitions are teams *)

Lemma ranges_shape lens : forall tid lo,
  Forall (fun n => 0 <= n) lens ->
  map fst (ranges tid lo lens) = zrange tid (tid + Z.of_nat (length lens)) /\
  concat (map snd (ranges tid lo lens)) = zrange lo (lo + sumZ lens).
Proof.
  induction lens as [| len lens IH]; intros tid lo H.
  - cbn [ranges map concat length sumZ fold_right].
    rewrite !zrange_nil by (cbn; lia). auto.
  - inversion H as [| ? ? Hlen Hrest]; subst.
    destruct (IH (tid + 1) (lo + len) Hrest) as [E1 E2].
    cbn [ranges map concat length fst snd]. rewrite E1, E2, sumZ_cons.
    assert (Hs : 0 <= sumZ lens).
    { clear - Hrest. induction Hrest; [cbn; lia | rewrite sumZ_cons; lia]. }
    split.
    + rewrite Nat2Z.inj_succ.
      rewrite (zrange_cons tid) by lia. f_equal. f_equal. lia.
    + rewrite (zrange_app lo (lo + len) (lo + (len + sumZ lens))) by lia.
      f_equal. f_equal. lia.
Qed.

Lemma ranges_length lens : forall tid lo,
  length (ranges tid lo lens) = length lens.
Proof. induction lens; intros; cbn; auto. Qed.

Lemma contiguous_team_valid lens :
  lens <> [] -> Forall (fun n => 0 <= n) lens ->
  valid_team (sumZ lens) (contiguous_team lens).
Proof.
  intros Hne H. unfold valid_team, contiguous_team, team_size.
  destruct (ranges_shape lens 0 0 H) as [E1 E2].
  rewrite E1, E2, ranges_length. repeat split; try reflexivity.
  destruct lens; [contradiction | discriminate].
Qed.

(** ** Kernighan's step clears the lowest set bit *)

Lemma land_pred_lowest (u : Z) :
  0 < u ->
  exists j, 0 <= j /\ Z.testbit u j = true /\
            (forall i, 0 <= i < j -> Z.testbit u i = false) /\
            Z.land u (u - 1) = u - 2 ^ j.
Proof.
  destruct u as [| p | p]; try lia. intros _.
  induction p as [p IH | p IH |].
  - exists 0. rewrite Pos2Z.inj_xI.
    pose proof (land_bit0 (Z.pos p) (Z.pos p) true false) as E.
    rewrite Z.land_diag in E. cbn [andb Z.b2z] in E.
    replace (2 * Z.pos p + 1 - 1) with (2 * Z.pos p + 0) by lia.
    rewrite E. split; [lia |]. split; [apply Z.testbit_odd_0 |].
    split; [intros i Hi; lia |]. change (2 ^ 0) with 1. lia.
  - destruct IH as (j & Hj & Hbit & Hlow & Hland).
    exists (Z.succ j). rewrite Pos2Z.inj_xO.
    pose proof (land_bit0 (Z.pos p) (Z.pos p - 1) false true) as E.
    cbn [andb Z.b2z] in E.
    replace (2 * (Z.pos p - 1) + 1) with (2 * Z.pos p - 1) in E by lia.
    rewrite Z.add_0_r in E. rewrite E, Hland.
    split; [lia |].
    split; [rewrite Z.testbit_even_succ by lia; exact Hbit |].
    split.
    + intros i Hi. destruct (Z.eq_dec i 0) as [-> | Hnz].
      * apply Z.testbit_even_0.
      * replace i with (Z.succ (i - 1)) by lia.
        rewrite Z.testbit_even_succ by lia. apply Hlow. lia.
    + rewrite Z.pow_succ_r by lia. lia.
  - exists 0. split; [lia |]. split; [reflexivity |].
    split; [intros i Hi; lia | reflexivity].
Qed.

(** ** The command line *)

Module CLIFacts.
Import CLI.








End CLIFacts.

(* ===================================================================== *)
(** * The counting functions built on the harness *)
(* ===================================================================== *)

Lemma harness_variant_run f m T :
  In f harness_variants ->
  exists kv,
    (table_ready T -> forall c, 0 <= c < 2 ^ 64 -> kv c = popcount c) /\
    forall st t buffer bufsize,
      store_is m T st -> 0 <= bufsize < 2 ^ 64 ->
      f t buffer bufsize st
      = (to_long (sumZ (map (fun i => kv (word_at m (buffer + i * 8)))
                            (team_chunks t))
                  + bits_in m (buffer + 8 * (bufsize / 8)) (bufsize mod 8)),
         emit st (harness_events t buffer bufsize)).
Proof.
  intros Hf. cbn [harness_variants In] in Hf.
  destruct Hf as [<- | [<- | [<- | [<- | [<- | [<- | []]]]]]].
  - exists (fun c => to_long (sumZ (map (fun byte => T (chunk_byte c byte))
                                        (zrange 0 8)))).
    split; [intros HT c; apply table_kernel_value; exact HT |].
    intros st t buffer bufsize Hst Hsz.
    exact (count_bits_kernel_run m T _ _ t buffer bufsize st
             (table_kernel_pure T) Hst Hsz).
  - exists (fun c => kernighan_loop (to_long c) 0).
    split; [intros _; apply kernighan_kernel_value |].
    intros st t buffer bufsize Hst Hsz.
    exact (count_bits_kernel_run m T _ _ t buffer bufsize st
             (kernighan_kernel_pure T) Hst Hsz).
  - exists (fun c => to_long (_CBITS2 (_CBITS (to_long c)))).
    split; [intros _; apply sidewaysaddition_value |].
    intros st t buffer bufsize Hst Hsz.
    exact (count_bits_kernel_run m T _ _ t buffer bufsize st
             (sidewaysaddition_kernel_pure T) Hst Hsz).
  - exists (fun c => to_long (to_int (popcount c))).
    split; [intros _; apply intrinsic_value |].
    intros st t buffer bufsize Hst Hsz.
    exact (count_bits_kernel_run m T _ _ t buffer bufsize st
             (intrinsic_kernel_pure T) Hst Hsz).
  - exists (fun c => to_long (to_int (popcount c))).
    split; [intros _; apply intrinsic_value |].
    intros st t buffer bufsize Hst Hsz.
    exact (count_bits_kernel_run m T intrinsic_kernel_double _ t buffer
             bufsize st (intrinsic_kernel_pure T) Hst Hsz).
  - exists popcount. split; [reflexivity |].
    intros st t buffer bufsize Hst Hsz. unfold count_bits_optimized.
    rewrite (count_bits_kernel2_run m T _ _ _ _ 1 1 t buffer bufsize st
               (intrinsic_kernel_pure T) (sidewaysaddition_kernel_pure T)
               Hst Hsz).
    unfold harness_events. f_equal. f_equal. f_equal.
    rewrite (sum_popcount_words m buffer _ _ intrinsic_value).
    rewrite (sum_popcount_words m buffer _ _ sidewaysaddition_value).
    rewrite <- sumZ_app, <- map_app.
    apply sum_words_perm. unfold chunks_func1, chunks_func2.
    apply team_chunks_split.
Qed.

Section Variants.
Variable m : Z -> uchar.
Variable T : Z -> Z.
Variable f : team -> Z -> Z -> M Z.
Hypothesis Hf : In f harness_variants.

Lemma variant_state st t buffer bufsize :
  store_is m T st -> 0 <= bufsize < 2 ^ 64 ->
  snd (f t buffer bufsize st) = emit st (harness_events t buffer bufsize).
Proof.
  intros Hst Hsz. destruct (harness_variant_run f m T Hf) as (kv & _ & Hrun).
  rewrite Hrun by assumption. reflexivity.
Qed.

Lemma variant_value_correct st t buffer bufsize :
  table_ready T -> store_is m T st -> 0 <= bufsize < 2 ^ 64 ->
  valid_team (bufsize / 8) t ->
  fst (f t buffer bufsize st) = to_long (bits_in m buffer bufsize).
Proof.
  intros HT Hst Hsz Ht.
  destruct (harness_variant_run f m T Hf) as (kv & Hkv & Hrun).
  rewrite Hrun by assumption. cbn [fst].
  rewrite (sum_popcount_words m buffer kv) by auto.
  rewrite (sum_words_perm _ _ _ (valid_team_chunks _ _ Ht)).
  rewrite bits_in_chunks by mlia.
  rewrite bits_in_div_mod by lia. reflexivity.
Qed.

(** The result depends on the team only through the set of its chunks,
    and on the state only through the memory and the table. *)
Lemma variant_value_team st1 st2 t1 t2 buffer bufsize :
  store_is m T st1 -> store_is m T st2 -> 0 <= bufsize < 2 ^ 64 ->
  Permutation (team_chunks t1) (team_chunks t2) ->
  fst (f t1 buffer bufsize st1) = fst (f t2 buffer bufsize st2).
Proof.
  intros Hst1 Hst2 Hsz Hp.
  destruct (harness_variant_run f m T Hf) as (kv & _ & Hrun).
  rewrite !Hrun by assumption. cbn [fst].
  rewrite (sum_words_perm _ _ _ Hp). reflexivity.
Qed.

End Variants.

Lemma store_is_self st : store_is (mem st) (lookup_table st) st.
Proof. split; reflexivity. Qed.

Lemma harness_events_in_buffer t buffer bufsize :
  0 <= bufsize -> valid_team (bufsize / 8) t ->
  Forall (in_buffer buffer bufsize) (harness_events t buffer bufsize).
Proof.
  intros Hsz Ht. unfold harness_events. apply Forall_app. split.
  - rewrite <- (Z.add_0_r buffer) at 2.
    apply chunk_events_in_buffer; [lia |].
    intros i Hi.
    apply (Permutation_in _ (valid_team_chunks _ _ Ht)) in Hi.
    apply in_zrange in Hi. mlia.
  - apply naive_events_in_buffer; mlia.
Qed.

Lemma harness_events_empty t buffer :
  valid_team 0 t -> harness_events t buffer 0 = [].
Proof.
  intros Ht. unfold harness_events.
  pose proof (valid_team_chunks _ _ Ht) as Hp.
  apply Permutation_sym, Permutation_nil in Hp. rewrite Hp. reflexivity.
Qed.

Lemma asm_state m T nt t buffer bufsize st :
  store_is m T st ->
  snd (count_bits_asm nt t buffer bufsize st)
  = emit st (asm_events nt t buffer bufsize).
Proof.
  intros Hst. rewrite (count_bits_asm_run m T) by assumption. reflexivity.
Qed.

Lemma flat_map_ext_range {A B} (f g : A -> list B) l :
  (forall x, In x l -> f x = g x) -> flat_map f l = flat_map g l.
Proof.
  intros H. induction l as [| x l IH]; [reflexivity |].
  cbn [flat_map]. rewrite H by (left; reflexivity).
  rewrite IH by (intros; apply H; right; assumption). reflexivity.
Qed.

(** The chunk loads of [count_bits_asm], core by core in increasing
    order, are those of the first [asm_chunked_bufsize / 8] chunks. *)
Lemma asm_core_events nt buffer bufsize :
  - 2 ^ 31 <= nt < 2 ^ 31 -> 0 <= bufsize < 2 ^ 64 ->
  let nc := num_threads nt in
  flat_map (fun core =>
              chunk_events 8 (asm_mybuffer nc buffer bufsize core)
                (zrange 0 (asm_bufsize_per_core nc bufsize / 8)))
           (zrange 0 nc)
  = chunk_events 8 buffer (zrange 0 (asm_chunked_bufsize nc bufsize / 8)).
Proof.
  intros Hnt Hsz nc.
  destruct (asm_sizes nt bufsize Hnt Hsz) as (k & Hk & Eb & Ec & Hle & _).
  subst nc. set (nc := num_threads nt) in *.
  assert (E : forall core, In core (zrange 0 nc) ->
     chunk_events 8 (asm_mybuffer nc buffer bufsize core)
       (zrange 0 (asm_bufsize_per_core nc bufsize / 8))
     = chunk_events 8 (buffer + core * (8 * k)) (zrange 0 k)).
  { intros core Hc. apply in_zrange in Hc.
    unfold nc in *. rewrite asm_mybuffer_in_range by assumption.
    rewrite Eb.
    replace (8 * k / 8) with k
      by (replace (8 * k) with (k * 8) by lia; rewrite Z.div_mul; lia).
    reflexivity. }
  rewrite (flat_map_ext_range _ _ _ E).
  replace (zrange 0 nc) with (zrange 0 (Z.max 0 nc))
    by (unfold zrange; f_equal; f_equal; lia).
  rewrite chunk_events_blocks by lia.
  rewrite Ec. do 2 f_equal.
  replace (Z.max 0 nc * (8 * k)) with (Z.max 0 nc * k * 8) by lia.
  rewrite Z.div_mul; lia.
Qed.

Lemma asm_leftover nt bufsize :
  - 2 ^ 31 <= nt < 2 ^ 31 -> 0 <= bufsize < 2 ^ 64 ->
  let cb := asm_chunked_bufsize (num_threads nt) bufsize in
  0 <= cb <= 8 * (bufsize / 8) /\ cb mod 8 = 0 /\
  to_size_t (bufsize - cb) = bufsize - cb.
Proof.
  intros Hnt Hsz cb.
  destruct (asm_sizes nt bufsize Hnt Hsz) as (k & Hk & Eb & Ec & Hle & _).
  fold cb in Ec.
  assert (H8 : 8 * (bufsize / 8) <= bufsize) by mlia.
  assert (Hcb : 0 <= cb <= 8 * (bufsize / 8)) by nia.
  split; [exact Hcb |]. split.
  - rewrite Ec.
    replace (Z.max 0 (num_threads nt) * (8 * k))
      with (Z.max 0 (num_threads nt) * k * 8) by lia.
    apply Z.mod_mul. lia.
  - unfold to_size_t. apply to_ulong_id. lia.
Qed.

Lemma asm_events_perm nt t buffer bufsize :
  - 2 ^ 31 <= nt < 2 ^ 31 -> 0 <= bufsize < 2 ^ 64 ->
  valid_team (num_threads nt) t ->
  let cb := asm_chunked_bufsize (num_threads nt) bufsize in
  exists tc,
    Permutation tc (chunk_events 8 buffer (zrange 0 (cb / 8))) /\
    asm_events nt t buffer bufsize
    = tc ++ naive_events (buffer + cb) (bufsize - cb).
Proof.
  intros Hnt Hsz Ht cb. unfold asm_events. fold cb.
  destruct (asm_leftover nt bufsize Hnt Hsz) as (_ & _ & El). fold cb in El.
  rewrite El. eexists. split; [| reflexivity].
  unfold cb. rewrite <- (asm_core_events nt buffer bufsize Hnt Hsz).
  apply Permutation_flat_map, valid_team_chunks, Ht.
Qed.

Lemma asm_events_in_buffer nt t buffer bufsize :
  - 2 ^ 31 <= nt < 2 ^ 31 -> 0 <= bufsize < 2 ^ 64 ->
  valid_team (num_threads nt) t ->
  Forall (in_buffer buffer bufsize) (asm_events nt t buffer bufsize).
Proof.
  intros Hnt Hsz Ht.
  destruct (asm_events_perm nt t buffer bufsize Hnt Hsz Ht) as (tc & Hp & ->).
  destruct (asm_leftover nt bufsize Hnt Hsz) as (Hcb & Hm & _).
  assert (H8 : 8 * (bufsize / 8) <= bufsize) by mlia.
  apply Forall_app. split.
  - apply Forall_forall. intros e He.
    apply (Permutation_in _ Hp) in He. revert e He. apply Forall_forall.
    rewrite <- (Z.add_0_r buffer) at 2.
    apply chunk_events_in_buffer; [lia |].
    intros i Hi. apply in_zrange in Hi. mlia.
  - apply naive_events_in_buffer; lia.
Qed.

Lemma count_bits_asm_chunked_empty buffer bufsize st :
  0 <= bufsize < 8 -> count_bits_asm_chunked buffer bufsize st = (0, st).
Proof.
  intros H. unfold count_bits_asm_chunked, chunk_size.
  rewrite Z.div_small by lia. reflexivity.
Qed.

Lemma harness_split_policy t buffer bufsize :
  0 <= bufsize -> valid_team (bufsize / 8) t ->
  split_policy (8 * (bufsize / 8)) buffer bufsize
    (harness_events t buffer bufsize).
Proof.
  intros Hsz Ht. exists (chunk_events 8 buffer (team_chunks t)). split.
  - replace (8 * (bufsize / 8) / 8) with (bufsize / 8)
      by (replace (8 * (bufsize / 8)) with (bufsize / 8 * 8) by lia;
          rewrite Z.div_mul; lia).
    apply Permutation_map, valid_team_chunks, Ht.
  - unfold harness_events. do 2 f_equal. mlia.
Qed.

(** ** Sequences of calls *)

(** A counting call returns a value and appends loads that depend on the
    memory and the table only. *)
Lemma counting_call_run m T c :
  counting_call c ->
  exists v evs, forall st, store_is m T st -> c st = (v, emit st evs).
Proof.
  intros Hc. destruct Hc as [buffer bufsize Hsz | f t buffer bufsize Hf Hsz
                            | nt t buffer bufsize Hsz | buffer bufsize Hsz].
  - do 2 eexists. intros st Hst.
    apply (count_bits_naive_run m T). exact Hst.
  - destruct (harness_variant_run f m T Hf) as (kv & _ & Hrun).
    do 2 eexists. intros st Hst. apply Hrun; assumption.
  - do 2 eexists. intros st Hst.
    apply (count_bits_asm_run m T). exact Hst.
  - do 2 eexists. intros st Hst.
    apply (count_bits_asm_chunked_run m T); assumption.
Qed.

Lemma run_calls_run m T calls :
  Forall counting_call calls ->
  exists vs evs,
    forall st, store_is m T st -> run_calls calls st = (vs, emit st evs).
Proof.
  induction 1 as [| c calls Hc Hcalls IH].
  - exists [], []. intros st _. cbn [run_calls]. unfold ret.
    rewrite emit_nil. reflexivity.
  - destruct (counting_call_run m T c Hc) as (v & evs & Hv).
    destruct IH as (vs & evs' & Hvs).
    exists (v :: vs), (evs ++ evs'). intros st Hst.
    cbn [run_calls]. unfold bind, ret.
    rewrite (Hv st Hst).
    rewrite (Hvs (emit st evs)) by (apply store_emit; exact Hst).
    rewrite emit_emit. reflexivity.
Qed.

Lemma run_calls_repeat m T c n st :
  counting_call c -> store_is m T st ->
  fst (run_calls (repeat c n) st) = repeat (fst (c st)) n.
Proof.
  intros Hc. destruct (counting_call_run m T c Hc) as (v & evs & Hv).
  revert st. induction n as [| n IH]; intros st Hst; [reflexivity |].
  cbn [repeat run_calls]. unfold bind, ret.
  rewrite (Hv st Hst). cbn [fst].
  specialize (IH (emit st evs) (store_emit m T st evs Hst)).
  rewrite (Hv (emit st evs)) in IH by (apply store_emit; exact Hst).
  cbn [fst] in IH.
  destruct (run_calls (repeat c n) (emit st evs)) as [rs st'].
  cbn [fst] in *. rewrite IH. reflexivity.
Qed.

(* ===================================================================== *)
(** * Concrete runs *)
(* ===================================================================== *)

Ltac team_ok := split; [discriminate | split; apply Permutation_refl].
Ltac zconst := vm_compute; first [split; congruence | congruence].

Example naive_sample : fst (count_bits_naive 3 21 sample_state) = 86.
Proof. vm_compute. reflexivity. Qed.

Example table_sample :
  fst (count_bits_table (contiguous_team [1; 1]) 3 21 sample_state) = 86.
Proof. vm_compute. reflexivity. Qed.

Example table_before_init :
  fst (count_bits_table (contiguous_team [1; 1]) 3 21 boot_state) = 22.
Proof. vm_compute. reflexivity. Qed.

Example asm_sample :
  fst (count_bits_asm 2 (contiguous_team [1; 1]) 3 21 sample_state) = 86.
Proof. vm_compute. reflexivity. Qed.

Example boundary_lengths :
  map (fun len => (fst (count_bits_naive 3 len sample_state),
                   fst (count_bits_table (contiguous_team [len / 8]) 3 len sample_state),
                   fst (count_bits_asm 1 (contiguous_team [1]) 3 len sample_state)))
      [0; 1; 8; 21]
  = [(0, 0, 0); (5, 5, 5); (35, 35, 35); (86, 86, 86)].
Proof. vm_compute. reflexivity. Qed.

Example known_vector_byte :
  popcount 177 = 4 /\ fst (kernighan_kernel 177 boot_state) = 4
  /\ fst (sidewaysaddition_kernel 177 boot_state) = 4.
Proof. vm_compute. auto. Qed.

(* ===================================================================== *)
(** * The claims *)
(* ===================================================================== *)

(** C1 - cross-kernel equivalence.  Once [init_lookup_table] has run, for
    every buffer of every length and every team that shares out the chunks
    (the cores, for [count_bits_asm]), each of [count_bits_table],
    [count_bits_kernighan], [count_bits_sidewaysaddition],
    [count_bits_intrinsic], [count_bits_intrinsic_double], [count_bits_asm]
    and [count_bits_optimized] returns the total of [count_bits_naive]. *)
Theorem variants_agree_with_naive :
  forall st0 st t nt ta buffer bufsize,
    lookup_table st = lookup_table (snd (init_lookup_table st0)) ->
    0 <= bufsize < 2 ^ 64 ->
    valid_team (bufsize / chunk_size) t ->
    - 2 ^ 31 <= nt < 2 ^ 31 ->
    valid_team (num_threads nt) ta ->
    let naive := fst (count_bits_naive buffer bufsize st) in
    fst (count_bits_table t buffer bufsize st) = naive /\
    fst (count_bits_kernighan t buffer bufsize st) = naive /\
    fst (count_bits_sidewaysaddition t buffer bufsize st) = naive /\
    fst (count_bits_intrinsic t buffer bufsize st) = naive /\
    fst (count_bits_intrinsic_double t buffer bufsize st) = naive /\
    fst (count_bits_asm nt ta buffer bufsize st) = naive /\
    fst (count_bits_optimized t buffer bufsize st) = naive.
Proof.
  intros st0 st t nt ta buffer bufsize HT Hsz Ht Hnt Hta naive.
  assert (Hready : table_ready (lookup_table st)).
  { rewrite HT. apply init_lookup_table_run. }
  pose proof (store_is_self st) as Hst.
  assert (Hn : naive = to_long (bits_in (mem st) buffer bufsize)).
  { unfold naive.
    rewrite (count_bits_naive_run (mem st) (lookup_table st)) by exact Hst.
    reflexivity. }
  rewrite Hn.
  assert (Hv : forall f, In f harness_variants ->
                 fst (f t buffer bufsize st)
                 = to_long (bits_in (mem st) buffer bufsize)).
  { intros f Hf.
    apply (variant_value_correct (mem st) (lookup_table st) f Hf);
      assumption. }
  repeat split;
    try (apply Hv; cbn [harness_variants In]; tauto).
  apply (count_bits_asm_correct (mem st) (lookup_table st)); assumption.
Qed.

Lemma variants_agree_with_naive_witness :
  lookup_table sample_state = lookup_table (snd (init_lookup_table boot_state))
  /\ 0 <= 21 < 2 ^ 64
  /\ valid_team (21 / chunk_size) (contiguous_team [1; 1])
  /\ - 2 ^ 31 <= 2 < 2 ^ 31
  /\ valid_team (num_threads 2) (contiguous_team [1; 1])
  /\ fst (count_bits_table (contiguous_team [1; 1]) 3 21 sample_state)
     = fst (count_bits_naive 3 21 sample_state)
  /\ fst (count_bits_kernighan (contiguous_team [1; 1]) 3 21 sample_state)
     = fst (count_bits_naive 3 21 sample_state)
  /\ fst (count_bits_sidewaysaddition (contiguous_team [1; 1]) 3 21 sample_state)
     = fst (count_bits_naive 3 21 sample_state)
  /\ fst (count_bits_intrinsic (contiguous_team [1; 1]) 3 21 sample_state)
     = fst (count_bits_naive 3 21 sample_state)
  /\ fst (count_bits_intrinsic_double (contiguous_team [1; 1]) 3 21 sample_state)
     = fst (count_bits_naive 3 21 sample_state)
  /\ fst (count_bits_asm 2 (contiguous_team [1; 1]) 3 21 sample_state)
     = fst (count_bits_naive 3 21 sample_state)
  /\ fst (count_bits_optimized (contiguous_team [1; 1]) 3 21 sample_state)
     = fst (count_bits_naive 3 21 sample_state).
Proof.
  assert (H1 : lookup_table sample_state
               = lookup_table (snd (init_lookup_table boot_state)))
    by reflexivity.
  assert (H2 : 0 <= 21 < 2 ^ 64) by zconst.
  assert (H3 : valid_team (21 / chunk_size) (contiguous_team [1; 1]))
    by team_ok.
  assert (H4 : - 2 ^ 31 <= 2 < 2 ^ 31) by zconst.
  assert (H5 : valid_team (num_threads 2) (contiguous_team [1; 1]))
    by team_ok.
  pose proof (variants_agree_with_naive boot_state sample_state
                (contiguous_team [1; 1]) 2 (contiguous_team [1; 1]) 3 21
                H1 H2 H3 H4 H5) as H.
  cbv zeta in H.
  split; [exact H1 |]. split; [exact H2 |]. split; [exact H3 |].
  split; [exact H4 |]. split; [exact H5 |]. exact H.
Defined.

(** C5 - [kernighan_kernel].  For every 64-bit chunk, also with the top
    bit set, the loop ends: after exactly [popcount chunk] turns of
    [total++; chunk &= chunk - 1] the chunk is zero, it is not zero before,
    and the kernel returns [popcount chunk].  Each turn on a non-zero
    [long] clears the lowest set bit of the word and nothing else, so the
    number of set bits goes down by one. *)
Theorem kernighan_kernel_counts_set_bits :
  forall c st,
    0 <= c < 2 ^ 64 ->
    let n := Z.to_nat (popcount c) in
    kernighan_kernel c st = (popcount c, st) /\
    Nat.iter n kernighan_body (to_long c, 0) = (0, popcount c) /\
    (forall k, (k < n)%nat ->
       fst (Nat.iter k kernighan_body (to_long c, 0)) <> 0) /\
    (forall chunk total,
       chunk = to_long chunk -> chunk <> 0 ->
       let chunk' := fst (kernighan_body (chunk, total)) in
       exists j,
         0 <= j < 64 /\
         Z.testbit (to_ulong chunk) j = true /\
         (forall i, 0 <= i < j -> Z.testbit (to_ulong chunk) i = false) /\
         to_ulong chunk' = to_ulong chunk - 2 ^ j /\
         popcount (to_ulong chunk') = popcount (to_ulong chunk) - 1).
Proof.
  intros c st Hc n.
  pose proof (popcount64_bound c Hc) as Hb.
  assert (Hiter : forall k, (k <= n)%nat ->
            exists chunk,
              Nat.iter k kernighan_body (to_long c, 0) = (chunk, Z.of_nat k) /\
              chunk = to_long chunk /\
              popcount (to_ulong chunk) = popcount c - Z.of_nat k).
  { induction k as [| k IH]; intros Hk.
    - exists (to_long c). cbn [Nat.iter].
      rewrite to_long_idem, to_ulong_to_long, to_ulong_id by exact Hc.
      repeat split; try reflexivity. cbn. lia.
    - destruct (IH ltac:(lia)) as (chunk & Ei & Hr & Hp).
      exists (fst (kernighan_body (chunk, Z.of_nat k))).
      assert (Hnz : chunk <> 0).
      { intros ->. cbn in Hp. unfold n in Hk. lia. }
      rewrite Nat.iter_succ, Ei. split; [| split].
      + cbn [kernighan_body fst]. f_equal.
        rewrite Nat2Z.inj_succ. apply to_long_id. unfold n in Hk. lia.
      + cbn [kernighan_body fst]. symmetry. apply to_long_idem.
      + rewrite kernighan_body_popcount by assumption. lia. }
  split; [| split; [| split]].
  - unfold kernighan_kernel, ret. rewrite kernighan_kernel_value by exact Hc.
    reflexivity.
  - destruct (Hiter n (le_n n)) as (chunk & Ei & Hr & Hp).
    rewrite Ei. unfold n in *. rewrite Z2Nat.id in * by lia.
    f_equal. rewrite Hr, <- to_long_to_ulong.
    assert (Hz : to_ulong chunk = 0).
    { pose proof (to_ulong_range chunk) as Hu.
      destruct (to_ulong chunk) as [| p | p]; [reflexivity | | lia].
      exfalso. cbn [popcount] in Hp.
      assert (0 < pos_popcount p) by (clear; induction p; cbn [pos_popcount]; lia).
      lia. }
    rewrite Hz. reflexivity.
  - intros k Hk. destruct (Hiter k ltac:(lia)) as (chunk & Ei & Hr & Hp).
    rewrite Ei. cbn [fst]. intros ->. cbn in Hp. unfold n in Hk. lia.
  - intros chunk total Hr Hnz chunk'.
    assert (Hu : to_ulong chunk <> 0).
    { intros E. apply Hnz. rewrite Hr, <- to_long_to_ulong, E. reflexivity. }
    pose proof (to_ulong_range chunk) as Hrange.
    destruct (land_pred_lowest (to_ulong chunk) ltac:(lia))
      as (j & Hj & Hbit & Hlow & Hland).
    exists j.
    assert (Hj64 : j < 64).
    { destruct (Z.ltb_spec j 64) as [H | H]; [exact H |].
      rewrite (testbit_small (to_ulong chunk) 64 j) in Hbit by lia.
      discriminate. }
    assert (E : to_ulong chunk' = Z.land (to_ulong chunk) (to_ulong chunk - 1)).
    { unfold chunk'. cbn [kernighan_body fst].
      rewrite to_ulong_to_long, to_ulong_land, to_ulong_to_long,
        to_ulong_pred by exact Hu.
      reflexivity. }
    split; [lia |]. split; [exact Hbit |]. split; [exact Hlow |].
    split.
    + rewrite E. exact Hland.
    + unfold chunk'. apply kernighan_body_popcount; assumption.
Qed.

Lemma kernighan_kernel_counts_set_bits_witness :
  0 <= 2 ^ 63 + 5 < 2 ^ 64 /\
  kernighan_kernel (2 ^ 63 + 5) boot_state = (3, boot_state) /\
  Nat.iter 3 kernighan_body (to_long (2 ^ 63 + 5), 0) = (0, 3).
Proof.
  assert (H : 0 <= 2 ^ 63 + 5 < 2 ^ 64) by zconst.
  pose proof (kernighan_kernel_counts_set_bits (2 ^ 63 + 5) boot_state H) as K.
  cbv zeta in K. destruct K as (K1 & K2 & _).
  split; [exact H |]. split; [exact K1 | exact K2].
Defined.

(** C10 - [sidewaysaddition_kernel].  The kernel works on a [long] copy of
    the chunk with arithmetic right shifts.  For every [long] the masks
    [B1], [B2] and [B3] clear every sign-extension bit: the masked
    arithmetic shifts, and the masked sum of [_CBITSc], equal what the
    logical shifts of the unsigned word give.  For every 64-bit input,
    with the top bit set or not, the kernel returns its population
    count. *)
Theorem sidewaysaddition_kernel_exact :
  forall c st,
    0 <= c < 2 ^ 64 ->
    sidewaysaddition_kernel c st = (popcount c, st) /\
    (forall val,
       Z.land (to_ulong (Z.shiftr val 1)) B1
       = Z.land (Z.shiftr (to_ulong val) 1) B1 /\
       Z.land (to_ulong (Z.shiftr val 2)) B2
       = Z.land (Z.shiftr (to_ulong val) 2) B2 /\
       Z.land (to_ulong (to_long (val + Z.shiftr val 4))) B3
       = Z.land (to_ulong val + Z.shiftr (to_ulong val) 4) B3).
Proof.
  intros c st Hc. split.
  - unfold sidewaysaddition_kernel, ret.
    rewrite sidewaysaddition_value by exact Hc. reflexivity.
  - intros val. split; [| split].
    + apply land_asr_mask; zconst.
    + apply land_asr_mask; zconst.
    + apply land_asr_sum_mask; zconst.
Qed.

Lemma sidewaysaddition_kernel_exact_witness :
  0 <= 2 ^ 64 - 1 < 2 ^ 64 /\
  sidewaysaddition_kernel (2 ^ 64 - 1) boot_state = (64, boot_state).
Proof.
  assert (H : 0 <= 2 ^ 64 - 1 < 2 ^ 64) by zconst.
  split; [exact H |].
  exact (proj1 (sidewaysaddition_kernel_exact (2 ^ 64 - 1) boot_state H)).
Defined.

(** C6 - thread-count invariance.  For every buffer, the total of each
    parallel counting function is the same for any two teams, of any
    sizes, that share out the chunks (for [count_bits_asm]: for any two
    numbers of cores and any two teams that share out the cores): the
    partial sums of the threads are [long]s combined by addition. *)
Theorem total_independent_of_team :
  forall st t1 t2 nt1 ta1 nt2 ta2 buffer bufsize,
    0 <= bufsize < 2 ^ 64 ->
    valid_team (bufsize / chunk_size) t1 ->
    valid_team (bufsize / chunk_size) t2 ->
    - 2 ^ 31 <= nt1 < 2 ^ 31 -> valid_team (num_threads nt1) ta1 ->
    - 2 ^ 31 <= nt2 < 2 ^ 31 -> valid_team (num_threads nt2) ta2 ->
    (forall f, In f harness_variants ->
       fst (f t1 buffer bufsize st) = fst (f t2 buffer bufsize st)) /\
    fst (count_bits_asm nt1 ta1 buffer bufsize st)
    = fst (count_bits_asm nt2 ta2 buffer bufsize st) /\
    (forall lens f,
       lens <> [] -> Forall (fun n => 0 <= n) lens ->
       sumZ lens = bufsize / chunk_size ->
       In f harness_variants ->
       fst (f (contiguous_team lens) buffer bufsize st)
       = fst (f t1 buffer bufsize st)).
Proof.
  intros st t1 t2 nt1 ta1 nt2 ta2 buffer bufsize Hsz Ht1 Ht2 Hn1 Ha1 Hn2 Ha2.
  pose proof (store_is_self st) as Hst.
  assert (Hteams : forall f ta tb,
            In f harness_variants ->
            valid_team (bufsize / chunk_size) ta ->
            valid_team (bufsize / chunk_size) tb ->
            fst (f ta buffer bufsize st) = fst (f tb buffer bufsize st)).
  { intros f ta tb Hf Hta Htb.
    apply (variant_value_team (mem st) (lookup_table st) f Hf);
      try assumption.
    rewrite (valid_team_chunks _ _ Hta).
    symmetry. apply (valid_team_chunks _ _ Htb). }
  split; [| split].
  - intros f Hf. apply Hteams; assumption.
  - rewrite !(count_bits_asm_correct (mem st) (lookup_table st))
      by assumption.
    reflexivity.
  - intros lens f Hne Hpos Hsum Hf. apply Hteams; try assumption.
    rewrite <- Hsum. apply contiguous_team_valid; assumption.
Qed.

Lemma total_independent_of_team_witness :
  0 <= 37 < 2 ^ 64 /\
  valid_team (37 / chunk_size) (contiguous_team [4]) /\
  valid_team (37 / chunk_size) (contiguous_team [1; 2; 1]) /\
  - 2 ^ 31 <= 1 < 2 ^ 31 /\ valid_team (num_threads 1) (contiguous_team [1]) /\
  - 2 ^ 31 <= 3 < 2 ^ 31 /\ valid_team (num_threads 3) (contiguous_team [2; 1]) /\
  fst (count_bits_kernighan (contiguous_team [4]) 3 37 sample_state)
  = fst (count_bits_kernighan (contiguous_team [1; 2; 1]) 3 37 sample_state) /\
  fst (count_bits_asm 1 (contiguous_team [1]) 3 37 sample_state)
  = fst (count_bits_asm 3 (contiguous_team [2; 1]) 3 37 sample_state).
Proof.
  assert (H1 : 0 <= 37 < 2 ^ 64) by zconst.
  assert (H2 : valid_team (37 / chunk_size) (contiguous_team [4])) by team_ok.
  assert (H3 : valid_team (37 / chunk_size) (contiguous_team [1; 2; 1]))
    by team_ok.
  assert (H4 : - 2 ^ 31 <= 1 < 2 ^ 31) by zconst.
  assert (H5 : valid_team (num_threads 1) (contiguous_team [1])) by team_ok.
  assert (H6 : - 2 ^ 31 <= 3 < 2 ^ 31) by zconst.
  assert (H7 : valid_team (num_threads 3) (contiguous_team [2; 1])) by team_ok.
  destruct (total_independent_of_team sample_state _ _ _ _ _ _ 3 37
              H1 H2 H3 H4 H5 H6 H7) as (Hh & Ha & _).
  split; [exact H1 |]. split; [exact H2 |]. split; [exact H3 |].
  split; [exact H4 |]. split; [exact H5 |]. split; [exact H6 |].
  split; [exact H7 |]. split; [| exact Ha].
  apply Hh. cbn [harness_variants In]. tauto.
Defined.

Lemma leaves_buffer_intro (c : M Z) m T st v evs :
  store_is m T st ->
  (forall st', store_is m T st' -> c st' = (v, emit st' evs)) ->
  leaves_buffer c st.
Proof.
  intros Hst Hc. unfold leaves_buffer.
  rewrite (Hc st Hst). cbn [fst snd].
  rewrite (Hc (emit st evs)) by (apply store_emit; exact Hst).
  destruct Hst as [Hm _]. split; [reflexivity | reflexivity].
Qed.

(** C7 - the buffer is read-only.  After [count_bits_naive], any of the
    six harness variants, [count_bits_asm] or [count_bits_asm_chunked] has
    run, with any team, the memory is what it was before the call, and
    the same call made again returns the same total; the kernels leave
    the whole state as it was.  The same holds along any sequence of
    counting calls, and a call repeated [n] times returns the same total
    [n] times. *)
Theorem counting_leaves_buffer_unchanged :
  forall st t nt ta buffer bufsize,
    0 <= bufsize < 2 ^ 64 ->
    leaves_buffer (count_bits_naive buffer bufsize) st /\
    (forall f, In f harness_variants ->
       leaves_buffer (f t buffer bufsize) st) /\
    leaves_buffer (count_bits_asm nt ta buffer bufsize) st /\
    leaves_buffer (count_bits_asm_chunked buffer bufsize) st /\
    (forall c, snd (table_kernel c st) = st /\
               snd (kernighan_kernel c st) = st /\
               snd (sidewaysaddition_kernel c st) = st /\
               snd (intrinsic_kernel c st) = st /\
               snd (intrinsic_kernel_double c st) = st) /\
    (forall calls, Forall counting_call calls ->
       mem (snd (run_calls calls st)) = mem st) /\
    (forall c n, counting_call c ->
       fst (run_calls (repeat c n) st) = repeat (fst (c st)) n).
Proof.
  intros st t nt ta buffer bufsize Hsz.
  pose proof (store_is_self st) as Hst.
  split; [| split; [| split; [| split; [| split; [| split]]]]].
  - eapply (leaves_buffer_intro _ (mem st) (lookup_table st)); [exact Hst |].
    intros st' Hst'.
    apply (count_bits_naive_run (mem st) (lookup_table st)). exact Hst'.
  - intros f Hf.
    destruct (harness_variant_run f (mem st) (lookup_table st) Hf)
      as (kv & _ & Hrun).
    eapply (leaves_buffer_intro _ (mem st) (lookup_table st)); [exact Hst |].
    intros st' Hst'. apply Hrun; assumption.
  - eapply (leaves_buffer_intro _ (mem st) (lookup_table st)); [exact Hst |].
    intros st' Hst'.
    apply (count_bits_asm_run (mem st) (lookup_table st)). exact Hst'.
  - eapply (leaves_buffer_intro _ (mem st) (lookup_table st)); [exact Hst |].
    intros st' Hst'.
    apply (count_bits_asm_chunked_run (mem st) (lookup_table st)); assumption.
  - intros c. split; [| repeat split].
    rewrite (table_kernel_pure (lookup_table st) c st eq_refl). reflexivity.
  - intros calls Hcalls.
    destruct (run_calls_run (mem st) (lookup_table st) calls Hcalls)
      as (vs & evs & Hrun).
    rewrite (Hrun st Hst). reflexivity.
  - intros c n Hc.
    apply (run_calls_repeat (mem st) (lookup_table st)); assumption.
Qed.

Lemma counting_leaves_buffer_unchanged_witness :
  0 <= 21 < 2 ^ 64 /\
  leaves_buffer (count_bits_asm 2 (contiguous_team [1; 1]) 3 21) sample_state /\
  leaves_buffer (count_bits_sidewaysaddition (contiguous_team [2]) 3 21)
    sample_state.
Proof.
  assert (H1 : 0 <= 21 < 2 ^ 64) by zconst.
  destruct (counting_leaves_buffer_unchanged sample_state
              (contiguous_team [2]) 2 (contiguous_team [1; 1]) 3 21 H1)
    as (_ & Hh & Ha & _).
  split; [exact H1 |]. split; [exact Ha |].
  apply Hh. cbn [harness_variants In]. tauto.
Defined.

Lemma filter_none {A} (f : A -> bool) l :
  (forall x, In x l -> f x = false) ->
  filter f l = [] /\ filter (fun x => negb (f x)) l = l.
Proof.
  intros H. induction l as [| x l IH]; [split; reflexivity |].
  cbn [filter]. rewrite (H x (or_introl eq_refl)). cbn [negb].
  destruct IH as [E1 E2]; [intros; apply H; right; assumption |].
  rewrite E1, E2. split; reflexivity.
Qed.

Lemma valid_team_thread_ids n t th :
  valid_team n t -> In th t -> 0 <= fst th < team_size t.
Proof.
  intros (_ & Hp & _) Hth. apply in_zrange.
  apply (Permutation_in _ Hp). apply in_map. exact Hth.
Qed.

(** C4 - the lookup table.  When [init_lookup_table] has run, for every
    byte value [i] in 0..255 the entry [lookup_table[i]] is the number of
    set bits of [i], which is what [count_bits_naive] returns on a one-byte
    buffer holding [i]; the call changes nothing but the table.  After
    that the table is only read: [table_kernel] leaves the whole state as
    it is, and every counting function, and every sequence of counting
    calls, leaves the table as it is. *)
Theorem lookup_table_holds_bit_counts :
  forall st0,
    let st := snd (init_lookup_table st0) in
    (forall i, 0 <= i < 256 ->
       lookup_table st i = popcount i /\
       forall s a, u8 (mem s a) = i ->
                   lookup_table st i = fst (count_bits_naive a 1 s)) /\
    mem st = mem st0 /\ trace st = trace st0 /\
    (forall c s, snd (table_kernel c s) = s) /\
    (forall s t nt ta buffer bufsize,
       0 <= bufsize < 2 ^ 64 ->
       lookup_table (snd (count_bits_naive buffer bufsize s)) = lookup_table s /\
       (forall f, In f harness_variants ->
          lookup_table (snd (f t buffer bufsize s)) = lookup_table s) /\
       lookup_table (snd (count_bits_asm nt ta buffer bufsize s))
       = lookup_table s) /\
    (forall calls s, Forall counting_call calls ->
       lookup_table (snd (run_calls calls s)) = lookup_table s).
Proof.
  intros st0 st.
  destruct (init_lookup_table_run st0) as (Hm & Ht & Hready & _).
  fold st in Hm, Ht, Hready.
  split; [| split; [exact Hm | split; [exact Ht | split; [| split]]]].
  - intros i Hi. split; [apply Hready; exact Hi |].
    intros s a Ha. rewrite (Hready i Hi).
    rewrite (count_bits_naive_run (mem s) (lookup_table s))
      by apply store_is_self.
    cbn [fst]. unfold bits_in.
    change (zrange 0 1) with [0]. cbn [map sumZ fold_right].
    rewrite !Z.add_0_r, Ha. symmetry. apply to_long_id.
    pose proof (byte_popcount_range i Hi). lia.
  - intros c s.
    rewrite (table_kernel_pure (lookup_table s) c s eq_refl). reflexivity.
  - intros s t nt ta buffer bufsize Hsz.
    pose proof (store_is_self s) as Hs.
    split; [| split].
    + rewrite (count_bits_naive_run (mem s) (lookup_table s)) by exact Hs.
      reflexivity.
    + intros f Hf.
      rewrite (variant_state (mem s) (lookup_table s) f Hf) by assumption.
      reflexivity.
    + rewrite (asm_state (mem s) (lookup_table s)) by exact Hs. reflexivity.
  - intros calls s Hcalls.
    destruct (run_calls_run (mem s) (lookup_table s) calls Hcalls)
      as (vs & evs & Hrun).
    rewrite (Hrun s (store_is_self s)). reflexivity.
Qed.

Lemma lookup_table_holds_bit_counts_witness :
  0 <= 177 < 256 /\
  lookup_table sample_state 177 = popcount 177 /\
  0 <= 21 < 2 ^ 64 /\
  lookup_table
    (snd (count_bits_table (contiguous_team [1; 1]) 3 21 sample_state))
  = lookup_table sample_state.
Proof.
  assert (H1 : 0 <= 177 < 256) by zconst.
  assert (H2 : 0 <= 21 < 2 ^ 64) by zconst.
  destruct (lookup_table_holds_bit_counts boot_state)
    as (Hi & _ & _ & _ & Hf & _).
  split; [exact H1 |]. split; [exact (proj1 (Hi 177 H1)) |].
  split; [exact H2 |].
  destruct (Hf sample_state (contiguous_team [1; 1]) 1 (contiguous_team [1])
              3 21 H2) as (_ & Hv & _).
  apply Hv. cbn [harness_variants In]. tauto.
Defined.

(* ===================================================================== *)
(** * Further properties of the counting functions *)
(* ===================================================================== *)

Lemma to_long_to_ulong_mod z : to_long (z mod 2 ^ 64) = to_long z.
Proof. apply to_long_to_ulong. Qed.

Lemma bind_run {A B} (c : M A) (k : A -> M B) st :
  bind c k st = k (fst (c st)) (snd (c st)).
Proof. unfold bind. destruct (c st). reflexivity. Qed.

Lemma bind_assoc {A B C} (c : M A) (k : A -> M B) (k' : B -> M C) st :
  bind (bind c k) k' st = bind c (fun a => bind (k a) k') st.
Proof. unfold bind. destruct (c st). reflexivity. Qed.

Lemma ret_run {A} (a : A) st : ret a st = (a, st).
Proof. reflexivity. Qed.

Lemma bind_ret {A B} (a : A) (k : A -> M B) st : bind (ret a) k st = k a st.
Proof. reflexivity. Qed.

Lemma popcount_zero z : 0 <= z -> (popcount z = 0 <-> z = 0).
Proof.
  intros Hz. destruct z as [| p | p]; [tauto | | lia].
  split; [| discriminate]. cbn [popcount]. intros E. exfalso.
  assert (H : forall q, 1 <= pos_popcount q).
  { induction q; cbn [pos_popcount]; lia. }
  specialize (H p). lia.
Qed.

Lemma bits_in_one m p : bits_in m p 1 = popcount (u8 (m p)).
Proof.
  unfold bits_in. change (zrange 0 1) with [0].
  cbn [map]. rewrite sumZ_cons, !Z.add_0_r. reflexivity.
Qed.

Lemma bits_in_succ m p n :
  0 <= n -> bits_in m p (n + 1) = bits_in m p n + popcount (u8 (m (p + n))).
Proof.
  intros Hn. rewrite bits_in_split by lia. rewrite bits_in_one. reflexivity.
Qed.

Lemma bits_in_nil m p n : n <= 0 -> bits_in m p n = 0.
Proof. intros Hn. unfold bits_in. rewrite zrange_nil by lia. reflexivity. Qed.

(** The bytes of the object representation of [number], read as a
    little-endian numeral, are [number] modulo [2 ^ (8 * size)]. *)
Lemma bits_in_object_repr number size :
  0 <= size ->
  bits_in (object_repr number) 0 size = popcount (number mod 2 ^ (8 * size)).
Proof.
  intros Hs. pattern size. apply natlike_ind; [| | exact Hs].
  - rewrite bits_in_nil by lia. rewrite Z.mul_0_r, Z.pow_0_r, Z.mod_1_r.
    reflexivity.
  - intros n Hn IH. unfold Z.succ. rewrite bits_in_succ by exact Hn.
    rewrite IH. unfold object_repr. rewrite uchar_of_u8, Z.add_0_l.
    rewrite Z.shiftr_div_pow2 by lia.
    replace (8 * (n + 1)) with (8 * n + 8) by ring.
    rewrite Z.pow_add_r by lia.
    rewrite Z.rem_mul_r by lia.
    change (2 ^ 8) with 256.
    assert (Hp : 0 < 2 ^ (8 * n)) by (apply Z.pow_pos_nonneg; lia).
    pose proof (Z.mod_pos_bound number (2 ^ (8 * n)) Hp) as Ha.
    pose proof (Z.mod_pos_bound (number / 2 ^ (8 * n)) 256 ltac:(lia)) as Hy.
    replace (8 * n) with (Z.of_nat (Z.to_nat (8 * n))) in * by lia.
    rewrite (popcount_block (Z.to_nat (8 * n))) by lia.
    reflexivity.
Qed.

Lemma u8_zero (x : uchar) : u8 x = 0 <-> x = Byte.x00.
Proof.
  split; [| intros ->; reflexivity].
  destruct x; vm_compute; first [reflexivity | discriminate].
Qed.

Lemma byte_full (x : uchar) : popcount (u8 x) = 8 <-> x = Byte.xff.
Proof.
  split; [| intros ->; reflexivity].
  destruct x; vm_compute; first [reflexivity | discriminate].
Qed.

Lemma byte_popcount_le (x : uchar) : 0 <= popcount (u8 x) <= 8.
Proof. apply byte_popcount_range, u8_range. Qed.

(** The extremes of a bit count. *)
Lemma bits_in_extremes m p len :
  0 <= len ->
  (bits_in m p len = 0 <-> forall k, 0 <= k < len -> m (p + k) = Byte.x00) /\
  (bits_in m p len = 8 * len
   <-> forall k, 0 <= k < len -> m (p + k) = Byte.xff).
Proof.
  intros Hl. pattern len. apply natlike_ind; [| | exact Hl].
  - rewrite bits_in_nil by lia. split; (split; [intros _ k Hk; lia | reflexivity]).
  - intros n Hn [IH0 IH1]. unfold Z.succ. rewrite bits_in_succ by exact Hn.
    pose proof (bits_in_range m p n) as Hr. rewrite Z.max_r in Hr by lia.
    pose proof (byte_popcount_le (m (p + n))) as Hb.
    split; split.
    + intros E k Hk. destruct (Z.eq_dec k n) as [-> | Hne].
      * apply u8_zero, popcount_zero; [apply u8_range | lia].
      * apply (proj1 IH0); lia.
    + intros H.
      assert (E0 : bits_in m p n = 0) by (apply IH0; intros k Hk; apply H; lia).
      rewrite E0, (H n) by lia. reflexivity.
    + intros E k Hk. destruct (Z.eq_dec k n) as [-> | Hne].
      * apply byte_full. lia.
      * apply (proj1 IH1); lia.
    + intros H.
      assert (E1 : bits_in m p n = 8 * n) by (apply IH1; intros k Hk; apply H; lia).
      rewrite E1, (H n) by lia. change (popcount (u8 Byte.xff)) with 8. ring.
Qed.

Lemma naive_events_app buffer a b :
  0 <= a -> 0 <= b ->
  naive_events buffer (a + b)
  = naive_events buffer a ++ naive_events (buffer + a) b.
Proof.
  intros Ha Hb. unfold naive_events.
  rewrite (zrange_app 0 a (a + b)) by lia.
  rewrite flat_map_app. f_equal.
  replace (zrange a (a + b)) with (zrange (0 + a) (b + a))
    by (f_equal; lia).
  rewrite zrange_shift, flat_map_concat_map, map_map, <- flat_map_concat_map.
  apply flat_map_ext. intros byte.
  apply map_ext. intros _. f_equal. ring.
Qed.

Lemma naive_loads m T buffer bufsize st :
  store_is m T st ->
  loads (count_bits_naive buffer bufsize) st = naive_events buffer bufsize.
Proof.
  intros Hst. apply loads_emit.
  rewrite (count_bits_naive_run m T) by exact Hst. reflexivity.
Qed.

(** X1 - [count_bits<number_type>].  For a number stored in [size]
    bytes, [count_bits] returns the number of one bits of its object
    representation, that is of [number] modulo [2 ^ (8 * size)]: a
    negative number counts the one bits of its two's-complement form.
    The result lies between 0 and [8 * size], and the memory, the lookup
    table and the log of the caller are left as they were. *)
Theorem count_bits_object_representation :
  forall size number st,
    0 <= size < 2 ^ 60 ->
    count_bits size number st = (popcount (number mod 2 ^ (8 * size)), st) /\
    0 <= popcount (number mod 2 ^ (8 * size)) <= 8 * size.
Proof.
  intros size number st Hs.
  pose proof (bits_in_object_repr number size ltac:(lia)) as E.
  pose proof (bits_in_range (object_repr number) 0 size) as Hr.
  rewrite Z.max_r in Hr by lia. rewrite E in Hr.
  split; [| exact Hr].
  unfold count_bits. f_equal.
  rewrite (count_bits_naive_correct (object_repr number) (lookup_table st))
    by (split; reflexivity).
  rewrite E. apply to_long_id. lia.
Qed.

Lemma count_bits_object_representation_witness :
  0 <= 4 < 2 ^ 60 /\
  count_bits 4 (-1) boot_state = (popcount ((-1) mod 2 ^ (8 * 4)), boot_state) /\
  popcount ((-1) mod 2 ^ (8 * 4)) = 32.
Proof.
  assert (H : 0 <= 4 < 2 ^ 60) by (vm_compute; split; congruence).
  split; [exact H |].
  split; [exact (proj1 (count_bits_object_representation 4 (-1) boot_state H)) |].
  reflexivity.
Defined.

(** X2 - [count_bits_naive] on adjacent ranges.  Counting [a + b] bytes
    from [buffer] is counting the first [a] bytes and then the [b] bytes
    from [buffer + a]: the totals add up (as [long]s) and the loads are
    those of the first call followed by those of the second. *)
Theorem count_bits_naive_adjacent :
  forall st buffer a b,
    0 <= a -> 0 <= b ->
    fst (count_bits_naive buffer (a + b) st)
    = to_long (fst (count_bits_naive buffer a st)
               + fst (count_bits_naive (buffer + a) b st)) /\
    loads (count_bits_naive buffer (a + b)) st
    = loads (count_bits_naive buffer a) st
      ++ loads (count_bits_naive (buffer + a) b) st.
Proof.
  intros st buffer a b Ha Hb.
  pose proof (store_is_self st) as Hst.
  split.
  - rewrite !(count_bits_naive_correct (mem st) (lookup_table st)) by exact Hst.
    rewrite to_long_add_l, to_long_add_r, bits_in_split by lia. reflexivity.
  - rewrite !(naive_loads (mem st) (lookup_table st)) by exact Hst.
    apply naive_events_app; assumption.
Qed.

Lemma count_bits_naive_adjacent_witness :
  0 <= 8 /\ 0 <= 13 /\
  fst (count_bits_naive 3 (8 + 13) sample_state)
  = to_long (fst (count_bits_naive 3 8 sample_state)
             + fst (count_bits_naive (3 + 8) 13 sample_state)).
Proof.
  assert (H1 : 0 <= 8) by lia. assert (H2 : 0 <= 13) by lia.
  split; [exact H1 |]. split; [exact H2 |].
  exact (proj1 (count_bits_naive_adjacent sample_state 3 8 13 H1 H2)).
Defined.

(** X3 - the range of [count_bits_naive].  For a buffer of fewer than
    [2 ^ 60] bytes the [long] it returns is the exact number of set bits
    of the buffer (the counter does not wrap around); it lies between 0
    and [8 * bufsize], it is 0 exactly when every byte of the buffer is
    0, and [8 * bufsize] exactly when every byte is 255. *)
Theorem count_bits_naive_exact :
  forall st buffer bufsize,
    0 <= bufsize < 2 ^ 60 ->
    let r := fst (count_bits_naive buffer bufsize st) in
    r = bits_in (mem st) buffer bufsize /\
    0 <= r <= 8 * bufsize /\
    (r = 0 <-> forall k, 0 <= k < bufsize -> mem st (buffer + k) = Byte.x00) /\
    (r = 8 * bufsize
     <-> forall k, 0 <= k < bufsize -> mem st (buffer + k) = Byte.xff).
Proof.
  intros st buffer bufsize Hs r.
  pose proof (bits_in_range (mem st) buffer bufsize) as Hr.
  rewrite Z.max_r in Hr by lia.
  assert (E : r = bits_in (mem st) buffer bufsize).
  { unfold r.
    rewrite (count_bits_naive_correct (mem st) (lookup_table st))
      by apply store_is_self.
    apply to_long_id. lia. }
  rewrite E. split; [reflexivity |]. split; [exact Hr |].
  apply bits_in_extremes. lia.
Qed.

Lemma count_bits_naive_exact_witness :
  0 <= 21 < 2 ^ 60 /\
  fst (count_bits_naive 3 21 sample_state) = bits_in (mem sample_state) 3 21 /\
  0 <= fst (count_bits_naive 3 21 sample_state) <= 8 * 21.
Proof.
  assert (H : 0 <= 21 < 2 ^ 60) by (vm_compute; split; congruence).
  destruct (count_bits_naive_exact sample_state 3 21 H) as (A & B & _).
  split; [exact H |]. split; [exact A | exact B].
Defined.

Lemma sumZ_map_zero {A} (f : A -> Z) l :
  (forall x, In x l -> f x = 0) -> sumZ (map f l) = 0.
Proof.
  induction l as [| a l IH]; intros H; [reflexivity |].
  cbn [map]. rewrite sumZ_cons, IH, (H a); [reflexivity | now left |].
  intros x Hx. apply H. now right.
Qed.

Lemma chunk_byte_range c byte : 0 <= chunk_byte c byte < 256.
Proof. unfold chunk_byte. apply Z.mod_pos_bound. lia. Qed.

(** X4 - [count_bits_table] without [init_lookup_table].  While the
    entries of [lookup_table] are all 0, as they are in static storage
    before [init_lookup_table] has run, [table_kernel] returns 0 for
    every chunk, and [count_bits_table] returns the count of the naive
    tail only: the set bits of the whole chunks are not counted. *)
Theorem count_bits_table_before_init :
  forall st t buffer bufsize,
    (forall i, 0 <= i < 256 -> lookup_table st i = 0) ->
    0 <= bufsize < 2 ^ 64 ->
    (forall c, table_kernel c st = (0, st)) /\
    fst (count_bits_table t buffer bufsize st)
    = fst (count_bits_naive (buffer + chunk_size * (bufsize / chunk_size))
                            (bufsize mod chunk_size) st) /\
    (bufsize mod chunk_size = 0 ->
     fst (count_bits_table t buffer bufsize st) = 0).
Proof.
  intros st t buffer bufsize Hz Hs.
  pose proof (store_is_self st) as Hst.
  assert (Hk : forall c,
             to_long (sumZ (map (fun byte => lookup_table st (chunk_byte c byte))
                                (zrange 0 8))) = 0).
  { intros c. rewrite sumZ_map_zero; [reflexivity |].
    intros byte _. apply Hz, chunk_byte_range. }
  assert (Hv : fst (count_bits_table t buffer bufsize st)
               = to_long (bits_in (mem st) (buffer + 8 * (bufsize / 8))
                                  (bufsize mod 8))).
  { unfold count_bits_table.
    rewrite (count_bits_kernel_run (mem st) (lookup_table st) _ _ t buffer
               bufsize st (table_kernel_pure (lookup_table st)) Hst Hs).
    cbn [fst]. rewrite sumZ_map_zero; [reflexivity |].
    intros i _. apply Hk. }
  split; [| split].
  - intros c. rewrite (table_kernel_pure (lookup_table st) c st eq_refl).
    rewrite Hk. reflexivity.
  - rewrite Hv.
    rewrite (count_bits_naive_correct (mem st) (lookup_table st)) by exact Hst.
    reflexivity.
  - intros E. rewrite Hv. change chunk_size with 8 in E. rewrite E.
    rewrite bits_in_nil by lia. reflexivity.
Qed.

Lemma count_bits_table_before_init_witness :
  (forall i, 0 <= i < 256 -> lookup_table boot_state i = 0) /\
  0 <= 21 < 2 ^ 64 /\
  fst (count_bits_table (contiguous_team [1; 1]) 3 21 boot_state)
  = fst (count_bits_naive (3 + chunk_size * (21 / chunk_size))
                          (21 mod chunk_size) boot_state).
Proof.
  assert (H1 : forall i, 0 <= i < 256 -> lookup_table boot_state i = 0)
    by (intros i _; reflexivity).
  assert (H2 : 0 <= 21 < 2 ^ 64) by (vm_compute; split; congruence).
  split; [exact H1 |]. split; [exact H2 |].
  exact (proj1 (proj2 (count_bits_table_before_init boot_state
                         (contiguous_team [1; 1]) 3 21 H1 H2))).
Defined.

(** X5 - the kernels after [init_lookup_table].  Once the table has been
    built, [table_kernel] returns for every 64-bit chunk the number of
    its set bits, which is what [intrinsic_kernel],
    [intrinsic_kernel_double], [kernighan_kernel] and
    [sidewaysaddition_kernel] return: the five kernels can be exchanged.
    The value lies between 0 and 64 and is 0 for the chunk 0 only. *)
Theorem kernels_agree_after_init :
  forall st0 c,
    0 <= c < 2 ^ 64 ->
    let st := snd (init_lookup_table st0) in
    table_kernel c st = (popcount c, st) /\
    intrinsic_kernel c st = table_kernel c st /\
    intrinsic_kernel_double c st = table_kernel c st /\
    kernighan_kernel c st = table_kernel c st /\
    sidewaysaddition_kernel c st = table_kernel c st /\
    0 <= fst (table_kernel c st) <= 64 /\
    (fst (table_kernel c st) = 0 <-> c = 0).
Proof.
  intros st0 c Hc st.
  destruct (init_lookup_table_run st0) as (_ & _ & Hready & _).
  fold st in Hready.
  assert (Ht : table_kernel c st = (popcount c, st)).
  { rewrite (table_kernel_pure (lookup_table st) c st eq_refl).
    rewrite (table_kernel_value _ c Hready Hc). reflexivity. }
  rewrite Ht. cbn [fst].
  split; [reflexivity |].
  split; [| split; [| split; [| split; [| split]]]].
  - unfold intrinsic_kernel, ret. rewrite intrinsic_value by exact Hc. reflexivity.
  - unfold intrinsic_kernel_double, ret.
    rewrite intrinsic_value by exact Hc. reflexivity.
  - unfold kernighan_kernel, ret.
    rewrite kernighan_kernel_value by exact Hc. reflexivity.
  - unfold sidewaysaddition_kernel, ret.
    rewrite sidewaysaddition_value by exact Hc. reflexivity.
  - apply popcount64_bound. exact Hc.
  - apply popcount_zero. lia.
Qed.

Lemma kernels_agree_after_init_witness :
  0 <= 2 ^ 64 - 1 < 2 ^ 64 /\
  table_kernel (2 ^ 64 - 1) sample_state = (popcount (2 ^ 64 - 1), sample_state) /\
  kernighan_kernel (2 ^ 64 - 1) sample_state
  = table_kernel (2 ^ 64 - 1) sample_state.
Proof.
  assert (H : 0 <= 2 ^ 64 - 1 < 2 ^ 64) by (vm_compute; split; congruence).
  destruct (kernels_agree_after_init boot_state (2 ^ 64 - 1) H)
    as (A & _ & _ & B & _).
  split; [exact H |]. split; [exact A | exact B].
Defined.

(** X6 - [count_bits_asm_chunked] counts whole chunks only.  It returns
    the number of set bits of the first [chunk_size * (bufsize /
    chunk_size)] bytes, with one load per chunk in address order; the
    bytes after the last whole chunk are ignored, so the result is that
    of [count_bits_naive] on the whole buffer when [bufsize] is a
    multiple of [chunk_size]. *)
Theorem count_bits_asm_chunked_whole_chunks :
  forall st buffer bufsize,
    0 <= bufsize < 2 ^ 64 ->
    let whole := chunk_size * (bufsize / chunk_size) in
    count_bits_asm_chunked buffer bufsize st
    = count_bits_asm_chunked buffer whole st /\
    fst (count_bits_asm_chunked buffer bufsize st)
    = fst (count_bits_naive buffer whole st) /\
    loads (count_bits_asm_chunked buffer bufsize) st
    = map (fun i => Ld64 (buffer + i * chunk_size))
          (zrange 0 (bufsize / chunk_size)) /\
    (bufsize mod chunk_size = 0 ->
     fst (count_bits_asm_chunked buffer bufsize st)
     = fst (count_bits_naive buffer bufsize st)).
Proof.
  intros st buffer bufsize Hs whole.
  pose proof (store_is_self st) as Hst.
  assert (Hw : 0 <= whole < 2 ^ 64 /\ whole / 8 = bufsize / 8).
  { unfold whole. change chunk_size with 8.
    rewrite (Z.mul_comm 8), Z.div_mul by lia.
    split; [| reflexivity]. pose proof (Z.mul_div_le bufsize 8).
    pose proof (Z.div_pos bufsize 8). lia. }
  destruct Hw as [Hw1 Hw2].
  pose proof (count_bits_asm_chunked_run (mem st) (lookup_table st) buffer
                bufsize st Hst Hs) as R1.
  pose proof (count_bits_asm_chunked_run (mem st) (lookup_table st) buffer
                whole st Hst Hw1) as R2.
  rewrite Hw2 in R2.
  assert (V : fst (count_bits_asm_chunked buffer bufsize st)
              = fst (count_bits_naive buffer whole st)).
  { rewrite R1. cbn [fst].
    rewrite (count_bits_naive_correct (mem st) (lookup_table st)) by exact Hst.
    reflexivity. }
  split; [rewrite R1, R2; reflexivity |].
  split; [exact V |]. split.
  - apply loads_emit. rewrite R1. reflexivity.
  - intros E. rewrite V. unfold whole. change chunk_size with 8 in *.
    do 2 f_equal. pose proof (Z.div_mod bufsize 8). lia.
Qed.

Lemma count_bits_asm_chunked_whole_chunks_witness :
  0 <= 21 < 2 ^ 64 /\
  count_bits_asm_chunked 3 21 sample_state
  = count_bits_asm_chunked 3 (chunk_size * (21 / chunk_size)) sample_state /\
  fst (count_bits_asm_chunked 3 21 sample_state)
  = fst (count_bits_naive 3 (chunk_size * (21 / chunk_size)) sample_state).
Proof.
  assert (H : 0 <= 21 < 2 ^ 64) by (vm_compute; split; congruence).
  destruct (count_bits_asm_chunked_whole_chunks sample_state 3 21 H)
    as (A & B & _).
  split; [exact H |]. split; [exact A | exact B].
Defined.

(* ===================================================================== *)
(** * The timing loop and the benchmarks of [main] *)
(* ===================================================================== *)

Module DriverFacts.
Import String Ascii Driver Report.

Section Timed.
Variable m : Z -> uchar.
Variable T : Z -> Z.
Variable buffer bufsize : Z.
Variable func : bit_counting_function.
Variable v : Z.
Variable evs : list event.
Hypothesis Hfunc :
  forall st, store_is m T st -> func buffer bufsize st = (v, emit st evs).

Lemma timing_loop_run tp l : forall cout st,
  store_is m T st ->
  foldM (fun i cout =>
           num_bits <- func buffer bufsize ;;
           if i =? 0
           then ret (cout ++ [Str " ("; Num num_bits; Str " bits are set) "])%list
           else if Z.rem i tp =? 0
                then ret (cout ++ [Str "."])%list
                else ret cout)
        l cout st
  = ((cout ++ flat_map (progress v tp) l)%list,
     emit st (flat_map (fun _ => evs) l)).
Proof.
  induction l as [| i l IH]; intros cout st Hst; cbn [foldM flat_map].
  - unfold ret. rewrite app_nil_r, emit_nil. reflexivity.
  - unfold bind at 1. unfold bind at 1. rewrite (Hfunc st Hst).
    assert (E : (if i =? 0
                 then ret (cout ++ [Str " ("; Num v; Str " bits are set) "])%list
                 else if Z.rem i tp =? 0
                      then ret (cout ++ [Str "."])%list
                      else ret cout) (emit st evs)
                = ((cout ++ progress v tp i)%list, emit st evs)).
    { unfold progress, ret.
      destruct (i =? 0); [reflexivity |].
      destruct (Z.rem i tp =? 0); [reflexivity |].
      rewrite app_nil_r. reflexivity. }
    rewrite E. rewrite IH by (apply store_emit; exact Hst).
    rewrite <- app_assoc, emit_emit. reflexivity.
Qed.

Lemma time_bit_counting_run description iters st :
  store_is m T st ->
  time_bit_counting description func buffer bufsize iters st
  = (report v description iters,
     emit st (flat_map (fun _ => evs) (zrange 0 iters))).
Proof.
  intros Hst. unfold time_bit_counting. unfold bind at 1.
  rewrite (timing_loop_run _ _ _ st Hst). unfold ret, report.
  fold (ten_percent iters). rewrite <- app_assoc. reflexivity.
Qed.

End Timed.

Lemma reported_app a b : reported (a ++ b) = (reported a ++ reported b)%list.
Proof. unfold reported. apply flat_map_app. Qed.

Lemma reported_progress v tp l :
  reported (flat_map (progress v tp) l)
  = if existsb (Z.eqb 0) l then repeat v (count_occ Z.eq_dec l 0) else [].
Proof.
  induction l as [| i l IH]; [reflexivity |].
  cbn [flat_map existsb count_occ]. rewrite reported_app, IH.
  unfold progress at 1.
  destruct (Z.eq_dec i 0) as [-> | Hi].
  - cbn [Z.eqb orb]. destruct (Z.eq_dec 0 0) as [_ | C]; [| contradiction].
    cbn [repeat reported flat_map app].
    destruct (existsb (Z.eqb 0) l) eqn:Ex; [reflexivity |].
    replace (count_occ Z.eq_dec l 0) with 0%nat; [reflexivity |].
    symmetry. apply count_occ_not_In. intros Hin.
    assert (existsb (Z.eqb 0) l = true)
      by (apply existsb_exists; exists 0; split; [exact Hin | reflexivity]).
    congruence.
  - destruct (Z.eqb_spec i 0) as [C | _]; [contradiction |].
    destruct (Z.eqb_spec 0 i) as [C | _]; [symmetry in C; contradiction |].
    destruct (Z.eq_dec i 0) as [C | _]; [contradiction |].
    cbn [orb].
    destruct (Z.rem i tp =? 0); reflexivity.
Qed.

Lemma count_occ_zrange0 n : 0 < n -> count_occ Z.eq_dec (zrange 0 n) 0 = 1%nat.
Proof.
  intros Hn. rewrite zrange_cons by lia. cbn [count_occ].
  destruct (Z.eq_dec 0 0) as [_ | C]; [| contradiction].
  f_equal. apply count_occ_not_In. rewrite in_zrange. lia.
Qed.

Lemma reported_report v description iters :
  reported (report v description iters) = if 0 <? iters then [v] else [].
Proof.
  unfold report. rewrite !reported_app, reported_progress.
  cbn [reported flat_map app]. rewrite app_nil_r.
  rewrite existsb_zrange.
  destruct (Z.ltb_spec 0 iters) as [H | H].
  - cbn [Z.leb andb]. rewrite count_occ_zrange0 by exact H. reflexivity.
  - destruct (0 <=? 0); reflexivity.
Qed.

Lemma filter_flat_map {A B} (p : B -> bool) (f : A -> list B) l :
  filter p (flat_map f l) = flat_map (fun x => filter p (f x)) l.
Proof.
  induction l as [| a l IH]; [reflexivity |].
  cbn [flat_map]. rewrite filter_app, IH. reflexivity.
Qed.

(** The multiples of [tp] among [1 .. n-1]. *)
Lemma multiples_below tp (k : nat) :
  0 < tp ->
  Z.of_nat (List.length
    (flat_map (fun i => filter is_dot (progress 0 tp i))
              (zrange 0 (Z.of_nat k + 1))))
  = Z.of_nat k / tp.
Proof.
  intros Htp. induction k as [| k IH].
  - change (zrange 0 (Z.of_nat 0 + 1)) with [0].
    change (Z.of_nat 0) with 0. rewrite Z.div_0_l by lia. reflexivity.
  - replace (Z.of_nat (S k) + 1) with (Z.of_nat k + 1 + 1) by lia.
    rewrite (zrange_app 0 (Z.of_nat k + 1) (Z.of_nat k + 1 + 1)) by lia.
    rewrite flat_map_app, length_app, Nat2Z.inj_add, IH.
    rewrite zrange_cons, zrange_nil by lia.
    cbn [flat_map]. rewrite app_nil_r.
    unfold progress.
    destruct (Z.eqb_spec (Z.of_nat k + 1) 0) as [C | _]; [lia |].
    rewrite Z.rem_mod_nonneg by lia.
    replace (Z.of_nat (S k)) with (Z.of_nat k + 1) by lia.
    set (n := Z.of_nat k) in *. assert (Hn : 0 <= n) by lia.
    clearbody n. clear IH.
    pose proof (Z.div_mod n tp ltac:(lia)) as D.
    pose proof (Z.mod_pos_bound n tp Htp) as R.
    destruct (Z.eqb_spec ((n + 1) mod tp) 0) as [E | E].
    + cbn [filter is_dot List.length]. change (String.eqb "." ".") with true.
      cbn [List.length]. change (Z.of_nat 1) with 1.
      apply (Z.div_unique (n + 1) tp (n / tp + 1) 0); [lia |].
      assert (n mod tp = tp - 1).
      { pose proof (Z.div_mod (n + 1) tp ltac:(lia)) as D'.
        rewrite E in D'.
        destruct (Z.eq_dec (n mod tp) (tp - 1)) as [? | Hne]; [assumption |].
        exfalso. rewrite <- Zplus_mod_idemp_l in E.
        rewrite Z.mod_small in E by lia. lia. }
      nia.
    + cbn [filter List.length]. change (Z.of_nat 0) with 0. rewrite Z.add_0_r.
      apply (Z.div_unique (n + 1) tp (n / tp) (n mod tp + 1)); [| lia].
      destruct (Z.eq_dec (n mod tp) (tp - 1)) as [He | Hne]; [| lia].
      exfalso. apply E. rewrite <- Zplus_mod_idemp_l, He.
      replace (tp - 1 + 1) with tp by lia. apply Z.mod_same. lia.
Qed.

Lemma dots_progress v tp i :
  filter is_dot (progress v tp i) = filter is_dot (progress 0 tp i).
Proof.
  unfold progress. destruct (i =? 0); [reflexivity |].
  destruct (Z.rem i tp =? 0); reflexivity.
Qed.

Lemma ten_percent_pos iters : 0 < ten_percent iters.
Proof. unfold ten_percent. destruct (Z.ltb_spec (Z.quot iters 10) 10); lia. Qed.

Lemma dots_report v description iters :
  description <> "."%string ->
  dots (report v description iters)
  = if iters <? 1 then 0 else (iters - 1) / ten_percent iters.
Proof.
  intros Hd. unfold dots, report.
  rewrite !filter_app, !length_app.
  assert (Hh : filter is_dot [Endl; Str description] = []).
  { cbn [filter is_dot].
    destruct (String.eqb_spec description "."); [contradiction | reflexivity]. }
  rewrite Hh. cbn [List.length Nat.add].
  replace (filter is_dot [Endl; Seconds_per_iteration iters;
                          Str " seconds per iteration"; Endl])
    with (@nil out) by reflexivity.
  cbn [List.length]. rewrite Nat.add_0_r.
  rewrite filter_flat_map.
  rewrite (flat_map_ext _ (fun i => filter is_dot (progress 0 (ten_percent iters) i)))
    by (intros i; apply dots_progress).
  destruct (Z.ltb_spec iters 1) as [H | H].
  - rewrite zrange_nil by lia. reflexivity.
  - replace iters with (Z.of_nat (Z.to_nat (iters - 1)) + 1) at 1 by lia.
    rewrite multiples_below by apply ten_percent_pos.
    f_equal. lia.
Qed.

Lemma time_bit_counting_output description func buffer bufsize iters st :
  counting_call (func buffer bufsize) ->
  time_bit_counting description func buffer bufsize iters st
  = (report (fst (func buffer bufsize st)) description iters,
     emit st (flat_map (fun _ => loads (func buffer bufsize) st)
                       (zrange 0 iters))).
Proof.
  intros Hc.
  destruct (counting_call_run (mem st) (lookup_table st) _ Hc)
    as (v & evs & Hv).
  pose proof (store_is_self st) as Hst.
  assert (Ev : fst (func buffer bufsize st) = v)
    by (rewrite (Hv st Hst); reflexivity).
  assert (El : loads (func buffer bufsize) st = evs)
    by (apply loads_emit; rewrite (Hv st Hst); reflexivity).
  rewrite Ev, El.
  apply (time_bit_counting_run (mem st) (lookup_table st) buffer bufsize
           func v evs Hv description iters st Hst).
Qed.

(** X7 - [time_bit_counting] calls the function [iters] times and
    reports the first result.  For any of the counting functions, the
    output is the description, the result of the function in
    parentheses (once, when [iters] is positive; not at all otherwise),
    the dots and the timing line; the loads are those of [iters] calls
    one after the other (none when [iters] is not positive), and the
    memory and the lookup table are left as they were. *)
Theorem time_bit_counting_report :
  forall description func buffer bufsize iters st,
    counting_call (func buffer bufsize) ->
    let num_bits := fst (func buffer bufsize st) in
    let run := time_bit_counting description func buffer bufsize iters st in
    fst run = report num_bits description iters /\
    reported (fst run) = (if 0 <? iters then [num_bits] else []) /\
    loads (time_bit_counting description func buffer bufsize iters) st
    = flat_map (fun _ => loads (func buffer bufsize) st) (zrange 0 iters) /\
    mem (snd run) = mem st /\
    lookup_table (snd run) = lookup_table st.
Proof.
  intros description func buffer bufsize iters st Hc num_bits run.
  pose proof (time_bit_counting_output description func buffer bufsize iters
                st Hc) as R.
  fold run in R. fold num_bits in R.
  rewrite R. cbn [fst snd].
  split; [reflexivity |].
  split; [apply reported_report |].
  split; [| split; reflexivity].
  apply loads_emit. fold run. rewrite R. reflexivity.
Qed.

Lemma time_bit_counting_report_witness :
  counting_call (count_bits_naive 3 21) /\
  reported (fst (time_bit_counting "Naive implementation" count_bits_naive
                   3 21 10 sample_state))
  = (if 0 <? 10 then [fst (count_bits_naive 3 21 sample_state)] else []).
Proof.
  assert (H : counting_call (count_bits_naive 3 21)).
  { apply call_naive. vm_compute. split; congruence. }
  split; [exact H |].
  exact (proj1 (proj2 (time_bit_counting_report "Naive implementation"
                         count_bits_naive 3 21 10 sample_state H))).
Defined.

(** X8 - the dots of [time_bit_counting].  Below 100 iterations a dot is
    printed after every iteration but the first; from 100 iterations on
    a dot is printed every [iters / 10] iterations, which gives 9 dots
    when [iters] is a multiple of 10 and 10 dots otherwise. *)
Theorem time_bit_counting_dots :
  forall description func buffer bufsize iters st,
    counting_call (func buffer bufsize) ->
    description <> "."%string ->
    let o := fst (time_bit_counting description func buffer bufsize iters st) in
    dots o = (if iters <? 1 then 0
              else if iters <? 100 then iters - 1
                   else (iters - 1) / (iters / 10)) /\
    (100 <= iters -> dots o = if iters mod 10 =? 0 then 9 else 10).
Proof.
  intros description func buffer bufsize iters st Hc Hd o.
  pose proof (time_bit_counting_output description func buffer bufsize iters
                st Hc) as R.
  unfold o. rewrite R. cbn [fst]. rewrite dots_report by exact Hd.
  assert (Hq : 0 <= iters -> Z.quot iters 10 = iters / 10)
    by (intros; apply Z.quot_div_nonneg; lia).
  assert (E : 1 <= iters ->
              (iters - 1) / ten_percent iters
              = if iters <? 100 then iters - 1 else (iters - 1) / (iters / 10)).
  { intros H1. unfold ten_percent. rewrite Hq by lia.
    destruct (Z.ltb_spec iters 100) as [H | H].
    - destruct (Z.ltb_spec (iters / 10) 10) as [_ | C].
      + apply Z.div_1_r.
      + exfalso. pose proof (Z.mul_div_le iters 10). lia.
    - destruct (Z.ltb_spec (iters / 10) 10) as [C | _]; [| reflexivity].
      exfalso.
      pose proof (Z.div_le_mono 100 iters 10 ltac:(lia) H) as L.
      change (100 / 10) with 10 in L. lia. }
  split.
  - destruct (Z.ltb_spec iters 1) as [H | H]; [reflexivity | apply E; lia].
  - intros H100.
    destruct (Z.ltb_spec iters 1) as [C | _]; [lia |].
    rewrite E by lia.
    destruct (Z.ltb_spec iters 100) as [C | _]; [lia |].
    pose proof (Z.div_mod iters 10 ltac:(lia)) as D.
    pose proof (Z.mod_pos_bound iters 10 ltac:(lia)) as Rg.
    assert (Ht : 10 <= iters / 10).
    { pose proof (Z.div_le_mono 100 iters 10 ltac:(lia) H100) as L.
      change (100 / 10) with 10 in L. exact L. }
    set (tp := iters / 10) in *. set (s := iters mod 10) in *.
    destruct (Z.eqb_spec s 0) as [Es | Es]; symmetry.
    + apply (Z.div_unique (iters - 1) tp 9 (tp - 1)); lia.
    + apply (Z.div_unique (iters - 1) tp 10 (s - 1)); lia.
Qed.

Lemma time_bit_counting_dots_witness :
  counting_call (count_bits_naive 3 21) /\
  "Naive implementation"%string <> "."%string /\
  dots (fst (time_bit_counting "Naive implementation" count_bits_naive
               3 21 25 sample_state))
  = (if 25 <? 1 then 0
     else if 25 <? 100 then 25 - 1 else (25 - 1) / (25 / 10)).
Proof.
  assert (H : counting_call (count_bits_naive 3 21)).
  { apply call_naive. vm_compute. split; congruence. }
  assert (Hd : "Naive implementation"%string <> "."%string) by discriminate.
  split; [exact H |]. split; [exact Hd |].
  exact (proj1 (time_bit_counting_dots "Naive implementation"
                  count_bits_naive 3 21 25 sample_state H Hd)).
Defined.

Section Calls.
Variable m : Z -> uchar.
Variable T : Z -> Z.
Hypothesis Hready : table_ready T.
Variable buffer bufsize : Z.
Hypothesis Hsize : 0 <= bufsize < 2 ^ 64.

Lemma variant_call_spec f t :
  In f harness_variants -> valid_team (bufsize / 8) t ->
  forall st, store_is m T st ->
    f t buffer bufsize st
    = (to_long (bits_in m buffer bufsize),
       emit st (harness_events t buffer bufsize)).
Proof.
  intros Hf Ht st Hst.
  rewrite (surjective_pairing (f t buffer bufsize st)).
  rewrite (variant_value_correct m T f Hf st t buffer bufsize Hready Hst Hsize Ht).
  rewrite (variant_state m T f Hf st t buffer bufsize Hst Hsize).
  reflexivity.
Qed.

Lemma asm_call_spec nt t :
  - 2 ^ 31 <= nt < 2 ^ 31 -> valid_team (num_threads nt) t ->
  forall st, store_is m T st ->
    count_bits_asm nt t buffer bufsize st
    = (to_long (bits_in m buffer bufsize),
       emit st (asm_events nt t buffer bufsize)).
Proof.
  intros Hnt Ht st Hst.
  rewrite (surjective_pairing (count_bits_asm nt t buffer bufsize st)).
  rewrite (count_bits_asm_correct m T nt t buffer bufsize st Hst Hnt Hsize Ht).
  rewrite (asm_state m T nt t buffer bufsize st Hst).
  reflexivity.
Qed.

(** One [time_bit_counting] of [main], appended to what has been
    printed. *)
Lemma timed_run func evs cout description iters st :
  (forall st', store_is m T st' ->
     func buffer bufsize st' = (to_long (bits_in m buffer bufsize), emit st' evs)) ->
  store_is m T st ->
  (o <- time_bit_counting description func buffer bufsize iters ;;
   ret (cout ++ o)%list) st
  = ((cout ++ report (to_long (bits_in m buffer bufsize)) description iters)%list,
     emit st (flat_map (fun _ => evs) (zrange 0 iters))).
Proof.
  intros Hf Hst. unfold bind.
  rewrite (time_bit_counting_run m T buffer bufsize func _ evs Hf
             description iters st Hst).
  reflexivity.
Qed.

Lemma timed_bind {B} func evs cout description iters (k : list out -> M B) st :
  (forall st', store_is m T st' ->
     func buffer bufsize st' = (to_long (bits_in m buffer bufsize), emit st' evs)) ->
  store_is m T st ->
  bind (o <- time_bit_counting description func buffer bufsize iters ;;
        ret (cout ++ o)%list) k st
  = k (cout ++ report (to_long (bits_in m buffer bufsize)) description iters)%list
      (emit st (flat_map (fun _ => evs) (zrange 0 iters))).
Proof.
  intros Hf Hst. rewrite bind_run.
  rewrite (timed_run func evs cout description iters st Hf Hst).
  reflexivity.
Qed.

End Calls.

Lemma num_threads_range nt :
  - 2 ^ 31 <= nt < 2 ^ 31 -> - 2 ^ 31 <= num_threads nt < 2 ^ 31.
Proof.
  intros H. unfold num_threads. destruct (Z.ltb_spec 0 nt); lia.
Qed.

Lemma plan_length n :
  List.length (plan n)
  = if n <? 4 then (if 1 <? n then 14%nat else 7%nat) else 12%nat.
Proof.
  unfold plan.
  destruct (Z.ltb_spec n 4), (Z.ltb_spec 1 n); try reflexivity. lia.
Qed.

Lemma reported_plan v (l : list (string * Z)) :
  Forall (fun p => 0 < snd p) l ->
  reported (flat_map (fun p => report v (fst p) (snd p)) l)
  = repeat v (List.length l).
Proof.
  induction 1 as [| p l Hp _ IH]; [reflexivity |].
  cbn [flat_map List.length repeat].
  rewrite reported_app, IH, reported_report.
  destruct (Z.ltb_spec 0 (snd p)); [reflexivity | lia].
Qed.

Lemma plan_iters n : Forall (fun p => 0 < snd p) (plan n).
Proof.
  unfold plan. destruct (n <? 4), (1 <? n);
    repeat (first [apply Forall_nil | apply Forall_cons; [cbn; lia |]]).
Qed.

Ltac timed_step m T buffer bufsize H :=
  rewrite (timed_bind m T buffer bufsize _ _ _ _ _ _ _ H)
    by (repeat apply store_emit; assumption);
  cbv beta.

Ltac out_norm :=
  cbn [flat_map app fst snd]; rewrite <- ?app_assoc, ?app_nil_r; reflexivity.

Lemma main_timings_run omp_team nt buffer bufsize st :
  0 <= bufsize < 2 ^ 64 ->
  - 2 ^ 31 <= nt < 2 ^ 31 ->
  let n := num_threads nt in
  (forall T, T = 1 \/ (1 < n /\ T = n) ->
     valid_team (bufsize / chunk_size) (omp_team T (bufsize / chunk_size)) /\
     valid_team (num_threads T) (omp_team T (num_threads T))) ->
  exists evs,
    main_timings omp_team nt buffer bufsize st
    = (flat_map (fun p => report (to_long (bits_in (mem st) buffer bufsize))
                                 (fst p) (snd p))
                (plan n),
       emit (snd (init_lookup_table st)) evs).
Proof.
  intros Hs Hnt n Hteams.
  destruct (init_lookup_table_run st) as (Hmem & _ & Hready & _).
  unfold main_timings. cbv beta zeta. fold n.
  rewrite (bind_run init_lookup_table). cbv beta.
  remember (snd (init_lookup_table st)) as st1 eqn:Est1. clear Est1.
  remember (mem st) as m eqn:Em. clear Em.
  remember (lookup_table st1) as T eqn:ET.
  assert (Hst1 : store_is m T st1) by (split; [exact Hmem | symmetry; exact ET]).
  clear ET Hmem.
  pose proof (num_threads_range nt Hnt) as Hn. fold n in Hn.
  clearbody n.
  assert (Hnaive : forall st', store_is m T st' ->
            count_bits_naive buffer bufsize st'
            = (to_long (bits_in m buffer bufsize),
               emit st' (naive_events buffer bufsize)))
    by (intros st' Hst'; apply (count_bits_naive_run m T); exact Hst').
  assert (Hvar : forall Th f,
            Th = 1 \/ (1 < n /\ Th = n) -> In f harness_variants ->
            forall st', store_is m T st' ->
              on_threads omp_team Th f buffer bufsize st'
              = (to_long (bits_in m buffer bufsize),
                 emit st' (harness_events (omp_team Th (bufsize / chunk_size))
                             buffer bufsize))).
  { intros Th f HT Hf. unfold on_threads.
    apply (variant_call_spec m T Hready buffer bufsize Hs f _ Hf).
    apply (Hteams Th HT). }
  assert (Hasm : forall Th,
            Th = 1 \/ (1 < n /\ Th = n) ->
            forall st', store_is m T st' ->
              asm_on_threads omp_team Th buffer bufsize st'
              = (to_long (bits_in m buffer bufsize),
                 emit st' (asm_events Th (omp_team Th (num_threads Th))
                             buffer bufsize))).
  { intros Th HT. unfold asm_on_threads.
    apply (asm_call_spec m T buffer bufsize Hs Th).
    - destruct HT as [-> | [_ ->]]; [lia | exact Hn].
    - apply (Hteams Th HT). }
  clear Hteams Hready.
  assert (Hk : In count_bits_kernighan harness_variants) by (cbn; tauto).
  assert (Ht : In count_bits_table harness_variants) by (cbn; tauto).
  assert (Hi : In count_bits_intrinsic harness_variants) by (cbn; tauto).
  assert (Hd : In count_bits_intrinsic_double harness_variants) by (cbn; tauto).
  assert (Hw : In count_bits_sidewaysaddition harness_variants) by (cbn; tauto).
  assert (Ho : In count_bits_optimized harness_variants) by (cbn; tauto).
  pose proof (Hvar 1 _ (or_introl eq_refl) Hk) as Sk.
  pose proof (Hvar 1 _ (or_introl eq_refl) Ht) as St.
  pose proof (Hvar 1 _ (or_introl eq_refl) Hi) as Si.
  pose proof (Hvar 1 _ (or_introl eq_refl) Hd) as Sd.
  pose proof (Hvar 1 _ (or_introl eq_refl) Hw) as Sw.
  pose proof (Hasm 1 (or_introl eq_refl)) as Sa.
  unfold plan, naive_iters, kernel_iters, fast_iters.
  timed_step m T buffer bufsize Hnaive.
  destruct (Z.ltb_spec n 4) as [H4 | H4].
  - rewrite bind_assoc.
    timed_step m T buffer bufsize Sk.
    timed_step m T buffer bufsize St.
    timed_step m T buffer bufsize Si.
    timed_step m T buffer bufsize Sd.
    timed_step m T buffer bufsize Sa.
    timed_step m T buffer bufsize Sw.
    destruct (Z.ltb_spec 1 n) as [H1 | H1].
    + assert (Hp : n = 1 \/ (1 < n /\ n = n))
        by (right; split; [exact H1 | reflexivity]).
      timed_step m T buffer bufsize (Hvar n _ Hp Hk).
      timed_step m T buffer bufsize (Hvar n _ Hp Ht).
      timed_step m T buffer bufsize (Hvar n _ Hp Hi).
      timed_step m T buffer bufsize (Hvar n _ Hp Hd).
      timed_step m T buffer bufsize (Hasm n Hp).
      timed_step m T buffer bufsize (Hvar n _ Hp Hw).
      rewrite (timed_run m T buffer bufsize _ _ _ _ _ _ (Hvar n _ Hp Ho))
        by (repeat apply store_emit; assumption).
      rewrite !emit_emit. eexists. apply (f_equal2 pair); [| reflexivity].
      out_norm.
    + unfold ret at 1. rewrite !emit_emit. eexists. apply (f_equal2 pair); [| reflexivity].
      out_norm.
  - rewrite bind_ret.
    timed_step m T buffer bufsize Si.
    timed_step m T buffer bufsize Sd.
    timed_step m T buffer bufsize Sa.
    timed_step m T buffer bufsize Sw.
    destruct (Z.ltb_spec 1 n) as [H1 | H1]; [| lia].
    assert (Hp : n = 1 \/ (1 < n /\ n = n))
      by (right; split; [exact H1 | reflexivity]).
    timed_step m T buffer bufsize (Hvar n _ Hp Hk).
    timed_step m T buffer bufsize (Hvar n _ Hp Ht).
    timed_step m T buffer bufsize (Hvar n _ Hp Hi).
    timed_step m T buffer bufsize (Hvar n _ Hp Hd).
    timed_step m T buffer bufsize (Hasm n Hp).
    timed_step m T buffer bufsize (Hvar n _ Hp Hw).
    rewrite (timed_run m T buffer bufsize _ _ _ _ _ _ (Hvar n _ Hp Ho))
      by (repeat apply store_emit; assumption).
    rewrite !emit_emit. eexists. apply (f_equal2 pair); [| reflexivity].
      out_norm.
Qed.

(** X9 - the benchmarks of [main].  From [init_lookup_table()] on,
    [main] prints one report for the naive function, then the serial
    runs (Kernighan and the table only when [num_threads()] returned
    less than 4), then, when it returned more than 1, the seven parallel
    runs: 7, 12 or 14 reports.  Whatever teams the runtime forms, every
    report shows the same number of bits, the one [count_bits_naive]
    returns for the buffer; the memory is left as it was and the lookup
    table is the one [init_lookup_table] built. *)
Theorem main_reports_one_count :
  forall omp_team omp_num_threads buffer bufsize st,
    0 <= bufsize < 2 ^ 64 ->
    - 2 ^ 31 <= omp_num_threads < 2 ^ 31 ->
    let original_n_threads := num_threads omp_num_threads in
    (forall T, T = 1 \/ (1 < original_n_threads /\ T = original_n_threads) ->
       valid_team (bufsize / chunk_size) (omp_team T (bufsize / chunk_size)) /\
       valid_team (num_threads T) (omp_team T (num_threads T))) ->
    let num_bits := fst (count_bits_naive buffer bufsize st) in
    let run := main_timings omp_team omp_num_threads buffer bufsize st in
    fst run
    = flat_map (fun p => report num_bits (fst p) (snd p))
               (plan original_n_threads) /\
    reported (fst run)
    = repeat num_bits
        (if original_n_threads <? 4
         then (if 1 <? original_n_threads then 14%nat else 7%nat)
         else 12%nat) /\
    mem (snd run) = mem st /\
    lookup_table (snd run) = lookup_table (snd (init_lookup_table st)).
Proof.
  intros omp_team nt buffer bufsize st Hs Hnt n Hteams num_bits run.
  destruct (main_timings_run omp_team nt buffer bufsize st Hs Hnt Hteams)
    as (evs & R).
  fold n in R.
  assert (Ev : num_bits = to_long (bits_in (mem st) buffer bufsize)).
  { unfold num_bits.
    apply (count_bits_naive_correct (mem st) (lookup_table st)).
    split; reflexivity. }
  destruct (init_lookup_table_run st) as (Hmem & _).
  subst run. rewrite R, Ev. clear R Ev.
  set (st1 := snd (init_lookup_table st)) in *. clearbody st1.
  cbn [fst snd emit mem lookup_table].
  split; [reflexivity |].
  split; [| split; [exact Hmem | reflexivity]].
  rewrite reported_plan by apply plan_iters.
  rewrite plan_length. reflexivity.
Qed.

Lemma main_reports_one_count_witness :
  0 <= 21 < 2 ^ 64 /\
  - 2 ^ 31 <= 2 < 2 ^ 31 /\
  (forall T, T = 1 \/ (1 < num_threads 2 /\ T = num_threads 2) ->
     valid_team (21 / chunk_size)
       (contiguous_team (21 / chunk_size :: repeat 0 (Z.to_nat (T - 1)))) /\
     valid_team (num_threads T)
       (contiguous_team (num_threads T :: repeat 0 (Z.to_nat (T - 1))))) /\
  reported (fst (main_timings
                   (fun T n => contiguous_team (n :: repeat 0 (Z.to_nat (T - 1))))
                   2 3 21 boot_state))
  = repeat (fst (count_bits_naive 3 21 boot_state))
      (if num_threads 2 <? 4
       then (if 1 <? num_threads 2 then 14%nat else 7%nat)
       else 12%nat).
Proof.
  assert (H1 : 0 <= 21 < 2 ^ 64) by (vm_compute; split; congruence).
  assert (H2 : - 2 ^ 31 <= 2 < 2 ^ 31) by (vm_compute; split; congruence).
  assert (H3 : forall T, T = 1 \/ (1 < num_threads 2 /\ T = num_threads 2) ->
     valid_team (21 / chunk_size)
       (contiguous_team (21 / chunk_size :: repeat 0 (Z.to_nat (T - 1)))) /\
     valid_team (num_threads T)
       (contiguous_team (num_threads T :: repeat 0 (Z.to_nat (T - 1))))).
  { intros T [-> | [_ ->]]; split; team_ok. }
  split; [exact H1 |]. split; [exact H2 |]. split; [exact H3 |].
  exact (proj1 (proj2 (main_reports_one_count
                         (fun T n => contiguous_team (n :: repeat 0 (Z.to_nat (T - 1))))
                         2 3 21 boot_state H1 H2 H3))).
Defined.

Lemma main_bufsize_eq megs : main_bufsize megs = (megs * 2 ^ 20) mod 2 ^ 64.
Proof.
  unfold main_bufsize, to_size_t, to_ulong.
  rewrite Zmult_mod_idemp_l. f_equal. ring.
Qed.

(** X10 - the size of the buffer in [main].  [bufsize] is
    [megs_of_data * 2 ^ 20] cut to 64 bits: always a multiple of
    [chunk_size], so that the harness functions count the whole buffer
    with their kernels and never load a byte in the naive tail; it is 0,
    an empty buffer, for every value of [megs_of_data] that is a
    multiple of [2 ^ 44], although such a value passes the check of the
    command line when it is not 0. *)
Theorem main_bufsize_whole_chunks :
  forall megs_of_data,
    let bufsize := main_bufsize megs_of_data in
    bufsize = (megs_of_data * 2 ^ 20) mod 2 ^ 64 /\
    bufsize mod chunk_size = 0 /\
    (bufsize = 0 <-> megs_of_data mod 2 ^ 44 = 0) /\
    (forall f t buffer st,
       In f harness_variants ->
       loads (f t buffer bufsize) st
       = map (fun i => Ld64 (buffer + i * chunk_size)) (team_chunks t)).
Proof.
  intros megs bufsize.
  assert (E : bufsize = (megs * 2 ^ 20) mod 2 ^ 64) by apply main_bufsize_eq.
  assert (Hr : 0 <= bufsize < 2 ^ 64) by (rewrite E; apply Z.mod_pos_bound; lia).
  assert (H8 : bufsize mod 8 = 0).
  { rewrite E. rewrite Z.mod_mod_divide by (exists (2 ^ 61); reflexivity).
    replace (megs * 2 ^ 20) with (megs * 2 ^ 17 * 8) by ring.
    apply Z.mod_mul. lia. }
  split; [exact E |]. split; [exact H8 |]. split.
  - rewrite E. change (2 ^ 64) with (2 ^ 44 * 2 ^ 20).
    rewrite Z.mul_mod_distr_r by lia. lia.
  - intros f t buffer st Hf.
    apply loads_emit.
    rewrite (variant_state (mem st) (lookup_table st) f Hf st t buffer bufsize
               (store_is_self st) Hr).
    unfold harness_events. rewrite H8, naive_events_nil by lia.
    rewrite app_nil_r. reflexivity.
Qed.

Lemma main_bufsize_whole_chunks_witness :
  In count_bits_table harness_variants /\
  main_bufsize 100 mod chunk_size = 0 /\
  loads (count_bits_table (contiguous_team [2; 1]) 4096 (main_bufsize 100))
        sample_state
  = map (fun i => Ld64 (4096 + i * chunk_size))
        (team_chunks (contiguous_team [2; 1])).
Proof.
  assert (H : In count_bits_table harness_variants) by (cbn; tauto).
  destruct (main_bufsize_whole_chunks 100) as (_ & A & _ & B).
  split; [exact H |]. split; [exact A |].
  exact (B count_bits_table (contiguous_team [2; 1]) 4096 sample_state H).
Defined.

(** X11 - a negative argument.  When [atol] reads a negative number
    [- k] from the argument (with [k] up to [2 ^ 43]), [megs_of_data] is
    [2 ^ 64 - k], which is not 0: [main] does not print the usage line.
    The size it passes to [init_buffer], whose parameter is a [long], is
    the negative number [- (k * 2 ^ 20)]: [new] throws, and in every
    environment the run ends in [std::terminate] after its first line of
    output, with nothing read or stored. *)
Theorem negative_argument_not_rejected :
  forall fuel env argv k st,
    (1 < List.length argv)%nat ->
    CLI.atol (nth 1 argv EmptyString) = - k ->
    1 <= k <= 2 ^ 43 ->
    CLI.megs_of_data argv = 2 ^ 64 - k /\
    to_long (main_bufsize (CLI.megs_of_data argv)) = - (k * 2 ^ 20) /\
    App.main fuel env argv st
    = (App.Terminated
         [Str "Using "%string; Num (2 ^ 64 - k);
          Str " megs of data. wordsize: "%string; Num chunk_size;
          Str " double wordsize: "%string; Num double_chunk_size; Endl],
       st).
Proof.
  intros fuel env argv k st Hlen Hk Hr.
  assert (Em : CLI.megs_of_data argv = 2 ^ 64 - k).
  { unfold CLI.megs_of_data.
    destruct (Z.ltb_spec 1 (Z.of_nat (List.length argv))) as [_ | C]; [| lia].
    rewrite Hk. unfold to_size_t, to_ulong.
    rewrite <- (Z.mod_add (- k) 1 (2 ^ 64)) by lia.
    rewrite Z.mod_small by lia. ring. }
  assert (En : to_long (main_bufsize (2 ^ 64 - k)) = - (k * 2 ^ 20)).
  { rewrite main_bufsize_eq. rewrite to_long_to_ulong_mod.
    replace ((2 ^ 64 - k) * 2 ^ 20) with (- (k * 2 ^ 20) + 2 ^ 20 * 2 ^ 64) by ring.
    unfold to_long.
    replace (- (k * 2 ^ 20) + 2 ^ 20 * 2 ^ 64 + 2 ^ 63)
      with (- (k * 2 ^ 20) + 2 ^ 63 + 2 ^ 20 * 2 ^ 64) by ring.
    rewrite Z.mod_add by lia. rewrite Z.mod_small by lia. ring. }
  split; [exact Em |]. split; [rewrite Em; exact En |].
  unfold App.main. rewrite Em.
  destruct (Z.eqb_spec (2 ^ 64 - k) 0) as [C | _]; [lia |].
  cbv zeta. rewrite En.
  destruct (Z.ltb_spec (- (k * 2 ^ 20)) 0) as [_ | C]; [reflexivity | lia].
Qed.

Lemma negative_argument_not_rejected_witness :
  (1 < List.length ["count_bits"%string; "-1"%string])%nat /\
  CLI.atol (nth 1 ["count_bits"%string; "-1"%string] EmptyString) = - 1 /\
  1 <= 1 <= 2 ^ 43 /\
  to_long (main_bufsize (CLI.megs_of_data ["count_bits"%string; "-1"%string]))
  = - (1 * 2 ^ 20) /\
  fst (App.main 0 (App.mkEnvironment 3 (fun _ i => i) (fun _ => Some 4096)
                     (fun _ _ => 0))
         ["count_bits"%string; "-1"%string] boot_state)
  = App.Terminated
      [Str "Using "%string; Num (2 ^ 64 - 1);
       Str " megs of data. wordsize: "%string; Num chunk_size;
       Str " double wordsize: "%string; Num double_chunk_size; Endl].
Proof.
  assert (H1 : (1 < List.length ["count_bits"%string; "-1"%string])%nat)
    by (cbn; lia).
  assert (H2 : CLI.atol (nth 1 ["count_bits"%string; "-1"%string] EmptyString) = - 1)
    by reflexivity.
  assert (H3 : 1 <= 1 <= 2 ^ 43) by (vm_compute; split; congruence).
  destruct (negative_argument_not_rejected 0
              (App.mkEnvironment 3 (fun _ i => i) (fun _ => Some 4096)
                 (fun _ _ => 0))
              _ 1 boot_state H1 H2 H3) as (_ & A & B).
  split; [exact H1 |]. split; [exact H2 |]. split; [exact H3 |].
  split; [exact A |]. rewrite B. reflexivity.
Defined.

End DriverFacts.

(* ===================================================================== *)
(** * Filling the buffer *)
(* ===================================================================== *)

Lemma word_at_ext m1 m2 a :
  (forall k, 0 <= k < 8 -> m1 (a + k) = m2 (a + k)) ->
  word_at m1 a = word_at m2 a.
Proof.
  intros H. unfold word_at. f_equal. apply map_ext_in.
  intros k Hk. rewrite in_zrange in Hk. rewrite H by lia. reflexivity.
Qed.

Lemma store64_word addr v st :
  word_at (mem (snd (store64 addr v st))) addr = to_ulong v.
Proof.
  unfold word_at, store64. cbn [snd mem].
  transitivity (le_bytes (map (chunk_byte (to_ulong v)) (zrange 0 8)));
    [| apply chunk_bytes_le, to_ulong_range].
  f_equal. apply map_ext_in. intros k Hk. rewrite in_zrange in Hk.
  destruct (Z.leb_spec addr (addr + k)) as [_ | C]; [| lia].
  destruct (Z.ltb_spec (addr + k) (addr + 8)) as [_ | C]; [| lia].
  cbn [andb]. rewrite uchar_of_u8. unfold chunk_byte.
  do 3 f_equal. ring.
Qed.

Lemma store64_other addr v st a :
  ~ addr <= a < addr + 8 -> mem (snd (store64 addr v st)) a = mem st a.
Proof.
  intros H. unfold store64. cbn [snd mem].
  destruct (Z.leb_spec addr a), (Z.ltb_spec a (addr + 8)); cbn [andb];
    try reflexivity. lia.
Qed.

Lemma map_addresses p d n :
  map (fun i => p + 8 * d + 8 * i) (zrange 0 n)
  = map (fun i => p + 8 * i) (zrange d (d + n)).
Proof.
  replace (zrange d (d + n)) with (zrange (0 + d) (n + d)) by (f_equal; lia).
  rewrite zrange_shift, map_map. apply map_ext. intros i. ring.
Qed.

Lemma fill_loop_step fuel dist drawn myBuf myEnd st :
  myBuf <> myEnd ->
  fill_loop (S fuel) dist drawn myBuf myEnd st
  = let r := fill_loop fuel dist (S drawn) (myBuf + 8) myEnd
               (snd (store64 myBuf (dist drawn) st)) in
    ((myBuf :: fst (fst r), snd (fst r)), snd r).
Proof.
  intros Hne. cbn [fill_loop].
  destruct (Z.eqb_spec myBuf myEnd) as [C | _]; [contradiction |].
  unfold bind, store64, ret. cbn [snd].
  match goal with
  | |- context [fill_loop fuel dist (S drawn) (myBuf + 8) myEnd ?s] =>
      destruct (fill_loop fuel dist (S drawn) (myBuf + 8) myEnd s) as [r st2]
  end.
  reflexivity.
Qed.

Lemma map_succ_addresses myBuf n :
  0 <= n ->
  map (fun i => myBuf + 8 * i) (zrange 0 (n + 1))
  = myBuf :: map (fun i => myBuf + 8 + 8 * i) (zrange 0 n).
Proof.
  intros Hn. rewrite (zrange_cons 0 (n + 1)) by lia.
  cbn [map]. rewrite Z.mul_0_r, Z.add_0_r. f_equal.
  rewrite zrange_shift, map_map. apply map_ext. intros i. ring.
Qed.

(** The loop of one thread over a range of [n] whole words. *)
Lemma fill_loop_run (n : nat) : forall fuel dist drawn myBuf st,
  (n < fuel)%nat ->
  let r := fill_loop fuel dist drawn myBuf (myBuf + 8 * Z.of_nat n) st in
  fst r = (map (fun i => myBuf + 8 * i) (zrange 0 (Z.of_nat n)), true) /\
  (forall i, 0 <= i < Z.of_nat n ->
     word_at (mem (snd r)) (myBuf + 8 * i)
     = to_ulong (dist (drawn + Z.to_nat i)%nat)) /\
  (forall a, ~ myBuf <= a < myBuf + 8 * Z.of_nat n ->
     mem (snd r) a = mem st a) /\
  lookup_table (snd r) = lookup_table st /\
  trace (snd r) = trace st.
Proof.
  induction n as [| n IH]; intros fuel dist drawn myBuf st Hf;
    (destruct fuel as [| fuel]; [lia |]).
  - cbn [fill_loop].
    change (Z.of_nat 0) with 0. rewrite Z.mul_0_r, Z.add_0_r, Z.eqb_refl.
    unfold ret. cbn [fst snd].
    split; [reflexivity |]. split; [intros i Hi; lia |].
    split; [reflexivity |]. split; reflexivity.
  - rewrite fill_loop_step by lia.
    set (st1 := snd (store64 myBuf (dist drawn) st)).
    replace (myBuf + 8 * Z.of_nat (S n)) with (myBuf + 8 + 8 * Z.of_nat n) by lia.
    specialize (IH fuel dist (S drawn) (myBuf + 8) st1 ltac:(lia)).
    cbv zeta in IH. destruct IH as (R & W & O & Tb & Tr).
    cbv zeta. cbn [fst snd]. rewrite R. cbn [fst snd].
    set (st2 := snd (fill_loop fuel dist (S drawn) (myBuf + 8)
                       (myBuf + 8 + 8 * Z.of_nat n) st1)) in *.
    split; [| split; [| split; [| split]]].
    + f_equal. replace (Z.of_nat (S n)) with (Z.of_nat n + 1) by lia.
      symmetry. apply map_succ_addresses. lia.
    + intros i Hi. destruct (Z.eq_dec i 0) as [-> | Hi0].
      * rewrite Z.mul_0_r, Z.add_0_r, Nat.add_0_r.
        rewrite (word_at_ext (mem st2) (mem st1)).
        -- apply store64_word.
        -- intros k Hk. apply O. lia.
      * replace (myBuf + 8 * i) with (myBuf + 8 + 8 * (i - 1)) by ring.
        rewrite W by lia. do 2 f_equal. lia.
    + intros a Ha. rewrite O by lia. apply store64_other. lia.
    + rewrite Tb. reflexivity.
    + rewrite Tr. reflexivity.
Qed.

(** The loop of one thread when no address [myBuf + 8 * k] is [myEnd]:
    it is still running after any number of turns. *)
Lemma fill_loop_diverges (fuel : nat) : forall dist drawn myBuf myEnd st,
  (forall k, 0 <= k -> myBuf + 8 * k <> myEnd) ->
  fst (fill_loop fuel dist drawn myBuf myEnd st)
  = (map (fun i => myBuf + 8 * i) (zrange 0 (Z.of_nat fuel)), false).
Proof.
  induction fuel as [| fuel IH]; intros dist drawn myBuf myEnd st H;
    [reflexivity |].
  rewrite fill_loop_step by (specialize (H 0); lia).
  cbv zeta. cbn [fst snd]. rewrite IH.
  2:{ intros k Hk. replace (myBuf + 8 + 8 * k) with (myBuf + 8 * (k + 1)) by ring.
      apply H. lia. }
  cbn [fst snd]. f_equal.
  replace (Z.of_nat (S fuel)) with (Z.of_nat fuel + 1) by lia.
  symmetry. apply map_succ_addresses. lia.
Qed.

Section InitBuffer.
Variable fuel : nat.
Variable T : Z.
Variable dist : Z -> nat -> Z.
Variable buffer bufsize : Z.

Local Notation "'thread_body'" :=
  (fun thread_id (r : list Z * bool) =>
     r' <- init_buffer_thread fuel T (dist thread_id) buffer bufsize thread_id ;;
     ret (fst r ++ fst r', snd r && snd r')).

(** Whatever the later threads do, the stores of the earlier ones stay
    at the front of the list, and a loop that was not left stays so. *)
Lemma init_threads_prefix l : forall acc b st,
  exists more b',
    fst (foldM thread_body l (acc, b) st) = (acc ++ more, b && b').
Proof.
  induction l as [| t l IH]; intros acc b st; cbn [foldM].
  - exists [], true. unfold ret. cbn [fst].
    rewrite app_nil_r, andb_true_r. reflexivity.
  - rewrite bind_run. cbv beta. rewrite bind_run.
    destruct (init_buffer_thread fuel T (dist t) buffer bufsize t st)
      as [[s1 b1] st1].
    rewrite ret_run. cbn [fst snd].
    destruct (IH (acc ++ s1) (b && b1) st1) as (more & b' & E).
    exists (s1 ++ more), (b1 && b'). rewrite E.
    rewrite <- app_assoc, andb_assoc. reflexivity.
Qed.

Hypothesis HT : 1 <= T.
Hypothesis Hsize : 0 <= bufsize.

Lemma myBuffSize_eq : Z.quot bufsize T = bufsize / T.
Proof. apply Z.quot_div_nonneg; lia. Qed.

Lemma myBuffSize_bound : 0 <= bufsize / T /\ T * (bufsize / T) <= bufsize.
Proof.
  split; [apply Z.div_pos; lia | apply Z.mul_div_le; lia].
Qed.

Variable q N : Z.
Hypothesis Hq : bufsize / T = 8 * q.
Hypothesis HN : bufsize = 8 * N.
Hypothesis Hfuel : N < Z.of_nat fuel.

Lemma init_thread_run t st n :
  0 <= t < T ->
  (if t =? T - 1 then bufsize else 8 * q * (t + 1)) = 8 * q * t + 8 * n ->
  0 <= n <= N ->
  let r := init_buffer_thread fuel T (dist t) buffer bufsize t st in
  fst r = (map (fun i => buffer + 8 * i) (zrange (q * t) (q * t + n)), true) /\
  (forall i, 0 <= i < n ->
     word_at (mem (snd r)) (buffer + 8 * q * t + 8 * i)
     = to_ulong (dist t (Z.to_nat i))) /\
  (forall a, ~ buffer + 8 * q * t <= a < buffer + 8 * q * t + 8 * n ->
     mem (snd r) a = mem st a) /\
  lookup_table (snd r) = lookup_table st /\
  trace (snd r) = trace st.
Proof.
  intros Ht Hend Hn. unfold init_buffer_thread. cbv zeta.
  rewrite myBuffSize_eq, Hq.
  assert (E : (if t =? T - 1 then buffer + bufsize
               else buffer + 8 * q * (t + 1))
              = buffer + 8 * q * t + 8 * n).
  { destruct (t =? T - 1); lia. }
  rewrite E.
  pose proof (fill_loop_run (Z.to_nat n) fuel (dist t) 0 (buffer + 8 * q * t) st
                ltac:(lia)) as R.
  cbv zeta in R. rewrite (Z2Nat.id n) in R by lia.
  destruct R as (R & W & O & Tb & Tr).
  split; [| split; [| split; [| split]]]; try assumption.
  rewrite R. f_equal.
  replace (buffer + 8 * q * t) with (buffer + 8 * (q * t)) by ring.
  apply (map_addresses buffer (q * t) n).
Qed.

Lemma init_threads_run (j : nat) : forall k acc st,
  k + Z.of_nat (S j) = T -> 0 <= k ->
  let r := foldM thread_body (zrange k T) (acc, true) st in
  fst r = (acc ++ map (fun i => buffer + 8 * i) (zrange (q * k) N), true) /\
  (forall t i, k <= t < T -> 0 <= i ->
     8 * q * t + 8 * i + 8 <= (if t =? T - 1 then bufsize else 8 * q * (t + 1)) ->
     word_at (mem (snd r)) (buffer + 8 * q * t + 8 * i)
     = to_ulong (dist t (Z.to_nat i))) /\
  (forall a, ~ buffer + 8 * q * k <= a < buffer + bufsize ->
     mem (snd r) a = mem st a) /\
  lookup_table (snd r) = lookup_table st /\
  trace (snd r) = trace st.
Proof.
  pose proof myBuffSize_bound as [Hq0 HqT]. rewrite Hq in Hq0, HqT.
  induction j as [| j IH]; intros k acc st Hk Hk0.
  - (* the last thread *)
    assert (Ek : k = T - 1) by lia.
    rewrite (zrange_cons k T), (zrange_nil (k + 1) T) by lia.
    cbn [foldM]. rewrite bind_run. cbv beta. rewrite bind_run.
    assert (Hend : (if k =? T - 1 then bufsize else 8 * q * (k + 1))
                   = 8 * q * k + 8 * (N - q * k)).
    { destruct (Z.eqb_spec k (T - 1)); [lia | contradiction]. }
    pose proof (init_thread_run k st (N - q * k) ltac:(lia) Hend
                  ltac:(nia)) as R.
    cbv zeta in R. destruct R as (R & W & O & Tb & Tr).
    destruct (init_buffer_thread fuel T (dist k) buffer bufsize k st)
      as [r st1].
    cbn [fst snd] in *. subst r. rewrite !ret_run. cbn [fst snd].
    replace (q * k + (N - q * k)) with N by ring.
    split; [reflexivity |].
    split; [| split; [| split]]; try assumption.
    + intros t i Ht Hi0 Hi. assert (t = k) by lia. subst t.
      apply W. rewrite Hend in Hi. lia.
    + intros a Ha. apply O. lia.
  - (* a thread before the last *)
    assert (Hlt : k < T - 1) by lia.
    rewrite (zrange_cons k T) by lia.
    cbn [foldM]. rewrite bind_run. cbv beta. rewrite bind_run.
    assert (Hend : (if k =? T - 1 then bufsize else 8 * q * (k + 1))
                   = 8 * q * k + 8 * q).
    { destruct (Z.eqb_spec k (T - 1)); [lia | ring]. }
    assert (HqN : q * (k + 1) <= N) by nia.
    pose proof (init_thread_run k st q ltac:(lia) Hend ltac:(nia)) as R.
    cbv zeta in R. destruct R as (R & W & O & Tb & Tr).
    destruct (init_buffer_thread fuel T (dist k) buffer bufsize k st)
      as [r st1].
    cbn [fst snd] in *. subst r. rewrite ret_run. cbn [fst snd andb].
    specialize (IH (k + 1)
                  (acc ++ map (fun i => buffer + 8 * i) (zrange (q * k) (q * k + q)))
                  st1 ltac:(lia) ltac:(lia)).
    cbv zeta in IH. destruct IH as (R' & W' & O' & Tb' & Tr').
    match type of R' with
    | fst ?x = _ => set (r2 := x) in *
    end.
    split; [| split; [| split; [| split]]].
    + rewrite R', <- app_assoc, <- map_app. do 3 f_equal.
      replace (q * k + q) with (q * (k + 1)) by ring.
      symmetry. apply zrange_app. nia.
    + intros t i Ht Hi0 Hi. destruct (Z.eq_dec t k) as [-> | Hne].
      * rewrite Hend in Hi.
        rewrite (word_at_ext (mem (snd r2)) (mem st1)).
        -- apply W. lia.
        -- intros b Hb. apply O'. nia.
      * apply W'; [lia | exact Hi0 | exact Hi].
    + intros a Ha. rewrite O' by nia. apply O. nia.
    + rewrite Tb'. exact Tb.
    + rewrite Tr'. exact Tr.
Qed.

End InitBuffer.

(** The words of the array after an even split. *)
Lemma init_buffer_words :
  forall fuel num_threads dist buffer bufsize st,
    1 <= num_threads ->
    0 <= bufsize ->
    bufsize mod 8 = 0 ->
    (bufsize / num_threads) mod 8 = 0 ->
    bufsize / 8 < Z.of_nat fuel ->
    let r := init_buffer fuel num_threads dist buffer bufsize st in
    let myBuffSize := bufsize / num_threads in
    forall thread_id i,
      0 <= thread_id < num_threads -> 0 <= i ->
      myBuffSize * thread_id + 8 * i + 8
      <= (if thread_id =? num_threads - 1 then bufsize
          else myBuffSize * (thread_id + 1)) ->
      word_at (mem (snd r)) (buffer + myBuffSize * thread_id + 8 * i)
      = to_ulong (dist thread_id (Z.to_nat i)).
Proof.
  intros fuel T dist buffer bufsize st HT Hs H8 Hq8 Hfuel r myBuffSize.
  set (N := bufsize / 8). set (q := bufsize / T / 8).
  assert (HN : bufsize = 8 * N)
    by (unfold N; pose proof (Z.div_mod bufsize 8); lia).
  assert (Hq : bufsize / T = 8 * q)
    by (unfold q; pose proof (Z.div_mod (bufsize / T) 8); lia).
  pose proof (init_threads_run fuel T dist buffer bufsize HT Hs q N Hq HN Hfuel
                (Z.to_nat (T - 1)) 0 [] st ltac:(lia) ltac:(lia)) as R.
  cbv zeta in R. fold (init_buffer fuel T dist buffer bufsize) in R.
  fold r in R. destruct R as (_ & W & _).
  intros t i Ht Hi0 Hi. unfold myBuffSize in *. rewrite Hq in *.
  apply W; assumption.
Qed.

(** X12 - [init_buffer] with an even split.  When [bufsize] and the
    share [bufsize / num_threads] of a thread are multiples of 8, every
    thread leaves its loop; together the threads store to each 8-byte
    word of the array exactly once, in address order within a thread,
    and to nothing else: memory outside [[buffer, buffer + bufsize)] and
    the lookup table are left as they were.  Afterwards the [i]-th word
    of the range of a thread holds the [i]-th value its generator
    returned. *)
Theorem init_buffer_fills :
  forall fuel num_threads dist buffer bufsize st,
    1 <= num_threads ->
    0 <= bufsize ->
    bufsize mod 8 = 0 ->
    (bufsize / num_threads) mod 8 = 0 ->
    bufsize / 8 < Z.of_nat fuel ->
    let r := init_buffer fuel num_threads dist buffer bufsize st in
    let myBuffSize := bufsize / num_threads in
    fst r = (map (fun i => buffer + 8 * i) (zrange 0 (bufsize / 8)), true) /\
    (forall thread_id i,
       0 <= thread_id < num_threads -> 0 <= i ->
       myBuffSize * thread_id + 8 * i + 8
       <= (if thread_id =? num_threads - 1 then bufsize
           else myBuffSize * (thread_id + 1)) ->
       word_at (mem (snd r)) (buffer + myBuffSize * thread_id + 8 * i)
       = to_ulong (dist thread_id (Z.to_nat i))) /\
    (forall a, ~ buffer <= a < buffer + bufsize -> mem (snd r) a = mem st a) /\
    lookup_table (snd r) = lookup_table st.
Proof.
  intros fuel T dist buffer bufsize st HT Hs H8 Hq8 Hfuel r myBuffSize.
  set (N := bufsize / 8). set (q := bufsize / T / 8).
  assert (HN : bufsize = 8 * N)
    by (unfold N; pose proof (Z.div_mod bufsize 8); lia).
  assert (Hq : bufsize / T = 8 * q)
    by (unfold q; pose proof (Z.div_mod (bufsize / T) 8); lia).
  pose proof (init_threads_run fuel T dist buffer bufsize HT Hs q N Hq HN Hfuel
                (Z.to_nat (T - 1)) 0 [] st ltac:(lia) ltac:(lia)) as R.
  cbv zeta in R. fold (init_buffer fuel T dist buffer bufsize) in R.
  fold r in R. destruct R as (R & W & O & Tb & _).
  rewrite Z.mul_0_r in R, O. rewrite Z.add_0_r in O. cbn [app] in R.
  split; [exact R |]. split; [| split; [exact O | exact Tb]].
  intros t i Ht Hi0 Hi. unfold myBuffSize in *. rewrite Hq in *.
  apply W; assumption.
Qed.

Lemma init_buffer_fills_witness :
  1 <= 2 /\ 0 <= 32 /\ 32 mod 8 = 0 /\ (32 / 2) mod 8 = 0 /\
  32 / 8 < Z.of_nat 5 /\
  fst (init_buffer 5 2 (fun t k => 100 * t + Z.of_nat k) 16 32 boot_state)
  = (map (fun i => 16 + 8 * i) (zrange 0 (32 / 8)), true).
Proof.
  assert (H1 : 1 <= 2) by lia. assert (H2 : 0 <= 32) by lia.
  assert (H3 : 32 mod 8 = 0) by reflexivity.
  assert (H4 : (32 / 2) mod 8 = 0) by reflexivity.
  assert (H5 : 32 / 8 < Z.of_nat 5) by (vm_compute; reflexivity).
  split; [exact H1 |]. split; [exact H2 |]. split; [exact H3 |].
  split; [exact H4 |]. split; [exact H5 |].
  exact (proj1 (init_buffer_fills 5 2 (fun t k => 100 * t + Z.of_nat k) 16 32
                  boot_state H1 H2 H3 H4 H5)).
Defined.

(** X13 - [init_buffer] with an uneven split.  With more than one thread
    and a share [bufsize / num_threads] that is not a multiple of 8, the
    pointer of thread 0 steps over the end of its range without ever
    being equal to it: the loop of thread 0 is not left after any number
    of turns, it stores at [buffer], [buffer + 8], [buffer + 16] and so
    on, and after more than [bufsize / 8] turns it has stored beyond the
    end of the array. *)
Theorem init_buffer_uneven_split :
  forall fuel num_threads dist buffer bufsize st,
    1 < num_threads ->
    0 <= bufsize ->
    (bufsize / num_threads) mod 8 <> 0 ->
    let r := fst (init_buffer fuel num_threads dist buffer bufsize st) in
    snd r = false /\
    firstn fuel (fst r)
    = map (fun i => buffer + 8 * i) (zrange 0 (Z.of_nat fuel)) /\
    (bufsize / 8 < Z.of_nat fuel ->
     exists a, In a (fst r) /\ buffer + bufsize < a + 8).
Proof.
  intros fuel T dist buffer bufsize st HT Hs Hq r.
  assert (E : exists more,
             r = (map (fun i => buffer + 8 * i) (zrange 0 (Z.of_nat fuel)) ++ more,
                  false)).
  { unfold r, init_buffer. rewrite (zrange_cons 0 T) by lia.
    cbn [foldM]. rewrite bind_run. cbv beta. rewrite bind_run.
    assert (D : fst (init_buffer_thread fuel T (dist 0) buffer bufsize 0 st)
                = (map (fun i => buffer + 8 * i) (zrange 0 (Z.of_nat fuel)),
                   false)).
    { unfold init_buffer_thread. cbv zeta.
      destruct (Z.eqb_spec 0 (T - 1)) as [C | _]; [lia |].
      rewrite Z.mul_0_r, Z.add_0_r, Z.add_0_l, Z.mul_1_r.
      apply fill_loop_diverges. intros k Hk.
      rewrite Z.quot_div_nonneg by lia.
      intros C. apply Hq.
      replace (bufsize / T) with (0 + k * 8) by lia.
      rewrite Z.mod_add by lia. reflexivity. }
    destruct (init_buffer_thread fuel T (dist 0) buffer bufsize 0 st)
      as [r0 st1].
    cbn [fst] in D. subst r0. rewrite ret_run. cbn [fst snd app andb].
    destruct (init_threads_prefix fuel T dist buffer bufsize (zrange (0 + 1) T)
                (map (fun i => buffer + 8 * i) (zrange 0 (Z.of_nat fuel)))
                false st1) as (more & b' & P).
    exists more. rewrite P. reflexivity. }
  destruct E as (more & E). rewrite E. cbn [fst snd].
  split; [reflexivity |]. split.
  - rewrite firstn_app.
    rewrite length_map, zrange_length.
    replace (fuel - Z.to_nat (Z.of_nat fuel - 0))%nat with 0%nat by lia.
    cbn [firstn]. rewrite app_nil_r.
    apply firstn_all2. rewrite length_map, zrange_length. lia.
  - intros Hf. exists (buffer + 8 * (bufsize / 8)). split.
    + apply in_or_app. left. apply in_map_iff.
      exists (bufsize / 8). split; [reflexivity |].
      apply in_zrange. pose proof (Z.div_pos bufsize 8). lia.
    + pose proof (Z.div_mod bufsize 8 ltac:(lia)).
      pose proof (Z.mod_pos_bound bufsize 8 ltac:(lia)). lia.
Qed.

Lemma init_buffer_uneven_split_witness :
  1 < 3 /\ 0 <= 20 * 2 ^ 20 /\ (20 * 2 ^ 20 / 3) mod 8 <> 0 /\
  snd (fst (init_buffer 4 3 (fun t k => 100 * t + Z.of_nat k) 16 (20 * 2 ^ 20)
              boot_state))
  = false.
Proof.
  assert (H1 : 1 < 3) by lia.
  assert (H2 : 0 <= 20 * 2 ^ 20) by (vm_compute; congruence).
  assert (H3 : (20 * 2 ^ 20 / 3) mod 8 <> 0) by (vm_compute; congruence).
  split; [exact H1 |]. split; [exact H2 |]. split; [exact H3 |].
  exact (proj1 (init_buffer_uneven_split 4 3 (fun t k => 100 * t + Z.of_nat k)
                  16 (20 * 2 ^ 20) boot_state H1 H2 H3)).
Defined.

(* ===================================================================== *)
(** * The serial program [sse.cpp] *)
(* ===================================================================== *)

Module SseFacts.

Lemma count_bits_naive_same : Sse.count_bits_naive = count_bits_naive.
Proof. reflexivity. Qed.

Lemma count_bits_fast_chunked_same :
  Sse.count_bits_fast_chunked = count_bits_asm_chunked.
Proof. reflexivity. Qed.

Lemma chunk_events_succ p n :
  0 <= n ->
  chunk_events 8 p (zrange 0 (n + 1))
  = Ld64 p :: chunk_events 8 (p + 8) (zrange 0 n).
Proof.
  intros Hn. unfold chunk_events. rewrite (zrange_cons 0 (n + 1)) by lia.
  cbn [map]. rewrite Z.mul_0_l, Z.add_0_r. f_equal.
  rewrite zrange_shift, map_map. apply map_ext. intros i. f_equal. ring.
Qed.

Section Sse.
Variable m : Z -> uchar.
Variable T : Z -> Z.

(** The loop of [count_bits_intrinsic_chunked]: the pointer advances by
    one chunk per turn. *)
Lemma intrinsic_loop_run (l : list Z) : forall p total st,
  store_is m T st -> to_long total = total ->
  foldM (fun (_ : Z) (s : Z * Z) =>
           let (buffer, total) := s in
           chunk <- load64 buffer ;;
           ret (buffer + Sse.chunk_size,
                to_long (total + to_int (popcount chunk))))
        l (p, total) st
  = ((p + 8 * Z.of_nat (length l),
      to_long (total + bits_in m p (8 * Z.of_nat (length l)))),
     emit st (chunk_events 8 p (zrange 0 (Z.of_nat (length l))))).
Proof.
  induction l as [| x l IH]; intros p total st Hst Htot.
  - cbn [foldM length]. rewrite ret_run. change (Z.of_nat 0) with 0.
    rewrite Z.mul_0_r, Z.add_0_r, bits_in_nil, Z.add_0_r, Htot by lia.
    change (zrange 0 0) with (@nil Z). unfold chunk_events. cbn [map].
    rewrite emit_nil. reflexivity.
  - assert (Hb : (chunk <- load64 p ;;
                  ret (p + Sse.chunk_size,
                       to_long (total + to_int (popcount chunk)))) st
                 = ((p + 8, to_long (total + bits_in m p 8)),
                    emit st [Ld64 p])).
    { unfold bind, load64, ret. destruct Hst as [Hm HT]. rewrite Hm.
      fold (word_at m p).
      pose proof (word_at_range m p) as Hw.
      pose proof (popcount64_bound _ Hw) as Hp.
      assert (Ei : to_int (popcount (word_at m p)) = popcount (word_at m p)).
      { unfold to_int. rewrite Z.mod_small; lia. }
      rewrite Ei, popcount_word_at. reflexivity. }
    cbn [foldM]. rewrite bind_run. cbv beta iota. rewrite Hb. cbn [fst snd].
    rewrite IH by (auto using store_emit, to_long_idem).
    rewrite to_long_add_l, emit_emit. cbn [length].
    replace (Z.of_nat (S (length l))) with (Z.of_nat (length l) + 1) by lia.
    f_equal.
    + f_equal; [ring |]. f_equal. rewrite <- Z.add_assoc. f_equal.
      replace (8 * (Z.of_nat (length l) + 1))
        with (8 + 8 * Z.of_nat (length l)) by ring.
      rewrite bits_in_split by lia. reflexivity.
    + f_equal. rewrite chunk_events_succ by lia. reflexivity.
Qed.

Lemma count_bits_intrinsic_chunked_run buffer bufsize st :
  store_is m T st -> 0 <= bufsize ->
  Sse.count_bits_intrinsic_chunked buffer bufsize st
  = (to_long (bits_in m buffer (8 * (bufsize / 8))),
     emit st (chunk_events 8 buffer (zrange 0 (bufsize / 8)))).
Proof.
  intros Hst Hs. unfold Sse.count_bits_intrinsic_chunked. cbv zeta.
  change (bufsize / Sse.chunk_size) with (bufsize / 8).
  rewrite bind_run.
  rewrite (intrinsic_loop_run (zrange 0 (bufsize / 8)) buffer 0 st Hst eq_refl).
  rewrite zrange_length, Z.sub_0_r, Z2Nat.id
    by (apply Z.div_pos; lia).
  rewrite ret_run. cbn [fst snd]. rewrite Z.add_0_l. reflexivity.
Qed.

(** [count_bits_chunked] over a function that counts a buffer of whole
    chunks. *)
Lemma count_bits_chunked_run chunked_func evs buffer bufsize st :
  0 <= bufsize < 2 ^ 64 ->
  (forall st', store_is m T st' ->
     chunked_func buffer (8 * (bufsize / 8)) st'
     = (to_long (bits_in m buffer (8 * (bufsize / 8))), emit st' evs)) ->
  store_is m T st ->
  Sse.count_bits_chunked chunked_func buffer bufsize st
  = (to_long (bits_in m buffer bufsize),
     emit st (evs ++ naive_events (buffer + 8 * (bufsize / 8)) (bufsize mod 8))).
Proof.
  intros Hs Hf Hst. unfold Sse.count_bits_chunked.
  change Sse.chunk_size with 8. cbv zeta.
  assert (Ec : to_size_t (bufsize / 8 * 8) = 8 * (bufsize / 8)).
  { unfold to_size_t. rewrite to_ulong_id; [ring |].
    pose proof (Z.mul_div_le bufsize 8). pose proof (Z.div_pos bufsize 8). lia. }
  assert (El : to_size_t (bufsize - 8 * (bufsize / 8)) = bufsize mod 8).
  { unfold to_size_t.
    pose proof (Z.div_mod bufsize 8 ltac:(lia)).
    pose proof (Z.mod_pos_bound bufsize 8 ltac:(lia)).
    rewrite to_ulong_id; lia. }
  rewrite Ec, El.
  rewrite bind_run, (Hf st Hst). cbn [fst snd].
  rewrite bind_run.
  rewrite (count_bits_naive_run m T) by (apply store_emit; exact Hst).
  cbn [fst snd]. rewrite ret_run.
  rewrite to_long_add_l, to_long_add_r, emit_emit.
  rewrite bits_in_div_mod by lia. reflexivity.
Qed.

End Sse.

(** X14 - [count_bits_chunked] of [sse.cpp].  Given any function that
    counts the set bits of a buffer of whole chunks and only reads,
    [count_bits_chunked] counts a buffer of any length: it calls the
    function on the first [chunk_size * (bufsize / chunk_size)] bytes
    and [count_bits_naive] on the [bufsize mod chunk_size] bytes left,
    and returns the number of set bits of the whole buffer, the one
    [count_bits_naive] returns; its loads are those of the two calls. *)
Theorem count_bits_chunked_any_length :
  forall chunked_func evs buffer bufsize st,
    0 <= bufsize < 2 ^ 64 ->
    let whole := Sse.chunk_size * (bufsize / Sse.chunk_size) in
    (forall st', mem st' = mem st ->
       chunked_func buffer whole st'
       = (fst (Sse.count_bits_naive buffer whole st), emit st' evs)) ->
    fst (Sse.count_bits_chunked chunked_func buffer bufsize st)
    = fst (Sse.count_bits_naive buffer bufsize st) /\
    Permutation
      (loads (Sse.count_bits_chunked chunked_func buffer bufsize) st)
      (evs ++ loads (Sse.count_bits_naive (buffer + whole)
                       (bufsize mod Sse.chunk_size)) st).
Proof.
  intros chunked_func evs buffer bufsize st Hs whole Hf.
  pose proof (store_is_self st) as Hst.
  subst whole. change Sse.chunk_size with 8 in *.
  rewrite !count_bits_naive_same in *.
  assert (Hf' : forall st', store_is (mem st) (lookup_table st') st' ->
            chunked_func buffer (8 * (bufsize / 8)) st'
            = (to_long (bits_in (mem st) buffer (8 * (bufsize / 8))), emit st' evs)).
  { intros st' [Hm _]. rewrite (Hf st' Hm). f_equal.
    apply (count_bits_naive_correct (mem st) (lookup_table st)). exact Hst. }
  pose proof (count_bits_chunked_run (mem st) (lookup_table st) chunked_func evs
                buffer bufsize st Hs) as R.
  rewrite R; [| intros st' Hst'; apply Hf'; destruct Hst' as [Hm _];
                 split; [exact Hm | reflexivity] | exact Hst].
  cbn [fst]. split.
  - symmetry. apply (count_bits_naive_correct (mem st) (lookup_table st)).
    exact Hst.
  - rewrite (naive_loads (mem st) (lookup_table st)) by exact Hst.
    replace (loads (Sse.count_bits_chunked chunked_func buffer bufsize) st)
      with (evs ++ naive_events (buffer + 8 * (bufsize / 8)) (bufsize mod 8));
      [apply Permutation_refl |].
    symmetry. apply loads_emit. rewrite R; [reflexivity | | exact Hst].
    intros st' Hst'. apply Hf'. destruct Hst' as [Hm _].
    split; [exact Hm | reflexivity].
Qed.

Lemma count_bits_chunked_any_length_witness :
  0 <= 21 < 2 ^ 64 /\
  (forall st', mem st' = mem sample_state ->
     Sse.count_bits_fast_chunked 3 (Sse.chunk_size * (21 / Sse.chunk_size)) st'
     = (fst (Sse.count_bits_naive 3 (Sse.chunk_size * (21 / Sse.chunk_size))
               sample_state),
        emit st' [Ld64 3; Ld64 11])) /\
  fst (Sse.count_bits_chunked Sse.count_bits_fast_chunked 3 21 sample_state)
  = fst (Sse.count_bits_naive 3 21 sample_state).
Proof.
  assert (H1 : 0 <= 21 < 2 ^ 64) by (vm_compute; split; congruence).
  assert (H2 : forall st', mem st' = mem sample_state ->
     Sse.count_bits_fast_chunked 3 (Sse.chunk_size * (21 / Sse.chunk_size)) st'
     = (fst (Sse.count_bits_naive 3 (Sse.chunk_size * (21 / Sse.chunk_size))
               sample_state),
        emit st' [Ld64 3; Ld64 11])).
  { intros st' Hm.
    rewrite count_bits_fast_chunked_same, count_bits_naive_same.
    change (Sse.chunk_size * (21 / Sse.chunk_size)) with 16.
    assert (Hw : 0 <= 16 < 2 ^ 64) by (vm_compute; split; congruence).
    rewrite (count_bits_asm_chunked_run (mem sample_state) (lookup_table st')
               3 16 st' (conj Hm eq_refl) Hw).
    rewrite (count_bits_naive_correct (mem sample_state) (lookup_table sample_state))
      by apply store_is_self.
    reflexivity. }
  split; [exact H1 |]. split; [exact H2 |].
  exact (proj1 (count_bits_chunked_any_length Sse.count_bits_fast_chunked
                  [Ld64 3; Ld64 11] 3 21 sample_state H1 H2)).
Defined.

Lemma sse_functions_run st buffer bufsize :
  0 <= bufsize < 2 ^ 64 ->
  let evs := chunk_events 8 buffer (zrange 0 (bufsize / 8))
             ++ naive_events (buffer + 8 * (bufsize / 8)) (bufsize mod 8) in
  Sse.count_bits_intrinsic buffer bufsize st
  = (to_long (bits_in (mem st) buffer bufsize), emit st evs) /\
  Sse.count_bits_fast buffer bufsize st
  = (to_long (bits_in (mem st) buffer bufsize), emit st evs) /\
  Forall (in_buffer buffer bufsize) evs.
Proof.
  intros Hs evs.
  pose proof (store_is_self st) as Hst.
  set (m := mem st) in *. set (T := lookup_table st) in *.
  assert (Hw : 0 <= 8 * (bufsize / 8) < 2 ^ 64).
  { pose proof (Z.mul_div_le bufsize 8). pose proof (Z.div_pos bufsize 8). lia. }
  assert (Hd : 8 * (bufsize / 8) / 8 = bufsize / 8).
  { rewrite (Z.mul_comm 8), Z.div_mul by lia. reflexivity. }
  split; [| split].
  - apply (count_bits_chunked_run m T); [exact Hs | | exact Hst].
    intros st' Hst'.
    rewrite (count_bits_intrinsic_chunked_run m T) by (try assumption; lia).
    rewrite Hd. reflexivity.
  - apply (count_bits_chunked_run m T); [exact Hs | | exact Hst].
    intros st' Hst'. rewrite count_bits_fast_chunked_same.
    rewrite (count_bits_asm_chunked_run m T) by assumption.
    rewrite Hd. reflexivity.
  - apply Forall_app. split.
    + rewrite <- (Z.add_0_r buffer) at 2.
      apply chunk_events_in_buffer; [lia |].
      intros i Hi. rewrite in_zrange in Hi.
      pose proof (Z.mul_div_le bufsize 8). lia.
    + apply naive_events_in_buffer.
      * pose proof (Z.div_pos bufsize 8). lia.
      * pose proof (Z.div_mod bufsize 8). lia.
Qed.

(** X15 - the two fast functions of [sse.cpp].  For every buffer,
    [count_bits_intrinsic] and [count_bits_fast] return what
    [count_bits_naive] returns.  Both load the [bufsize / chunk_size]
    whole chunks, each once, and the [bufsize mod chunk_size] bytes
    left as [count_bits_naive] loads them: no load falls outside the
    buffer, and the memory is left as it was. *)
Theorem sse_functions_agree :
  forall st buffer bufsize,
    0 <= bufsize < 2 ^ 64 ->
    let naive := fst (Sse.count_bits_naive buffer bufsize st) in
    let evs :=
      map (fun i => Ld64 (buffer + i * Sse.chunk_size))
          (zrange 0 (bufsize / Sse.chunk_size))
      ++ loads (Sse.count_bits_naive
                  (buffer + Sse.chunk_size * (bufsize / Sse.chunk_size))
                  (bufsize mod Sse.chunk_size)) st in
    fst (Sse.count_bits_intrinsic buffer bufsize st) = naive /\
    fst (Sse.count_bits_fast buffer bufsize st) = naive /\
    Permutation (loads (Sse.count_bits_intrinsic buffer bufsize) st) evs /\
    Permutation (loads (Sse.count_bits_fast buffer bufsize) st) evs /\
    Forall (in_buffer buffer bufsize)
      (loads (Sse.count_bits_intrinsic buffer bufsize) st) /\
    Forall (in_buffer buffer bufsize)
      (loads (Sse.count_bits_fast buffer bufsize) st) /\
    mem (snd (Sse.count_bits_intrinsic buffer bufsize st)) = mem st /\
    mem (snd (Sse.count_bits_fast buffer bufsize st)) = mem st.
Proof.
  intros st buffer bufsize Hs naive evs.
  pose proof (store_is_self st) as Hst.
  destruct (sse_functions_run st buffer bufsize Hs) as (Ri & Rf & Hin).
  cbv zeta in Ri, Rf, Hin.
  assert (En : naive = to_long (bits_in (mem st) buffer bufsize)).
  { unfold naive. rewrite count_bits_naive_same.
    apply (count_bits_naive_correct (mem st) (lookup_table st)). exact Hst. }
  assert (Ee : evs = chunk_events 8 buffer (zrange 0 (bufsize / 8))
                     ++ naive_events (buffer + 8 * (bufsize / 8)) (bufsize mod 8)).
  { unfold evs. rewrite count_bits_naive_same.
    rewrite (naive_loads (mem st) (lookup_table st)) by exact Hst. reflexivity. }
  assert (Li : loads (Sse.count_bits_intrinsic buffer bufsize) st = evs)
    by (rewrite Ee; apply loads_emit; rewrite Ri; reflexivity).
  assert (Lf : loads (Sse.count_bits_fast buffer bufsize) st = evs)
    by (rewrite Ee; apply loads_emit; rewrite Rf; reflexivity).
  rewrite Li, Lf, En, Ri, Rf. cbn [fst snd]. rewrite Ee.
  split; [reflexivity |]. split; [reflexivity |].
  split; [apply Permutation_refl |]. split; [apply Permutation_refl |].
  split; [exact Hin |]. split; [exact Hin |]. split; reflexivity.
Qed.

Lemma sse_functions_agree_witness :
  0 <= 21 < 2 ^ 64 /\
  fst (Sse.count_bits_intrinsic 3 21 sample_state)
  = fst (Sse.count_bits_naive 3 21 sample_state) /\
  fst (Sse.count_bits_fast 3 21 sample_state)
  = fst (Sse.count_bits_naive 3 21 sample_state).
Proof.
  assert (H : 0 <= 21 < 2 ^ 64) by (vm_compute; split; congruence).
  destruct (sse_functions_agree sample_state 3 21 H) as (A & B & _).
  split; [exact H |]. split; [exact A | exact B].
Defined.

(** X16 - the region that [main] of [sse.cpp] counts.  [main] has no
    check of the command line: it counts the [megs_of_data * 2 ^ 20 - 1]
    bytes that follow the first byte of the array.  For 1 up to
    [2 ^ 44 - 1] megabytes this region lies inside the array, it leaves
    7 bytes to the naive tail, and the three timed functions load
    nothing outside the array.  For 0 megabytes (and for every multiple
    of [2 ^ 44]) the array is empty and the size wraps around to
    [2 ^ 64 - 1]: the first load already falls outside the array. *)
Theorem sse_main_region :
  forall megs_of_data buffer,
    0 <= megs_of_data < 2 ^ 64 ->
    let p := fst (Sse.main_region megs_of_data buffer) in
    let len := snd (Sse.main_region megs_of_data buffer) in
    p = buffer + 1 /\
    (1 <= megs_of_data < 2 ^ 44 ->
     len = megs_of_data * 2 ^ 20 - 1 /\
     len mod Sse.chunk_size = 7 /\
     forall st,
       Forall (in_buffer buffer (megs_of_data * 2 ^ 20))
         (loads (Sse.count_bits_naive p len) st) /\
       Forall (in_buffer buffer (megs_of_data * 2 ^ 20))
         (loads (Sse.count_bits_intrinsic p len) st) /\
       Forall (in_buffer buffer (megs_of_data * 2 ^ 20))
         (loads (Sse.count_bits_fast p len) st)) /\
    (megs_of_data mod 2 ^ 44 = 0 ->
     len = 2 ^ 64 - 1 /\
     forall st,
       In (Ld8 (buffer + 1)) (loads (Sse.count_bits_naive p len) st) /\
       ~ in_buffer buffer 0 (Ld8 (buffer + 1))).
Proof.
  intros megs buffer Hm p len.
  assert (Eb : to_size_t (to_size_t (megs * 1024) * 1024)
               = (megs * 2 ^ 20) mod 2 ^ 64).
  { unfold to_size_t, to_ulong. rewrite Zmult_mod_idemp_l. f_equal. ring. }
  assert (El : len = to_size_t ((megs * 2 ^ 20) mod 2 ^ 64 - 1)).
  { unfold len, Sse.main_region. cbn [snd]. rewrite Eb. reflexivity. }
  split; [reflexivity |]. split.
  - intros Hr.
    assert (E : len = megs * 2 ^ 20 - 1).
    { rewrite El. rewrite (Z.mod_small (megs * 2 ^ 20)) by lia.
      unfold to_size_t. apply to_ulong_id. lia. }
    split; [exact E |]. split.
    + rewrite E. change Sse.chunk_size with 8.
      replace (megs * 2 ^ 20 - 1) with (7 + (megs * 2 ^ 17 - 1) * 8) by ring.
      rewrite Z.mod_add by lia. reflexivity.
    + intros st.
      assert (Hl : 0 <= len < 2 ^ 64) by lia.
      destruct (sse_functions_run st p len Hl) as (Ri & Rf & Hin).
      cbv zeta in Ri, Rf, Hin.
      assert (Hini : Forall (in_buffer p len)
                       (loads (Sse.count_bits_intrinsic p len) st)).
      { erewrite loads_emit; [exact Hin | rewrite Ri; reflexivity]. }
      assert (Hinf : Forall (in_buffer p len)
                       (loads (Sse.count_bits_fast p len) st)).
      { erewrite loads_emit; [exact Hin | rewrite Rf; reflexivity]. }
      assert (Hsub : forall e, in_buffer p len e ->
                               in_buffer buffer (megs * 2 ^ 20) e).
      { intros e. unfold p, Sse.main_region. cbn [fst].
        destruct e as [a | a]; cbn [in_buffer]; lia. }
      split; [| split].
      * rewrite count_bits_naive_same.
        rewrite (naive_loads (mem st) (lookup_table st)) by apply store_is_self.
        eapply Forall_impl; [exact Hsub |].
        rewrite <- (Z.add_0_r p) at 2.
        apply naive_events_in_buffer; lia.
      * eapply Forall_impl; [exact Hsub | exact Hini].
      * eapply Forall_impl; [exact Hsub | exact Hinf].
  - intros H0.
    assert (E : len = 2 ^ 64 - 1).
    { rewrite El. change (2 ^ 64) with (2 ^ 44 * 2 ^ 20) at 1.
      rewrite Z.mul_mod_distr_r, H0 by lia.
      reflexivity. }
    split; [exact E |]. intros st. split.
    + rewrite count_bits_naive_same.
      rewrite (naive_loads (mem st) (lookup_table st)) by apply store_is_self.
      rewrite E. unfold naive_events.
      rewrite (zrange_cons 0 (2 ^ 64 - 1)) by lia.
      cbn [flat_map]. apply in_or_app. left.
      apply in_map_iff. exists 0. split.
      * unfold p, Sse.main_region. cbn [fst]. f_equal. ring.
      * apply in_zrange. lia.
    + cbn [in_buffer]. lia.
Qed.

Lemma sse_main_region_witness :
  0 <= 100 < 2 ^ 64 /\
  1 <= 100 < 2 ^ 44 /\
  0 <= 0 < 2 ^ 64 /\
  0 mod 2 ^ 44 = 0 /\
  fst (Sse.main_region 100 4096) = 4096 + 1 /\
  snd (Sse.main_region 100 4096) = 100 * 2 ^ 20 - 1 /\
  snd (Sse.main_region 0 4096) = 2 ^ 64 - 1.
Proof.
  assert (H1 : 0 <= 100 < 2 ^ 64) by (vm_compute; split; congruence).
  assert (H2 : 1 <= 100 < 2 ^ 44) by (vm_compute; split; congruence).
  assert (H3 : 0 <= 0 < 2 ^ 64) by (vm_compute; split; congruence).
  assert (H4 : 0 mod 2 ^ 44 = 0) by reflexivity.
  destruct (sse_main_region 100 4096 H1) as (A & B & _).
  destruct (sse_main_region 0 4096 H3) as (_ & _ & C).
  split; [exact H1 |]. split; [exact H2 |]. split; [exact H3 |].
  split; [exact H4 |]. split; [exact A |].
  split; [exact (proj1 (B H2)) | exact (proj1 (C H4))].
Defined.

End SseFacts.

(* ===================================================================== *)
(** * More on the table, the assembly variant and the filled buffer *)
(* ===================================================================== *)

(** X17 - [init_lookup_table] overwrites the whole table.  Whatever the
    256 entries held before, afterwards entry [i] is the number of set
    bits of [i]; so a second call changes no entry, and two runs started
    from different tables end with the same 256 entries. *)
Theorem init_lookup_table_idempotent :
  forall st st' i,
    0 <= i < 256 ->
    lookup_table (snd (init_lookup_table (snd (init_lookup_table st)))) i
    = lookup_table (snd (init_lookup_table st)) i /\
    lookup_table (snd (init_lookup_table st)) i
    = lookup_table (snd (init_lookup_table st')) i.
Proof.
  intros st st' i Hi.
  destruct (init_lookup_table_run st) as (_ & _ & R1 & _).
  destruct (init_lookup_table_run st') as (_ & _ & R2 & _).
  destruct (init_lookup_table_run (snd (init_lookup_table st)))
    as (_ & _ & R3 & _).
  rewrite (R1 i Hi), (R2 i Hi), (R3 i Hi). split; reflexivity.
Qed.

Lemma init_lookup_table_idempotent_witness :
  0 <= 177 < 256 /\
  lookup_table (snd (init_lookup_table (snd (init_lookup_table boot_state)))) 177
  = lookup_table (snd (init_lookup_table boot_state)) 177.
Proof.
  assert (H : 0 <= 177 < 256) by lia.
  split; [exact H |].
  exact (proj1 (init_lookup_table_idempotent boot_state boot_state 177 H)).
Defined.

(** X18 - [count_bits_asm] on a buffer with fewer chunks than cores.
    When [bufsize / chunk_size] is less than the number of cores (as the
    division sees it, converted to [size_t]: also when [num_threads()]
    is -1), every core gets zero bytes: the [popcnt] loop is never
    entered, the whole buffer is counted by [count_bits_naive], and the
    total is that of [count_bits_naive]. *)
Theorem count_bits_asm_small_buffer :
  forall st nt t buffer bufsize,
    0 <= bufsize < 2 ^ 64 ->
    bufsize / chunk_size < to_size_t (num_threads nt) ->
    asm_bufsize_per_core (num_threads nt) bufsize = 0 /\
    loads (count_bits_asm nt t buffer bufsize) st
    = loads (count_bits_naive buffer bufsize) st /\
    fst (count_bits_asm nt t buffer bufsize st)
    = fst (count_bits_naive buffer bufsize st).
Proof.
  intros st nt t buffer bufsize Hs Hsmall.
  pose proof (store_is_self st) as Hst.
  assert (Eb : asm_bufsize_per_core (num_threads nt) bufsize = 0).
  { unfold asm_bufsize_per_core. cbv zeta.
    rewrite (Z.div_small (bufsize / chunk_size)); [reflexivity |].
    split; [apply Z.div_pos; unfold chunk_size; lia | exact Hsmall]. }
  assert (Ec : asm_chunked_bufsize (num_threads nt) bufsize = 0).
  { unfold asm_chunked_bufsize. rewrite Eb, Z.mul_0_r. reflexivity. }
  pose proof (count_bits_asm_run (mem st) (lookup_table st) nt t buffer bufsize
                st Hst) as R.
  cbv zeta in R. rewrite Eb, Ec in R.
  change (8 * (0 / 8)) with 0 in R. change (0 / 8) with 0 in R.
  rewrite Z.add_0_r, Z.sub_0_r in R.
  assert (Et : to_size_t bufsize = bufsize) by (apply to_ulong_id; exact Hs).
  rewrite Et in R.
  rewrite sumZ_map_zero in R by (intros core _; apply bits_in_nil; lia).
  assert (Ee : flat_map (fun core =>
                 chunk_events 8 (asm_mybuffer (num_threads nt) buffer bufsize core)
                   (zrange 0 0)) (team_chunks t) = []).
  { clear. induction (team_chunks t) as [| c l IH]; [reflexivity |].
    cbn [flat_map]. rewrite IH. reflexivity. }
  rewrite Ee in R. cbn [app] in R. rewrite Z.add_0_l in R.
  split; [exact Eb |]. split.
  - rewrite (naive_loads (mem st) (lookup_table st)) by exact Hst.
    apply loads_emit. rewrite R. reflexivity.
  - rewrite R. cbn [fst].
    symmetry. apply (count_bits_naive_correct (mem st) (lookup_table st)).
    exact Hst.
Qed.

Lemma count_bits_asm_small_buffer_witness :
  0 <= 21 < 2 ^ 64 /\
  21 / chunk_size < to_size_t (num_threads 4) /\
  loads (count_bits_asm 4 (contiguous_team [1; 1; 1; 1]) 3 21) sample_state
  = loads (count_bits_naive 3 21) sample_state.
Proof.
  assert (H1 : 0 <= 21 < 2 ^ 64) by (vm_compute; split; congruence).
  assert (H2 : 21 / chunk_size < to_size_t (num_threads 4))
    by (vm_compute; reflexivity).
  split; [exact H1 |]. split; [exact H2 |].
  exact (proj1 (proj2 (count_bits_asm_small_buffer sample_state 4
                         (contiguous_team [1; 1; 1; 1]) 3 21 H1 H2))).
Defined.

Lemma sum_range_split (f : Z -> Z) a b c :
  a <= b <= c ->
  sumZ (map f (zrange a c)) = sumZ (map f (zrange a b)) + sumZ (map f (zrange b c)).
Proof.
  intros H. rewrite (zrange_app a b c H), map_app, sumZ_app. reflexivity.
Qed.

Lemma sum_range_shift (f : Z -> Z) d n :
  sumZ (map f (zrange d (d + n))) = sumZ (map (fun i => f (d + i)) (zrange 0 n)).
Proof.
  replace (zrange d (d + n)) with (zrange (0 + d) (n + d)) by (f_equal; lia).
  rewrite zrange_shift, map_map. f_equal. apply map_ext. intros i.
  f_equal. ring.
Qed.

Lemma sum_map_ext_in {A} (f g : A -> Z) l :
  (forall x, In x l -> f x = g x) -> sumZ (map f l) = sumZ (map g l).
Proof. intros H. f_equal. apply map_ext_in. exact H. Qed.

(** [k] blocks of [q] words each. *)
Lemma sum_blocks (f : Z -> Z) (g : Z -> Z -> Z) q (k : nat) :
  0 <= q ->
  (forall t i, 0 <= t < Z.of_nat k -> 0 <= i < q -> f (q * t + i) = g t i) ->
  sumZ (map (fun t => sumZ (map (g t) (zrange 0 q))) (zrange 0 (Z.of_nat k)))
  = sumZ (map f (zrange 0 (q * Z.of_nat k))).
Proof.
  intros Hq. induction k as [| k IH]; intros H.
  - change (Z.of_nat 0) with 0. rewrite Z.mul_0_r. reflexivity.
  - replace (Z.of_nat (S k)) with (Z.of_nat k + 1) in * by lia.
    rewrite (sum_range_split _ 0 (Z.of_nat k) (Z.of_nat k + 1)) by lia.
    rewrite IH by (intros t i Ht Hi; apply H; lia).
    rewrite (sum_range_split f 0 (q * Z.of_nat k) (q * (Z.of_nat k + 1))) by nia.
    f_equal.
    rewrite (zrange_cons (Z.of_nat k)), (zrange_nil (Z.of_nat k + 1)) by lia.
    cbn [map]. rewrite sumZ_cons. cbn [sumZ fold_right]. rewrite Z.add_0_r.
    replace (q * (Z.of_nat k + 1)) with (q * Z.of_nat k + q) by ring.
    rewrite sum_range_shift. apply sum_map_ext_in.
    intros i Hi. rewrite in_zrange in Hi. symmetry. apply H; lia.
Qed.

(** X19 - counting the buffer that [init_buffer] has filled.  After an
    even split of the array among the threads, [count_bits_naive] on the
    array returns the sum, over the threads and over the values each
    generator returned to fill its share, of the number of set bits of
    the value as an [unsigned long]: every value that was stored is
    counted exactly once and nothing else is. *)
Theorem init_buffer_then_count :
  forall fuel num_threads dist buffer bufsize st,
    1 <= num_threads ->
    0 <= bufsize < 2 ^ 64 ->
    bufsize mod 8 = 0 ->
    (bufsize / num_threads) mod 8 = 0 ->
    bufsize / 8 < Z.of_nat fuel ->
    let st' := snd (init_buffer fuel num_threads dist buffer bufsize st) in
    fst (count_bits_naive buffer bufsize st')
    = to_long
        (sumZ (map (fun thread_id =>
                      sumZ (map (fun i =>
                                   popcount (to_ulong (dist thread_id (Z.to_nat i))))
                                (zrange 0 (init_share num_threads bufsize thread_id / 8))))
                   (zrange 0 num_threads))).
Proof.
  intros fuel T dist buffer bufsize st HT Hs H8 Hq8 Hfuel st'.
  pose proof (init_buffer_words fuel T dist buffer bufsize st HT ltac:(lia)
                H8 Hq8 Hfuel) as W.
  cbv zeta in W. fold st' in W.
  rewrite (count_bits_naive_correct (mem st') (lookup_table st'))
    by apply store_is_self.
  f_equal.
  set (N := bufsize / 8). set (q := bufsize / T / 8).
  assert (HN : bufsize = 8 * N)
    by (unfold N; pose proof (Z.div_mod bufsize 8); lia).
  assert (Hq : bufsize / T = 8 * q)
    by (unfold q; pose proof (Z.div_mod (bufsize / T) 8); lia).
  assert (Hq0 : 0 <= q).
  { pose proof (Z.div_pos bufsize T). lia. }
  assert (HqT : T * (8 * q) <= bufsize)
    by (rewrite <- Hq; apply Z.mul_div_le; lia).
  set (f := fun j => popcount (word_at (mem st') (buffer + j * 8))).
  set (g := fun t i => popcount (to_ulong (dist t (Z.to_nat i)))).
  assert (Hfg : forall t i,
             0 <= t < T -> 0 <= i ->
             8 * q * t + 8 * i + 8 <= (if t =? T - 1 then bufsize
                                       else 8 * q * (t + 1)) ->
             f (q * t + i) = g t i).
  { intros t i Ht Hi Hend. unfold f, g. f_equal.
    replace (buffer + (q * t + i) * 8) with (buffer + bufsize / T * t + 8 * i)
      by (rewrite Hq; ring).
    apply W; [exact Ht | exact Hi |]. rewrite Hq. exact Hend. }
  assert (Hshare : forall t, 0 <= t < T ->
             init_share T bufsize t / 8 = if t =? T - 1 then N - q * (T - 1) else q).
  { intros t Ht. unfold init_share. cbv zeta. rewrite Hq.
    destruct (Z.eqb_spec t (T - 1)) as [-> | Hne].
    - replace (bufsize - 8 * q * (T - 1)) with ((N - q * (T - 1)) * 8) by lia.
      apply Z.div_mul. lia.
    - replace (8 * q * (t + 1) - 8 * q * t) with (q * 8) by ring.
      apply Z.div_mul. lia. }
  transitivity (sumZ (map f (zrange 0 N))).
  { rewrite HN. rewrite <- (bits_in_chunks (mem st') buffer N) by lia.
    reflexivity. }
  rewrite (sum_range_split f 0 (q * (T - 1)) N) by nia.
  rewrite (sum_range_split _ 0 (T - 1) T) by lia.
  f_equal.
  - assert (B : sumZ (map (fun t => sumZ (map (g t) (zrange 0 q)))
                           (zrange 0 (Z.of_nat (Z.to_nat (T - 1)))))
                 = sumZ (map f (zrange 0 (q * Z.of_nat (Z.to_nat (T - 1)))))).
    { apply (sum_blocks f g q (Z.to_nat (T - 1)) Hq0).
      intros t i Ht Hi. apply Hfg; [lia | lia |].
      destruct (Z.eqb_spec t (T - 1)) as [C | _]; [lia | nia]. }
    rewrite Z2Nat.id in B by lia. rewrite <- B.
    apply sum_map_ext_in. intros t Ht. rewrite in_zrange in Ht.
    rewrite Hshare by lia.
    destruct (Z.eqb_spec t (T - 1)) as [C | _]; [lia | reflexivity].
  - rewrite (zrange_cons (T - 1)), (zrange_nil (T - 1 + 1)) by lia.
    cbn [map]. rewrite sumZ_cons. cbn [sumZ fold_right]. rewrite Z.add_0_r.
    rewrite Hshare by lia. rewrite Z.eqb_refl.
    replace N with (q * (T - 1) + (N - q * (T - 1))) at 1 by ring.
    rewrite sum_range_shift. apply sum_map_ext_in.
    intros i Hi. rewrite in_zrange in Hi.
    apply Hfg; [lia | lia |]. rewrite Z.eqb_refl. nia.
Qed.

Lemma init_buffer_then_count_witness :
  1 <= 2 /\ 0 <= 32 < 2 ^ 64 /\ 32 mod 8 = 0 /\ (32 / 2) mod 8 = 0 /\
  32 / 8 < Z.of_nat 5 /\
  fst (count_bits_naive 16 32
         (snd (init_buffer 5 2 (fun t k => 100 * t + Z.of_nat k) 16 32 boot_state)))
  = to_long
      (sumZ (map (fun thread_id =>
                    sumZ (map (fun i =>
                                 popcount (to_ulong (100 * thread_id
                                                     + Z.of_nat (Z.to_nat i))))
                              (zrange 0 (init_share 2 32 thread_id / 8))))
                 (zrange 0 2))).
Proof.
  assert (H1 : 1 <= 2) by lia.
  assert (H2 : 0 <= 32 < 2 ^ 64) by (vm_compute; split; congruence).
  assert (H3 : 32 mod 8 = 0) by reflexivity.
  assert (H4 : (32 / 2) mod 8 = 0) by reflexivity.
  assert (H5 : 32 / 8 < Z.of_nat 5) by (vm_compute; reflexivity).
  split; [exact H1 |]. split; [exact H2 |]. split; [exact H3 |].
  split; [exact H4 |]. split; [exact H5 |].
  exact (init_buffer_then_count 5 2 (fun t k => 100 * t + Z.of_nat k) 16 32
           boot_state H1 H2 H3 H4 H5).
Defined.

(** X20 - the harness with any kernel.  For every kernel that returns a
    value depending on the chunk only and leaves the state alone (even
    one that does not count bits), and for every team that shares out
    the chunks, [count_bits_kernel] and [count_bits_kernel_double]
    return the sum of the results of the kernel over the
    [bufsize / chunk_size] whole chunks, each taken once, plus what
    [count_bits_naive] returns for the bytes left. *)
Theorem harness_sums_kernel :
  forall func kv st t buffer bufsize,
    pure_kernel (lookup_table st) func kv ->
    0 <= bufsize < 2 ^ 64 ->
    valid_team (bufsize / chunk_size) t ->
    let total :=
      sumZ (map (fun i => kv (word_at (mem st) (buffer + i * chunk_size)))
                (zrange 0 (bufsize / chunk_size))) in
    let tail :=
      fst (count_bits_naive (buffer + chunk_size * (bufsize / chunk_size))
                            (bufsize mod chunk_size) st) in
    fst (count_bits_kernel func t buffer bufsize st) = to_long (total + tail) /\
    fst (count_bits_kernel_double func t buffer bufsize st)
    = to_long (total + tail).
Proof.
  intros func kv st t buffer bufsize Hk Hs Ht total tail.
  pose proof (store_is_self st) as Hst.
  assert (E : fst (count_bits_kernel func t buffer bufsize st)
              = to_long (total + tail)).
  { rewrite (count_bits_kernel_run (mem st) (lookup_table st) func kv t buffer
               bufsize st Hk Hst Hs).
    cbn [fst]. unfold tail.
    rewrite (count_bits_naive_correct (mem st) (lookup_table st)) by exact Hst.
    rewrite to_long_add_r. f_equal. f_equal.
    apply sum_words_perm. apply valid_team_chunks. exact Ht. }
  split; [exact E |].
  rewrite count_bits_kernel_double_eq. exact E.
Qed.

Lemma harness_sums_kernel_witness :
  pure_kernel (lookup_table sample_state) (fun _ => ret 1) (fun _ => 1) /\
  0 <= 21 < 2 ^ 64 /\
  valid_team (21 / chunk_size) (contiguous_team [1; 1]) /\
  fst (count_bits_kernel (fun _ => ret 1) (contiguous_team [1; 1]) 3 21 sample_state)
  = to_long
      (sumZ (map (fun i => 1) (zrange 0 (21 / chunk_size)))
       + fst (count_bits_naive (3 + chunk_size * (21 / chunk_size))
                (21 mod chunk_size) sample_state)).
Proof.
  assert (H1 : pure_kernel (lookup_table sample_state) (fun _ => ret 1)
                 (fun _ => 1)) by (intros c st _; reflexivity).
  assert (H2 : 0 <= 21 < 2 ^ 64) by (vm_compute; split; congruence).
  assert (H3 : valid_team (21 / chunk_size) (contiguous_team [1; 1])) by team_ok.
  split; [exact H1 |]. split; [exact H2 |]. split; [exact H3 |].
  exact (proj1 (harness_sums_kernel (fun _ => ret 1) (fun _ => 1) sample_state
                  (contiguous_team [1; 1]) 3 21 H1 H2 H3)).
Defined.

(* ===================================================================== *)
(** * The worksharing loops, from their headers *)
(* ===================================================================== *)

Lemma in_omp_for s tid lo hi i :
  In i (Omp.omp_for s tid lo hi) <-> lo <= i < hi /\ Omp.thread_of s i = tid.
Proof.
  unfold Omp.omp_for. rewrite filter_In, in_zrange, Z.eqb_eq. reflexivity.
Qed.

Lemma thread_of_range s i :
  1 <= Omp.nthreads s -> 0 <= Omp.thread_of s i < Omp.nthreads s.
Proof. intros H. apply Z.mod_pos_bound. lia. Qed.

Lemma concat_map_app_perm {A B} (h k : A -> list B) ts :
  Permutation (concat (map (fun t => h t ++ k t) ts))
              (concat (map h ts) ++ concat (map k ts)).
Proof.
  induction ts as [| t ts IH]; cbn [map concat app]; [constructor |].
  rewrite IH, <- !app_assoc. apply Permutation_app_head.
  rewrite !app_assoc. apply Permutation_app_tail, Permutation_app_comm.
Qed.

(** Among the threads [lo .. hi-1], one value goes to one thread. *)
Lemma concat_one_owner {B} (a : B) (c : Z) (n : nat) : forall lo hi,
  Z.to_nat (hi - lo) = n ->
  concat (map (fun t => if c =? t then [a] else []) (zrange lo hi))
  = if (lo <=? c) && (c <? hi) then [a] else [].
Proof.
  induction n as [| n IH]; intros lo hi Hn.
  - rewrite zrange_nil by lia.
    destruct (Z.leb_spec lo c), (Z.ltb_spec c hi); cbn [andb]; try reflexivity.
    lia.
  - rewrite zrange_cons by lia. cbn [map concat].
    rewrite (IH (lo + 1) hi) by lia.
    destruct (Z.eqb_spec c lo) as [-> | Hne].
    + destruct (Z.leb_spec lo lo), (Z.ltb_spec lo hi),
        (Z.leb_spec (lo + 1) lo); cbn [andb app]; try reflexivity; lia.
    + destruct (Z.leb_spec lo c), (Z.ltb_spec c hi),
        (Z.leb_spec (lo + 1) c); cbn [andb app]; try reflexivity; lia.
Qed.

(** Sharing out a list among the threads [lo .. hi-1] by an owner
    function keeps every element once. *)
Lemma shares_perm (f : Z -> Z) (l : list Z) lo hi :
  (forall i, In i l -> lo <= f i < hi) ->
  Permutation
    (concat (map (fun tid => filter (fun i => f i =? tid) l) (zrange lo hi)))
    l.
Proof.
  induction l as [| a l IH]; intros H.
  - cbn [filter]. induction (zrange lo hi) as [| t ts IHt]; [constructor |].
    cbn [map concat app]. exact IHt.
  - assert (E : map (fun tid => filter (fun i => f i =? tid) (a :: l))
                    (zrange lo hi)
                = map (fun tid => (if f a =? tid then [a] else [])
                                  ++ filter (fun i => f i =? tid) l)
                      (zrange lo hi)).
    { apply map_ext. intros tid. cbn [filter].
      destruct (f a =? tid); reflexivity. }
    rewrite E, concat_map_app_perm.
    rewrite (concat_one_owner a (f a) _ lo hi eq_refl).
    pose proof (H a (or_introl eq_refl)) as Ha.
    destruct (Z.leb_spec lo (f a)), (Z.ltb_spec (f a) hi); try lia.
    cbn [andb app]. constructor. apply IH.
    intros i Hi. apply H. right. exact Hi.
Qed.

Lemma team_of_chunks_eq s lo hi :
  team_chunks (Omp.team_of s lo hi)
  = concat (map (fun tid => Omp.omp_for s tid lo hi)
                (zrange 0 (Omp.nthreads s))).
Proof. unfold team_chunks, Omp.team_of. rewrite map_map. reflexivity. Qed.

(** The header of the loop bounds what any thread runs. *)
Lemma team_of_chunks_in s lo hi i :
  In i (team_chunks (Omp.team_of s lo hi)) -> lo <= i < hi.
Proof.
  rewrite team_of_chunks_eq, in_concat.
  intros (l & Hl & Hi). apply in_map_iff in Hl. destruct Hl as (tid & <- & _).
  apply in_omp_for in Hi. tauto.
Qed.

(** Every value of the counter is run by exactly one thread. *)
Lemma team_of_chunks s lo hi :
  1 <= Omp.nthreads s ->
  Permutation (team_chunks (Omp.team_of s lo hi)) (zrange lo hi).
Proof.
  intros HT. rewrite team_of_chunks_eq. unfold Omp.omp_for.
  apply (shares_perm (Omp.thread_of s)).
  intros i _. apply thread_of_range. exact HT.
Qed.

Lemma team_of_empty s lo hi :
  Omp.nthreads s <= 0 -> Omp.team_of s lo hi = [].
Proof. intros H. unfold Omp.team_of. rewrite zrange_nil by lia. reflexivity. Qed.

Lemma team_of_size s lo hi :
  0 <= Omp.nthreads s -> team_size (Omp.team_of s lo hi) = Omp.nthreads s.
Proof.
  intros H. unfold team_size, Omp.team_of.
  rewrite length_map, zrange_length. lia.
Qed.

Lemma team_of_valid s n :
  1 <= Omp.nthreads s -> valid_team n (Omp.team_of s 0 n).
Proof.
  intros HT. split; [| split].
  - unfold Omp.team_of. rewrite (zrange_cons 0) by lia. discriminate.
  - rewrite team_of_size by lia. unfold Omp.team_of.
    rewrite map_map. cbn [fst]. rewrite map_id. apply Permutation_refl.
  - apply team_of_chunks. exact HT.
Qed.

(** The parallel region over the team that the header gives. *)
Lemma omp_parallel_reduction_team s lo hi (region : Z -> list Z -> M Z)
    total st :
  omp_parallel_reduction (Omp.team_of s lo hi) region total st
  = Omp.omp_parallel_reduction s
      (fun tid => region tid (Omp.omp_for s tid lo hi)) total st.
Proof.
  unfold omp_parallel_reduction, Omp.omp_parallel_reduction, Omp.team_of.
  revert total st.
  induction (zrange 0 (Omp.nthreads s)) as [| tid l IH]; intros total st;
    [reflexivity |].
  cbn [map foldM]. rewrite !bind_run. cbn [fst snd]. apply IH.
Qed.

Lemma count_bits_kernel_team func s buffer bufsize st :
  Omp.count_bits_kernel func s buffer bufsize st
  = count_bits_kernel func
      (Omp.team_of s 0 (to_long (bufsize / chunk_size))) buffer bufsize st.
Proof.
  unfold Omp.count_bits_kernel, count_bits_kernel. cbv zeta.
  rewrite !(bind_run (omp_parallel_reduction _ _ _)).
  rewrite omp_parallel_reduction_team.
  rewrite !(bind_run (Omp.omp_parallel_reduction _ _ _)).
  reflexivity.
Qed.

Lemma count_bits_kernel_double_team func s buffer bufsize st :
  Omp.count_bits_kernel_double func s buffer bufsize st
  = count_bits_kernel_double func
      (Omp.team_of s 0 (to_long (bufsize / chunk_size))) buffer bufsize st.
Proof.
  unfold Omp.count_bits_kernel_double, count_bits_kernel_double. cbv zeta.
  rewrite !(bind_run (omp_parallel_reduction _ _ _)).
  change double_chunk_size with chunk_size.
  rewrite omp_parallel_reduction_team.
  rewrite !(bind_run (Omp.omp_parallel_reduction _ _ _)).
  reflexivity.
Qed.

Lemma count_bits_kernel2_team func func2 n1 n2 s buffer bufsize st :
  Omp.count_bits_kernel2 func func2 n1 n2 s buffer bufsize st
  = count_bits_kernel2 func func2 n1 n2
      (Omp.team_of s 0 (to_long (bufsize / chunk_size))) buffer bufsize st.
Proof.
  destruct (Z.le_gt_cases 0 (Omp.nthreads s)) as [HT | HT].
  - unfold Omp.count_bits_kernel2, count_bits_kernel2. cbv zeta.
    rewrite team_of_size by exact HT.
    rewrite !(bind_run (omp_parallel_reduction _ _ _)).
    rewrite omp_parallel_reduction_team.
    rewrite !(bind_run (Omp.omp_parallel_reduction _ _ _)).
    reflexivity.
  - unfold Omp.count_bits_kernel2, count_bits_kernel2. cbv zeta.
    rewrite team_of_empty by lia.
    unfold omp_parallel_reduction, Omp.omp_parallel_reduction.
    rewrite zrange_nil by lia. reflexivity.
Qed.

Lemma count_bits_asm_team nt s buffer bufsize st :
  Omp.count_bits_asm nt s buffer bufsize st
  = count_bits_asm nt (Omp.team_of s 0 (num_threads nt)) buffer bufsize st.
Proof.
  unfold Omp.count_bits_asm, count_bits_asm. cbv zeta.
  rewrite !(bind_run (omp_parallel_reduction _ _ _)).
  rewrite omp_parallel_reduction_team.
  rewrite !(bind_run (Omp.omp_parallel_reduction _ _ _)).
  reflexivity.
Qed.

(** Each harness function with its loop header is the function of the
    same name on the team that the header gives. *)
Lemma omp_harness_variant_team f :
  In f omp_harness_variants ->
  exists g, In g harness_variants /\
            forall s buffer bufsize st,
              f s buffer bufsize st
              = g (Omp.team_of s 0 (to_long (bufsize / chunk_size)))
                  buffer bufsize st.
Proof.
  unfold omp_harness_variants. cbn [In].
  intros [<- | [<- | [<- | [<- | [<- | [<- | []]]]]]].
  - exists count_bits_table. split; [cbn; tauto |].
    intros. apply count_bits_kernel_team.
  - exists count_bits_kernighan. split; [cbn; tauto |].
    intros. apply count_bits_kernel_team.
  - exists count_bits_sidewaysaddition. split; [cbn; tauto |].
    intros. apply count_bits_kernel_team.
  - exists count_bits_intrinsic. split; [cbn; tauto |].
    intros. apply count_bits_kernel_team.
  - exists count_bits_intrinsic_double. split; [cbn; tauto |].
    intros. apply count_bits_kernel_double_team.
  - exists count_bits_optimized. split; [cbn; tauto |].
    intros. apply count_bits_kernel2_team.
Qed.

Lemma num_chunks_long bufsize :
  0 <= bufsize < 2 ^ 64 -> to_long (bufsize / chunk_size) = bufsize / 8.
Proof.
  intros H. change chunk_size with 8. apply to_long_id.
  pose proof (Z.div_pos bufsize 8 ltac:(lia) ltac:(lia)).
  assert (bufsize / 8 < 2 ^ 61)
    by (apply Z.div_lt_upper_bound; [lia | change (8 * 2 ^ 61) with (2 ^ 64); lia]).
  assert (2 ^ 61 < 2 ^ 63) by (vm_compute; reflexivity).
  lia.
Qed.

(** A list without elements. *)
Lemma no_element_nil {A} (l : list A) : (forall x, ~ In x l) -> l = [].
Proof.
  destruct l as [| a l]; [reflexivity |].
  intros H. destruct (H a (or_introl eq_refl)).
Qed.

Lemma team_of_chunks_none s lo hi :
  hi <= lo -> team_chunks (Omp.team_of s lo hi) = [].
Proof.
  intros H. apply no_element_nil. intros i Hi.
  apply team_of_chunks_in in Hi. lia.
Qed.

(** What a harness function with its loop header returns and loads. *)
Lemma omp_harness_variant_run f st :
  In f omp_harness_variants ->
  exists kv,
    (table_ready (lookup_table st) ->
     forall c, 0 <= c < 2 ^ 64 -> kv c = popcount c) /\
    forall s buffer bufsize,
      0 <= bufsize < 2 ^ 64 ->
      f s buffer bufsize st
      = (to_long (sumZ (map (fun i => kv (word_at (mem st) (buffer + i * 8)))
                            (team_chunks (Omp.team_of s 0 (bufsize / 8))))
                  + bits_in (mem st) (buffer + 8 * (bufsize / 8)) (bufsize mod 8)),
         emit st (harness_events (Omp.team_of s 0 (bufsize / 8)) buffer bufsize)).
Proof.
  intros Hf. destruct (omp_harness_variant_team f Hf) as (g & Hg & E).
  destruct (harness_variant_run g (mem st) (lookup_table st) Hg)
    as (kv & Hkv & Hrun).
  exists kv. split; [exact Hkv |].
  intros s buffer bufsize Hsz.
  rewrite E, num_chunks_long by exact Hsz.
  apply Hrun; [apply store_is_self | exact Hsz].
Qed.

Lemma omp_harness_loads f st s buffer bufsize :
  In f omp_harness_variants -> 0 <= bufsize < 2 ^ 64 ->
  loads (f s buffer bufsize) st
  = harness_events (Omp.team_of s 0 (bufsize / 8)) buffer bufsize.
Proof.
  intros Hf Hsz. apply loads_emit.
  destruct (omp_harness_variant_run f st Hf) as (kv & _ & Hrun).
  rewrite Hrun by exact Hsz. reflexivity.
Qed.

Lemma omp_asm_loads nt st s buffer bufsize :
  loads (Omp.count_bits_asm nt s buffer bufsize) st
  = asm_events nt (Omp.team_of s 0 (num_threads nt)) buffer bufsize.
Proof.
  apply loads_emit. rewrite count_bits_asm_team.
  apply (asm_state (mem st) (lookup_table st)), store_is_self.
Qed.

(** The loads of the harness stay in the buffer because the counter
    stays below [num_chunks]. *)
Lemma omp_harness_events_in_buffer s buffer bufsize :
  0 <= bufsize ->
  Forall (in_buffer buffer bufsize)
    (harness_events (Omp.team_of s 0 (bufsize / 8)) buffer bufsize).
Proof.
  intros Hsz. unfold harness_events. apply Forall_app. split.
  - rewrite <- (Z.add_0_r buffer) at 2.
    apply chunk_events_in_buffer; [lia |].
    intros i Hi. apply team_of_chunks_in in Hi. mlia.
  - apply naive_events_in_buffer; mlia.
Qed.

Lemma Forall_flat_map_in {A B} (P : B -> Prop) (g : A -> list B) l :
  (forall x, In x l -> Forall P (g x)) -> Forall P (flat_map g l).
Proof.
  intros H. induction l as [| a l IH]; [constructor |].
  cbn [flat_map]. apply Forall_app. split.
  - apply H. now left.
  - apply IH. intros x Hx. apply H. now right.
Qed.

(** The loads of [count_bits_asm] stay in the buffer because [core]
    stays below [num_cores]. *)
Lemma omp_asm_events_in_buffer nt s buffer bufsize :
  - 2 ^ 31 <= nt < 2 ^ 31 -> 0 <= bufsize < 2 ^ 64 ->
  Forall (in_buffer buffer bufsize)
    (asm_events nt (Omp.team_of s 0 (num_threads nt)) buffer bufsize).
Proof.
  intros Hnt Hsz. unfold asm_events. cbv zeta.
  destruct (asm_leftover nt bufsize Hnt Hsz) as (Hcb & Hm & El).
  cbv zeta in Hcb, Hm, El.
  assert (H8 : 8 * (bufsize / 8) <= bufsize) by mlia.
  destruct (asm_sizes nt bufsize Hnt Hsz) as (k & Hk & Eb & Ec & Hle & _).
  cbv zeta in Eb, Ec, Hle.
  apply Forall_app. split.
  - apply Forall_flat_map_in. intros core Hc.
    apply team_of_chunks_in in Hc.
    rewrite asm_mybuffer_in_range by assumption.
    apply chunk_events_in_buffer.
    + rewrite Eb. nia.
    + intros i Hi. apply in_zrange in Hi. rewrite Eb in *.
      replace (8 * k / 8) with k in Hi
        by (rewrite Z.mul_comm, Z.div_mul; lia).
      split; [lia |].
      assert ((core + 1) * k <= Z.max 0 (num_threads nt) * k)
        by (apply Z.mul_le_mono_nonneg_r; lia).
      nia.
  - rewrite El. apply naive_events_in_buffer; lia.
Qed.

Lemma flat_map_all_nil {A B} (g : A -> list B) l :
  (forall x, In x l -> g x = []) -> flat_map g l = [].
Proof.
  intros H. induction l as [| a l IH]; [reflexivity |].
  cbn [flat_map]. rewrite (H a (or_introl eq_refl)), IH; [reflexivity |].
  intros x Hx. apply H. now right.
Qed.

(** An empty buffer: no chunk and no tail. *)
Lemma omp_harness_empty f st s buffer :
  In f omp_harness_variants -> f s buffer 0 st = (0, st).
Proof.
  intros Hf. destruct (omp_harness_variant_run f st Hf) as (kv & _ & Hrun).
  rewrite Hrun by (vm_compute; split; congruence).
  change (0 / 8) with 0. change (0 mod 8) with 0.
  unfold harness_events. rewrite team_of_chunks_none by lia.
  change (0 / 8) with 0. change (0 mod 8) with 0.
  rewrite naive_events_nil by lia. rewrite bits_in_nil by lia.
  cbn [map chunk_events app sumZ fold_right]. rewrite emit_nil. reflexivity.
Qed.

Lemma omp_asm_empty nt st s buffer :
  - 2 ^ 31 <= nt < 2 ^ 31 ->
  Omp.count_bits_asm nt s buffer 0 st = (0, st).
Proof.
  intros Hnt.
  assert (Hsz : 0 <= 0 < 2 ^ 64) by (vm_compute; split; congruence).
  rewrite count_bits_asm_team.
  rewrite (count_bits_asm_run (mem st) (lookup_table st))
    by apply store_is_self.
  cbv zeta.
  destruct (asm_leftover nt 0 Hnt Hsz) as (Hcb & _ & El).
  destruct (asm_sizes nt 0 Hnt Hsz) as (k & Hk & Eb & _ & Hle & H1 & H2).
  cbv zeta in Hcb, El, Eb, Hle, H1, H2.
  change (8 * (0 / 8)) with 0 in Hcb. change (0 / 8) with 0 in *.
  assert (Ecb : asm_chunked_bufsize (num_threads nt) 0 = 0) by lia.
  assert (Ek : k = 0).
  { destruct (Z.le_gt_cases 1 nt) as [Hp | Hp].
    - destruct (H1 Hp) as [_ ->]. apply Z.div_0_l. lia.
    - apply H2. lia. }
  rewrite Ecb in *. rewrite Eb, Ek. change (8 * 0 / 8) with 0.
  change (8 * 0) with 0. change (to_size_t (0 - 0)) with 0.
  rewrite sumZ_map_zero by (intros core _; apply bits_in_nil; lia).
  rewrite flat_map_all_nil by (intros core _; reflexivity).
  rewrite naive_events_nil by lia. rewrite bits_in_nil by lia.
  cbn [app]. rewrite emit_nil. reflexivity.
Qed.

(** A sum over the chunks of a team, taken thread by thread. *)
Lemma sum_by_thread (h : Z * list Z -> Z -> Z) (G : Z -> Z) (t : team) :
  (forall th i, In th t -> In i (snd th) -> h th i = G i) ->
  sumZ (map (fun th => sumZ (map (h th) (snd th))) t)
  = sumZ (map G (team_chunks t)).
Proof.
  intros H. unfold team_chunks. rewrite sumZ_concat_map, map_map.
  f_equal. apply map_ext_in. intros th Hth. f_equal.
  apply map_ext_in. intros i Hi. apply H; assumption.
Qed.

(** [count_bits_kernel2] with its loop headers: every value of the
    counter below [num_chunks] is run once, with the kernel of the
    branch that the thread it is given to has taken. *)
Lemma omp_count_bits_kernel2_run func func2 kv kv2 n1 n2 s buffer bufsize st :
  pure_kernel (lookup_table st) func kv ->
  pure_kernel (lookup_table st) func2 kv2 ->
  0 <= bufsize < 2 ^ 64 -> 1 <= Omp.nthreads s ->
  Omp.count_bits_kernel2 func func2 n1 n2 s buffer bufsize st
  = (to_long
       (sumZ (map (fun i =>
                     if Omp.thread_of s i
                        <? Z.quot (Omp.nthreads s) (to_int (n1 + n2))
                     then kv (word_at (mem st) (buffer + i * 8))
                     else kv2 (word_at (mem st) (buffer + i * 8)))
                  (zrange 0 (bufsize / 8)))
        + bits_in (mem st) (buffer + 8 * (bufsize / 8)) (bufsize mod 8)),
     emit st (harness_events (Omp.team_of s 0 (bufsize / 8)) buffer bufsize)).
Proof.
  intros Hk Hk2 Hsz HT.
  rewrite count_bits_kernel2_team, num_chunks_long by exact Hsz.
  set (t := Omp.team_of s 0 (bufsize / 8)).
  rewrite (count_bits_kernel2_run (mem st) (lookup_table st) func func2 kv kv2
             n1 n2 t buffer bufsize st Hk Hk2 (store_is_self st) Hsz).
  apply (f_equal2 pair); [| reflexivity].
  f_equal. f_equal.
  unfold chunks_func1, chunks_func2.
  rewrite <- (sum_by_kernel
                (fun th => runs_func1 n1 n2 (team_size t) (fst th))).
  rewrite (sum_words_perm _ _ _ (Permutation_sym (team_of_chunks s 0 _ HT))).
  fold t.
  transitivity
    (sumZ (map (fun th =>
                  sumZ (map ((fun th i =>
                                (if runs_func1 n1 n2 (team_size t) (fst th)
                                 then fun i => kv (word_at (mem st) (buffer + i * 8))
                                 else fun i => kv2 (word_at (mem st) (buffer + i * 8)))
                                  i) th)
                            (snd th))) t)).
  { reflexivity. }
  apply sum_by_thread.
  intros th i Hth Hi. unfold t, Omp.team_of in Hth.
  apply in_map_iff in Hth. destruct Hth as (tid & <- & _).
  cbn [fst snd] in *. apply in_omp_for in Hi. destruct Hi as [_ Ei].
  unfold t. rewrite team_of_size by lia.
  unfold runs_func1. rewrite Ei.
  destruct (tid <? Z.quot (Omp.nthreads s) (to_int (n1 + n2))); reflexivity.
Qed.

(* ===================================================================== *)
(** * Tail handling, bounds and the hybrid harness *)
(* ===================================================================== *)

(** A runtime with two threads that hands out the values of a loop
    counter in turn: the even ones to thread 0, the odd ones to
    thread 1. *)
Example omp_round_robin :
  Omp.team_of (Omp.mkSchedule 2 (fun i => i)) 0 5 = [(0, [0; 2; 4]); (1, [1; 3])].
Proof. reflexivity. Qed.

Example omp_table_sample :
  fst (Omp.count_bits_table (Omp.mkSchedule 2 (fun i => i)) 3 21 sample_state)
  = 86.
Proof. vm_compute. reflexivity. Qed.

Example omp_hybrid_sample :
  fst (Omp.count_bits_kernel2 (fun _ => ret 1000) (fun _ => ret 1) 1 1
         (Omp.mkSchedule 2 (fun i => i)) 3 37 sample_state)
  = 2002 + fst (count_bits_naive 35 5 sample_state).
Proof. vm_compute. reflexivity. Qed.

(** C2 (as amended) - tail handling.  In each of the six harness
    variants the counter of the worksharing loop runs from 0 to
    [num_chunks = L / chunk_size], so that, however the runtime shares
    out its values among the threads of the team, exactly the
    [L / chunk_size] whole chunks of the buffer are loaded, each once,
    and the remaining [L % chunk_size] bytes go to the naive loop; the
    harness returns the sum of its kernel over these chunks plus the
    count of the naive loop on the tail.  [count_bits_asm] splits the
    buffer elsewhere: its cores load the first
    [num_cores * ((L / chunk_size) / num_cores)] chunks, each once, and
    the naive loop gets all the bytes after them, which are the
    [L % chunk_size] last bytes only when [num_cores] divides
    [L / chunk_size].  In both cases every byte falls in exactly one of
    the two parts. *)
Theorem tail_policy_by_variant :
  forall st (s : Omp.schedule) nt buffer bufsize,
    0 <= bufsize < 2 ^ 64 ->
    1 <= Omp.nthreads s ->
    - 2 ^ 31 <= nt < 2 ^ 31 ->
    (forall f, In f omp_harness_variants ->
       split_policy (chunk_size * (bufsize / chunk_size)) buffer bufsize
         (loads (f s buffer bufsize) st)) /\
    (forall func kv,
       pure_kernel (lookup_table st) func kv ->
       fst (Omp.count_bits_kernel func s buffer bufsize st)
       = to_long
           (sumZ (map (fun i => kv (word_at (mem st) (buffer + i * chunk_size)))
                      (zrange 0 (bufsize / chunk_size)))
            + fst (count_bits_naive
                     (buffer + chunk_size * (bufsize / chunk_size))
                     (bufsize mod chunk_size) st))) /\
    bufsize - chunk_size * (bufsize / chunk_size) = bufsize mod chunk_size /\
    (let cb := asm_chunked_bufsize (num_threads nt) bufsize in
     split_policy cb buffer bufsize
       (loads (Omp.count_bits_asm nt s buffer bufsize) st) /\
     0 <= cb <= chunk_size * (bufsize / chunk_size) /\
     (1 <= nt -> cb = chunk_size * (nt * (bufsize / chunk_size / nt))) /\
     (1 <= nt -> (bufsize / chunk_size) mod nt = 0 ->
      cb = chunk_size * (bufsize / chunk_size))).
Proof.
  intros st s nt buffer bufsize Hsz HT Hnt.
  pose proof (store_is_self st) as Hst. unfold chunk_size in *.
  split; [| split; [| split; [| split; [| split; [| split]]]]].
  - intros f Hf. rewrite omp_harness_loads by assumption.
    apply harness_split_policy; [lia |]. apply team_of_valid. exact HT.
  - intros func kv Hk.
    rewrite count_bits_kernel_team, num_chunks_long by exact Hsz.
    rewrite (count_bits_kernel_run (mem st) (lookup_table st) func kv _ buffer
               bufsize st Hk Hst Hsz).
    cbn [fst].
    rewrite (count_bits_naive_correct (mem st) (lookup_table st)) by exact Hst.
    rewrite to_long_add_r. do 2 f_equal.
    apply sum_words_perm, team_of_chunks. exact HT.
  - mlia.
  - rewrite omp_asm_loads.
    apply asm_events_perm; [assumption | assumption |].
    apply team_of_valid. exact HT.
  - apply asm_leftover; assumption.
  - intros Hpos.
    destruct (asm_sizes nt bufsize Hnt Hsz) as (k & Hk & Eb & Ec & Hle & H1 & _).
    destruct (H1 Hpos) as [Enc Ek]. rewrite Ec, Enc, Ek. lia.
  - intros Hpos Hdiv.
    destruct (asm_sizes nt bufsize Hnt Hsz) as (k & Hk & Eb & Ec & Hle & H1 & _).
    destruct (H1 Hpos) as [Enc Ek]. rewrite Ec, Enc, Ek.
    pose proof (Z.div_mod (bufsize / 8) nt ltac:(lia)) as Hd.
    rewrite Hdiv in Hd. lia.
Qed.

Lemma tail_policy_by_variant_witness :
  0 <= 21 < 2 ^ 64 /\
  1 <= Omp.nthreads (Omp.mkSchedule 2 (fun i => i)) /\
  - 2 ^ 31 <= 2 < 2 ^ 31 /\
  split_policy (chunk_size * (21 / chunk_size)) 3 21
    (loads (Omp.count_bits_kernighan (Omp.mkSchedule 2 (fun i => i)) 3 21)
           sample_state) /\
  split_policy (asm_chunked_bufsize (num_threads 2) 21) 3 21
    (loads (Omp.count_bits_asm 2 (Omp.mkSchedule 2 (fun i => i)) 3 21)
           sample_state).
Proof.
  assert (H1 : 0 <= 21 < 2 ^ 64) by zconst.
  assert (H2 : 1 <= Omp.nthreads (Omp.mkSchedule 2 (fun i => i)))
    by (cbn; lia).
  assert (H3 : - 2 ^ 31 <= 2 < 2 ^ 31) by zconst.
  destruct (tail_policy_by_variant sample_state
              (Omp.mkSchedule 2 (fun i => i)) 2 3 21 H1 H2 H3)
    as (Hh & _ & _ & Ha & _).
  split; [exact H1 |]. split; [exact H2 |]. split; [exact H3 |].
  split; [| exact Ha].
  apply Hh. cbn [omp_harness_variants In]. tauto.
Defined.

(** C2 as stated fails for [count_bits_asm]: with two cores and a buffer
    of one chunk (8 bytes) no chunk is loaded by the [popcnt] loop and all
    eight bytes go to the naive loop, although [8 / chunk_size = 1] and
    [8 % chunk_size = 0]. *)
Lemma asm_tail_policy_counterexample :
  0 <= 8 < 2 ^ 64 /\
  valid_team (num_threads 2) (contiguous_team [1; 1]) /\
  loads (count_bits_asm 2 (contiguous_team [1; 1]) 0 8) boot_state
  = naive_events 0 8 /\
  ~ split_policy (chunk_size * (8 / chunk_size)) 0 8
      (loads (count_bits_asm 2 (contiguous_team [1; 1]) 0 8) boot_state) /\
  loads (Omp.count_bits_asm 2 (Omp.mkSchedule 2 (fun core => core)) 0 8)
        boot_state
  = naive_events 0 8 /\
  ~ split_policy (chunk_size * (8 / chunk_size)) 0 8
      (loads (Omp.count_bits_asm 2 (Omp.mkSchedule 2 (fun core => core)) 0 8)
             boot_state).
Proof.
  assert (N : ~ split_policy (chunk_size * (8 / chunk_size)) 0 8
                  (naive_events 0 8)).
  { intros (tc & Hperm & Heq).
    apply Permutation_length in Hperm.
    apply (f_equal (@length event)) in Heq.
    rewrite length_app in Heq.
    change (length (naive_events (0 + chunk_size * (8 / chunk_size))
                                 (8 - chunk_size * (8 / chunk_size))))
      with 0%nat in Heq.
    change (length (naive_events 0 8)) with 64%nat in Heq.
    change (length (chunk_events 8 0
                      (zrange 0 (chunk_size * (8 / chunk_size) / 8))))
      with 1%nat in Hperm.
    lia. }
  split; [zconst |]. split; [team_ok |].
  assert (E : loads (count_bits_asm 2 (contiguous_team [1; 1]) 0 8) boot_state
              = naive_events 0 8) by (vm_compute; reflexivity).
  assert (E' : loads (Omp.count_bits_asm 2 (Omp.mkSchedule 2 (fun core => core))
                        0 8) boot_state
               = naive_events 0 8) by (vm_compute; reflexivity).
  split; [exact E |]. split; [rewrite E; exact N |].
  split; [exact E' |]. rewrite E'. exact N.
Qed.

(** C3 - no read outside the buffer.  Every load of [count_bits_naive],
    of the six harness variants, of [count_bits_asm] and of
    [count_bits_asm_chunked] lies inside [[buffer, buffer + bufsize)]:
    the counters of the loops stop at [bufsize], at [num_chunks] and at
    [num_cores], whatever the runtime does with their values.  On an
    empty buffer each of them returns 0 and leaves the log of loads as it
    was; [count_bits_asm_chunked] does so for every buffer shorter than
    one chunk, where its guard skips the loop. *)
Theorem loads_stay_in_buffer :
  forall st (s : Omp.schedule) nt buffer bufsize,
    0 <= bufsize < 2 ^ 64 ->
    - 2 ^ 31 <= nt < 2 ^ 31 ->
    Forall (in_buffer buffer bufsize) (loads (count_bits_naive buffer bufsize) st) /\
    (forall f, In f omp_harness_variants ->
       Forall (in_buffer buffer bufsize) (loads (f s buffer bufsize) st)) /\
    Forall (in_buffer buffer bufsize)
      (loads (Omp.count_bits_asm nt s buffer bufsize) st) /\
    Forall (in_buffer buffer bufsize)
      (loads (count_bits_asm_chunked buffer bufsize) st) /\
    (bufsize = 0 ->
       count_bits_naive buffer bufsize st = (0, st) /\
       (forall f, In f omp_harness_variants -> f s buffer bufsize st = (0, st)) /\
       Omp.count_bits_asm nt s buffer bufsize st = (0, st)) /\
    (bufsize < chunk_size -> count_bits_asm_chunked buffer bufsize st = (0, st)).
Proof.
  intros st s nt buffer bufsize Hsz Hnt.
  pose proof (store_is_self st) as Hst. unfold chunk_size in *.
  assert (Hnaive : count_bits_naive buffer bufsize st
                   = (to_long (bits_in (mem st) buffer bufsize),
                      emit st (naive_events buffer bufsize)))
    by (apply (count_bits_naive_run (mem st) (lookup_table st)); exact Hst).
  assert (Hchunked : count_bits_asm_chunked buffer bufsize st
            = (to_long (bits_in (mem st) buffer (8 * (bufsize / 8))),
               emit st (chunk_events 8 buffer (zrange 0 (bufsize / 8)))))
    by (apply (count_bits_asm_chunked_run (mem st) (lookup_table st));
        assumption).
  split; [| split; [| split; [| split; [| split]]]].
  - rewrite (loads_emit _ st (naive_events buffer bufsize))
      by (rewrite Hnaive; reflexivity).
    rewrite <- (Z.add_0_r buffer) at 2.
    apply naive_events_in_buffer; lia.
  - intros f Hf. rewrite omp_harness_loads by assumption.
    apply omp_harness_events_in_buffer. lia.
  - rewrite omp_asm_loads. apply omp_asm_events_in_buffer; assumption.
  - rewrite (loads_emit _ st (chunk_events 8 buffer (zrange 0 (bufsize / 8))))
      by (rewrite Hchunked; reflexivity).
    rewrite <- (Z.add_0_r buffer) at 2.
    apply chunk_events_in_buffer; [lia |].
    intros i Hi. apply in_zrange in Hi. mlia.
  - intros ->. split; [| split].
    + rewrite Hnaive. cbn [naive_events zrange Z.to_nat Z.sub seq map flat_map].
      rewrite emit_nil. reflexivity.
    + intros f Hf. apply omp_harness_empty. exact Hf.
    + apply omp_asm_empty. exact Hnt.
  - intros Hlt. apply count_bits_asm_chunked_empty. lia.
Qed.

Lemma loads_stay_in_buffer_witness :
  0 <= 21 < 2 ^ 64 /\
  - 2 ^ 31 <= 2 < 2 ^ 31 /\
  Forall (in_buffer 3 21)
    (loads (Omp.count_bits_asm 2 (Omp.mkSchedule 2 (fun i => i)) 3 21)
           sample_state) /\
  Forall (in_buffer 3 21)
    (loads (Omp.count_bits_table (Omp.mkSchedule 2 (fun i => i)) 3 21)
           sample_state).
Proof.
  assert (H1 : 0 <= 21 < 2 ^ 64) by zconst.
  assert (H3 : - 2 ^ 31 <= 2 < 2 ^ 31) by zconst.
  destruct (loads_stay_in_buffer sample_state (Omp.mkSchedule 2 (fun i => i))
              2 3 21 H1 H3)
    as (_ & Hh & Ha & _).
  split; [exact H1 |]. split; [exact H3 |]. split; [exact Ha |].
  apply Hh. cbn [omp_harness_variants In]. tauto.
Defined.

(** C9 - the hybrid harness.  In [count_bits_kernel2] both worksharing
    loops have the header [for (long i = 0; i < num_chunks; i++)].  A
    thread with [thread_id < num_threads / (numFunc1 + numFunc2)] runs
    the values of the counter it is given with the first kernel, every
    other thread runs its values with the second one: the function
    returns the sum over all the [L / chunk_size] chunks, each taken
    once, of the result of the kernel of the thread the chunk goes to,
    plus the count of the tail, and it loads every chunk once.  With a
    team smaller than [numFunc1 + numFunc2] (a single thread, for the
    weights 1 and 1) the first kernel gets no chunk and the second all
    of them.  [count_bits_optimized] returns the total of
    [count_bits_naive]. *)
Theorem hybrid_harness_split :
  forall func func2 kv kv2 numFunc1 numFunc2 st (s : Omp.schedule)
         buffer bufsize,
    pure_kernel (lookup_table st) func kv ->
    pure_kernel (lookup_table st) func2 kv2 ->
    0 <= bufsize < 2 ^ 64 ->
    1 <= Omp.nthreads s ->
    let word i := word_at (mem st) (buffer + i * chunk_size) in
    let tail := bits_in (mem st) (buffer + chunk_size * (bufsize / chunk_size))
                        (bufsize mod chunk_size) in
    fst (Omp.count_bits_kernel2 func func2 numFunc1 numFunc2 s buffer bufsize st)
    = to_long
        (sumZ (map (fun i =>
                      if Omp.thread_of s i
                         <? Z.quot (Omp.nthreads s) (to_int (numFunc1 + numFunc2))
                      then kv (word i) else kv2 (word i))
                   (zrange 0 (bufsize / chunk_size)))
         + tail) /\
    split_policy (chunk_size * (bufsize / chunk_size)) buffer bufsize
      (loads (Omp.count_bits_kernel2 func func2 numFunc1 numFunc2 s
                buffer bufsize) st) /\
    (0 < numFunc1 + numFunc2 < 2 ^ 31 ->
     Omp.nthreads s < numFunc1 + numFunc2 ->
     fst (Omp.count_bits_kernel2 func func2 numFunc1 numFunc2 s buffer bufsize st)
     = to_long (sumZ (map (fun i => kv2 (word i)) (zrange 0 (bufsize / chunk_size)))
                + tail)) /\
    fst (Omp.count_bits_optimized s buffer bufsize st)
    = fst (count_bits_naive buffer bufsize st).
Proof.
  intros func func2 kv kv2 n1 n2 st s buffer bufsize Hk Hk2 Hsz HT word tail.
  pose proof (store_is_self st) as Hst. unfold chunk_size in *.
  assert (Hrun := omp_count_bits_kernel2_run func func2 kv kv2 n1 n2 s buffer
                    bufsize st Hk Hk2 Hsz HT).
  assert (Eint : 0 < n1 + n2 < 2 ^ 31 -> to_int (n1 + n2) = n1 + n2).
  { intros Hw. unfold to_int. rewrite Z.mod_small; lia. }
  split; [| split; [| split]].
  - rewrite Hrun. reflexivity.
  - rewrite (loads_emit _ st _ (f_equal snd Hrun)).
    apply harness_split_policy; [lia |]. apply team_of_valid. exact HT.
  - intros Hw Hsmall. rewrite Hrun. cbn [fst]. do 3 f_equal.
    apply map_ext. intros i.
    rewrite (Eint Hw), Z.quot_small by lia.
    pose proof (thread_of_range s i HT) as Hr.
    destruct (Z.ltb_spec (Omp.thread_of s i) 0); [lia | reflexivity].
  - rewrite (count_bits_naive_run (mem st) (lookup_table st)) by exact Hst.
    cbn [fst]. unfold Omp.count_bits_optimized.
    rewrite count_bits_kernel2_team, num_chunks_long by exact Hsz.
    apply (count_bits_kernel2_correct (mem st) (lookup_table st));
      auto using intrinsic_counts_bits, sidewaysaddition_counts_bits.
    apply team_of_valid. exact HT.
Qed.

Lemma hybrid_harness_split_witness :
  pure_kernel (lookup_table sample_state) (fun _ => ret 1000) (fun _ => 1000) /\
  pure_kernel (lookup_table sample_state) (fun _ => ret 1) (fun _ => 1) /\
  0 <= 37 < 2 ^ 64 /\
  1 <= Omp.nthreads (Omp.mkSchedule 2 (fun i => i)) /\
  fst (Omp.count_bits_kernel2 (fun _ => ret 1000) (fun _ => ret 1) 1 1
         (Omp.mkSchedule 2 (fun i => i)) 3 37 sample_state)
  = to_long
      (sumZ (map (fun i =>
                    if Omp.thread_of (Omp.mkSchedule 2 (fun i => i)) i
                       <? Z.quot 2 (to_int (1 + 1))
                    then 1000 else 1)
                 (zrange 0 (37 / chunk_size)))
       + bits_in (mem sample_state) (3 + chunk_size * (37 / chunk_size))
           (37 mod chunk_size)) /\
  sumZ (map (fun i =>
               if Omp.thread_of (Omp.mkSchedule 2 (fun i => i)) i
                  <? Z.quot 2 (to_int (1 + 1))
               then 1000 else 1)
            (zrange 0 (37 / chunk_size)))
  = 2002.
Proof.
  assert (H1 : pure_kernel (lookup_table sample_state) (fun _ => ret 1000)
                 (fun _ => 1000)) by (intros c st _; reflexivity).
  assert (H2 : pure_kernel (lookup_table sample_state) (fun _ => ret 1)
                 (fun _ => 1)) by (intros c st _; reflexivity).
  assert (H3 : 0 <= 37 < 2 ^ 64) by zconst.
  assert (H4 : 1 <= Omp.nthreads (Omp.mkSchedule 2 (fun i => i)))
    by (cbn; lia).
  destruct (hybrid_harness_split _ _ _ _ 1 1 sample_state
              (Omp.mkSchedule 2 (fun i => i)) 3 37 H1 H2 H3 H4)
    as (Hv & _).
  split; [exact H1 |]. split; [exact H2 |]. split; [exact H3 |].
  split; [exact H4 |]. split; [exact Hv | reflexivity].
Defined.

(* ===================================================================== *)
(** * The program *)
(* ===================================================================== *)

Module AppFacts.
Import String Ascii Driver Report.




(** A size that is not negative as a [long] is passed on unchanged. *)
Lemma long_bufsize b : 0 <= b < 2 ^ 64 -> 0 <= to_long b -> to_long b = b.
Proof.
  intros Hb Hn. unfold to_long in *.
  destruct (Z.lt_ge_cases b (2 ^ 63)) as [Hlt | Hge].
  - rewrite Z.mod_small by lia. ring.
  - exfalso.
    replace (b + 2 ^ 63) with (b - 2 ^ 63 + 1 * 2 ^ 64) in Hn by ring.
    rewrite Z.mod_add in Hn by lia.
    rewrite Z.mod_small in Hn by lia. lia.
Qed.




End AppFacts.

Module CLIClaims.
Import String Ascii Driver Report.




End CLIClaims.

